(** * A shallow embedding of the P02 scheduler simulator

    The development follows [Assignments/P02/pkg/scheduler.py]
    (class [Scheduler]), [Assignments/P02/main.py]
    ([load_processes_from_json]) and
    [Assignments/P02/gen_jobs/generate_jobs.py] ([generate_processes]).

    Python objects are modelled by records, the deques and lists of the
    scheduler by [list], Python integers by [Z], and the mutation of
    [self] by explicit state passing: every method takes the scheduler
    state and returns the new one. *)

From Stdlib Require Import ZArith QArith String Ascii DecimalString Lia.
From stdpp Require Import base decidable list strings gmap.

Local Open Scope string_scope.
Local Open Scope Z_scope.
Local Open Scope list_scope.

(** ** Processes, CPUs, I/O devices *)

(** A burst record: the dict [{"cpu": n}] or
    [{"io": {"type": ty, "duration": d}}]. *)
Inductive Burst : Type :=
| CpuBurst (n : Z)
| IoBurst (ty : string) (duration : Z).

Inductive PState : Type := New | Ready | Running | Waiting | Finished.

#[global] Instance Burst_eq_dec : EqDecision Burst.
Proof. solve_decision. Defined.

#[global] Instance PState_eq_dec : EqDecision PState.
Proof. solve_decision. Defined.

(** Modelled from the spec: the class [Process] of [pkg/process.py], which
    the scheduler imports.  The fields are the attributes of section 3 of
    the specification; [cursor] is the index of the current burst. *)
Record Process : Type := mkProcessRec {
  pid : string;
  bursts : list Burst;
  cursor : nat;
  priority : Z;
  quantum : Z;
  remaining_quantum : Z;
  arrival_time : Z;
  state : PState
}.

#[global] Instance Process_eq_dec : EqDecision Process.
Proof. solve_decision. Defined.

(** Modelled from the spec: the constructor
    [Process(pid, bursts, priority, quantum, arrival_time)] as [main.py]
    calls it.  A new process is in state [new], its cursor is on the first
    burst and its time slice is a whole quantum. *)
Definition mkProcess (pid : string) (bursts : list Burst)
    (priority quantum arrival_time : Z) : Process :=
  {| pid := pid; bursts := bursts; cursor := 0%nat; priority := priority;
     quantum := quantum; remaining_quantum := quantum;
     arrival_time := arrival_time; state := New |}.

Definition set_state (st : PState) (p : Process) : Process :=
  {| pid := pid p; bursts := bursts p; cursor := cursor p;
     priority := priority p; quantum := quantum p;
     remaining_quantum := remaining_quantum p;
     arrival_time := arrival_time p; state := st |}.

Definition set_remaining_quantum (rq : Z) (p : Process) : Process :=
  {| pid := pid p; bursts := bursts p; cursor := cursor p;
     priority := priority p; quantum := quantum p;
     remaining_quantum := rq;
     arrival_time := arrival_time p; state := state p |}.

Definition set_bursts (bs : list Burst) (p : Process) : Process :=
  {| pid := pid p; bursts := bs; cursor := cursor p;
     priority := priority p; quantum := quantum p;
     remaining_quantum := remaining_quantum p;
     arrival_time := arrival_time p; state := state p |}.

(** Modelled from the spec: [Process.current_burst()], the burst under the
    cursor, [None] once the cursor is past the end. *)
Definition current_burst (p : Process) : option Burst :=
  bursts p !! cursor p.

(** Modelled from the spec: [Process.advance_burst()], the cursor only
    advances. *)
Definition advance_burst (p : Process) : Process :=
  {| pid := pid p; bursts := bursts p; cursor := S (cursor p);
     priority := priority p; quantum := quantum p;
     remaining_quantum := remaining_quantum p;
     arrival_time := arrival_time p; state := state p |}.

Definition cpu_time (b : Burst) : Z :=
  match b with
  | CpuBurst n => n
  | IoBurst _ _ => 0
  end.

Fixpoint sum_cpu (bs : list Burst) : Z :=
  match bs with
  | [] => 0
  | b :: bs' => cpu_time b + sum_cpu bs'
  end.

(** Modelled from the spec: [Process.remaining_burst_time()], the sum of
    the durations of all CPU bursts from the cursor onward, inclusive
    (glossary, "Remaining burst time"). *)
Definition remaining_burst_time (p : Process) : Z :=
  sum_cpu (drop (cursor p) (bursts p)).

(** Modelled from the spec: the class [CPU] of [pkg/cpu.py]; [cid] is the
    index of the unit in the pool, [cpu_current] the process it holds. *)
Record CPU : Type := mkCPU {
  cid : nat;
  cpu_current : option Process
}.

(** Modelled from the spec: the class [IODevice] of [pkg/ioDevice.py]. *)
Record IODevice : Type := mkIODevice {
  did : nat;
  io_current : option Process
}.

Definition cpu_is_busy (c : CPU) : bool :=
  match cpu_current c with Some _ => true | None => false end.

Definition io_is_busy (d : IODevice) : bool :=
  match io_current d with Some _ => true | None => false end.

(** Modelled from the spec: [CPU.assign(p)] places a process on the unit
    (section 4.2); the process moves to [running] on dispatch (section 3,
    lifecycle).  Nothing else of the process changes. *)
Definition cpu_assign (c : CPU) (p : Process) : CPU :=
  {| cid := cid c; cpu_current := Some (set_state Running p) |}.

(** Modelled from the spec: [IODevice.assign(p)], symmetric to the CPU
    unit; the process is already in state [waiting]. *)
Definition io_assign (d : IODevice) (p : Process) : IODevice :=
  {| did := did d; io_current := Some p |}.

(** Modelled from the spec: [CPU.tick()] decrements the current CPU
    burst's remaining count by one; if it reaches zero it advances the
    cursor, clears [current] and returns the formerly running process
    (section 4.2).  An idle unit, or one whose process is not on a CPU
    burst, is left as it is. *)
Definition cpu_tick (c : CPU) : CPU * option Process :=
  match cpu_current c with
  | None => (c, None)
  | Some p =>
      match current_burst p with
      | Some (CpuBurst n) =>
          let p' := set_bursts (<[cursor p := CpuBurst (n - 1)]> (bursts p)) p in
          if n - 1 =? 0
          then ({| cid := cid c; cpu_current := None |}, Some (advance_burst p'))
          else ({| cid := cid c; cpu_current := Some p' |}, None)
      | _ => (c, None)
      end
  end.

(** Modelled from the spec: [IODevice.tick()], symmetric to [CPU.tick()]
    on the [duration] field of the current I/O burst (section 4.3). *)
Definition io_tick (d : IODevice) : IODevice * option Process :=
  match io_current d with
  | None => (d, None)
  | Some p =>
      match current_burst p with
      | Some (IoBurst ty n) =>
          let p' := set_bursts (<[cursor p := IoBurst ty (n - 1)]> (bursts p)) p in
          if n - 1 =? 0
          then ({| did := did d; io_current := None |}, Some (advance_burst p'))
          else ({| did := did d; io_current := Some p' |}, None)
      | _ => (d, None)
      end
  end.

(** ** Scheduler state and event log *)

(** The value of [self.algorithm]; every string that is none of the six
    policy names falls into the [else] branches of the scheduler. *)
Inductive Algorithm : Type :=
| FCFS | SJF | SRTF | Priority | PriorityPreemptive | RR
| Other (name : string).

Definition algorithm_name (a : Algorithm) : string :=
  match a with
  | FCFS => "FCFS" | SJF => "SJF" | SRTF => "SRTF"
  | Priority => "Priority" | PriorityPreemptive => "PriorityPreemptive"
  | RR => "RR" | Other name => name
  end.

(** [str(n)] for a Python integer, as the f-strings of the scheduler
    print it. *)
Definition str_Z (z : Z) : string := NilZero.string_of_int (Z.to_int z).
Definition str_nat (n : nat) : string := NilZero.string_of_uint (Nat.to_uint n).

(** The three bytes of the arrow used in the event texts. *)
Definition arrow : string :=
  String (ascii_of_nat 226) (String (ascii_of_nat 134)
    (String (ascii_of_nat 146) EmptyString)).

(** One entry of [self.events]: the dict built by [_record]. *)
Record Event : Type := mkEvent {
  ev_time : Z;
  ev_event : string;
  ev_event_type : string;
  ev_process : option string;
  ev_device : option string;
  ev_ready_queue : list string;
  ev_wait_queue : list string;
  ev_cpus : list (option string);
  ev_ios : list (option string)
}.

(** The attributes of a [Scheduler] object.  [clock] is the value of the
    clock the scheduler owns (modelled from the spec, section 4.1: one
    integer counter per simulation, starting at 0).  The human-readable
    [log] repeats [events] as text and [verbose] only prints; both are
    output and are left out. *)
Record Scheduler : Type := mkScheduler {
  clock : Z;
  ready_queue : list Process;
  wait_queue : list Process;
  cpus : list CPU;
  io_devices : list IODevice;
  finished : list Process;
  events : list Event;
  future_processes : list Process;
  algorithm : Algorithm
}.

Definition set_clock (x : Z) (s : Scheduler) : Scheduler :=
  mkScheduler x (ready_queue s) (wait_queue s) (cpus s) (io_devices s)
    (finished s) (events s) (future_processes s) (algorithm s).
Definition set_ready_queue (x : list Process) (s : Scheduler) : Scheduler :=
  mkScheduler (clock s) x (wait_queue s) (cpus s) (io_devices s)
    (finished s) (events s) (future_processes s) (algorithm s).
Definition set_wait_queue (x : list Process) (s : Scheduler) : Scheduler :=
  mkScheduler (clock s) (ready_queue s) x (cpus s) (io_devices s)
    (finished s) (events s) (future_processes s) (algorithm s).
Definition set_cpus (x : list CPU) (s : Scheduler) : Scheduler :=
  mkScheduler (clock s) (ready_queue s) (wait_queue s) x (io_devices s)
    (finished s) (events s) (future_processes s) (algorithm s).
Definition set_io_devices (x : list IODevice) (s : Scheduler) : Scheduler :=
  mkScheduler (clock s) (ready_queue s) (wait_queue s) (cpus s) x
    (finished s) (events s) (future_processes s) (algorithm s).
Definition set_finished (x : list Process) (s : Scheduler) : Scheduler :=
  mkScheduler (clock s) (ready_queue s) (wait_queue s) (cpus s) (io_devices s)
    x (events s) (future_processes s) (algorithm s).
Definition set_events (x : list Event) (s : Scheduler) : Scheduler :=
  mkScheduler (clock s) (ready_queue s) (wait_queue s) (cpus s) (io_devices s)
    (finished s) x (future_processes s) (algorithm s).
Definition set_future_processes (x : list Process) (s : Scheduler) : Scheduler :=
  mkScheduler (clock s) (ready_queue s) (wait_queue s) (cpus s) (io_devices s)
    (finished s) (events s) x (algorithm s).

(** [Scheduler.__init__]: [num_cpus] idle CPUs and [num_ios] idle devices,
    numbered from 0, empty queues. *)
Definition init (num_cpus num_ios : nat) (alg : Algorithm) : Scheduler :=
  {| clock := 0;
     ready_queue := [];
     wait_queue := [];
     cpus := map (fun i => mkCPU i None) (seq 0 num_cpus);
     io_devices := map (fun i => mkIODevice i None) (seq 0 num_ios);
     finished := [];
     events := [];
     future_processes := [];
     algorithm := alg |}.

(** [Scheduler._record]: append one structured event carrying the four
    snapshot arrays of pids. *)
Definition _record (event event_type : string) (proc device : option string)
    (s : Scheduler) : Scheduler :=
  set_events
    (events s ++
     [ {| ev_time := clock s;
          ev_event := event;
          ev_event_type := event_type;
          ev_process := proc;
          ev_device := device;
          ev_ready_queue := map pid (ready_queue s);
          ev_wait_queue := map pid (wait_queue s);
          ev_cpus := map (fun c => option_map pid (cpu_current c)) (cpus s);
          ev_ios := map (fun d => option_map pid (io_current d)) (io_devices s) |} ])
    s.

(** ** Queue discipline *)

(** A sort key: a Python integer or [float('inf')]. *)
Inductive Key : Type := Fin (z : Z) | Inf.

(** [a < b] on keys, as Python compares an [int] with [float('inf')]. *)
Definition key_ltb (a b : Key) : bool :=
  match a, b with
  | Fin x, Fin y => x <? y
  | Fin _, Inf => true
  | Inf, _ => false
  end.

(** [burst.get("cpu", float('inf')) if burst else float('inf')] for
    [burst = p.current_burst()]. *)
Definition sjf_key (p : Process) : Key :=
  match current_burst p with
  | Some (CpuBurst n) => Fin n
  | _ => Inf
  end.

(** The loop [pos = 0; for p in queue: if <test p>: break; pos += 1]. *)
Fixpoint scan_pos (test : Process -> bool) (queue : list Process) : nat :=
  match queue with
  | [] => 0%nat
  | p :: queue' => if test p then 0%nat else S (scan_pos test queue')
  end.

(** [temp_list.insert(pos, x)] for [0 <= pos <= len(temp_list)]. *)
Definition list_insert_at {A : Type} (pos : nat) (x : A) (l : list A) : list A :=
  take pos l ++ x :: drop pos l.

(** [Scheduler._insert_into_ready_queue], on the ready queue. *)
Definition _insert_into_ready_queue (alg : Algorithm) (process : Process)
    (queue : list Process) : list Process :=
  match alg with
  | FCFS =>
      let pos := scan_pos (fun p => arrival_time process <? arrival_time p) queue in
      list_insert_at pos process queue
  | SJF =>
      let key_value := sjf_key process in
      let pos := scan_pos (fun p => key_ltb key_value (sjf_key p)) queue in
      list_insert_at pos process queue
  | SRTF =>
      let key_value := remaining_burst_time process in
      let pos := scan_pos (fun p => key_value <? remaining_burst_time p) queue in
      list_insert_at pos process queue
  | Priority | PriorityPreemptive =>
      let pos := scan_pos (fun p => priority process <? priority p) queue in
      list_insert_at pos process queue
  | RR | Other _ => queue ++ [process]
  end.

(** [min(x :: rest, key=key)]: Python keeps the first element and replaces
    it only by an element whose key is strictly smaller. *)
Definition min_by {K : Type} (ltb : K -> K -> bool) (key : Process -> K)
    (x : Process) (rest : list Process) : Process :=
  fold_left (fun best y => if ltb (key y) (key best) then y else best) rest x.

(** [queue.remove(x)]: drop the first element equal to [x].  The scheduler
    only removes an element it has just found in the queue. *)
Fixpoint remove_first (x : Process) (queue : list Process) : list Process :=
  match queue with
  | [] => []
  | y :: queue' => if decide (y = x) then queue' else y :: remove_first x queue'
  end.

(** [Scheduler._select_process_for_cpu]: the selected process, if any, and
    the ready queue without it. *)
Definition _select_process_for_cpu (alg : Algorithm) (queue : list Process)
    : option Process * list Process :=
  match queue with
  | [] => (None, queue)
  | x :: rest =>
      match alg with
      | FCFS => (Some x, rest)
      | SJF =>
          let shortest_proc := min_by key_ltb sjf_key x rest in
          (Some shortest_proc, remove_first shortest_proc queue)
      | SRTF =>
          let shortest_proc := min_by Z.ltb remaining_burst_time x rest in
          (Some shortest_proc, remove_first shortest_proc queue)
      | Priority | PriorityPreemptive =>
          let highest_priority := min_by Z.ltb priority x rest in
          (Some highest_priority, remove_first highest_priority queue)
      | RR | Other _ => (Some x, rest)
      end
  end.

(** [list.sort(key=key)]: Python's sort is stable; an element goes before
    the first already sorted element whose key is not smaller. *)
Fixpoint sort_insert {A : Type} (key : A -> Z) (x : A) (l : list A) : list A :=
  match l with
  | [] => [x]
  | y :: l' => if key x <=? key y then x :: l else y :: sort_insert key x l'
  end.

Definition sort_by {A : Type} (key : A -> Z) (l : list A) : list A :=
  foldr (sort_insert key) [] l.

(** [Scheduler.add_process]. *)
Definition add_process (process : Process) (s : Scheduler) : Scheduler :=
  if arrival_time process <=? clock s then
    let process := set_state Ready process in
    let s := set_ready_queue
               (_insert_into_ready_queue (algorithm s) process (ready_queue s)) s in
    _record (pid process +:+ " added to ready queue (arrival="
               +:+ str_Z (arrival_time process) +:+ ")")
            "enqueue" (Some (pid process)) None s
  else
    set_future_processes
      (sort_by arrival_time (future_processes s ++ [process])) s.

(** ** One tick: [Scheduler.step] *)

(** The arrival loop of [step], over the copy [future_processes[:]].  The
    process is marked ready, inserted, remembered in [arrivals] and removed
    from [future_processes]. *)
Fixpoint admit_loop (copy arrivals : list Process) (s : Scheduler)
    : list Process * Scheduler :=
  match copy with
  | [] => (arrivals, s)
  | p :: copy' =>
      if arrival_time p <=? clock s then
        let p' := set_state Ready p in
        let s := set_ready_queue
                   (_insert_into_ready_queue (algorithm s) p' (ready_queue s)) s in
        let s := set_future_processes (remove_first p (future_processes s)) s in
        admit_loop copy' (arrivals ++ [p']) s
      else admit_loop copy' arrivals s
  end.

Definition record_arrival (s : Scheduler) (p : Process) : Scheduler :=
  _record (pid p +:+ " arrived (arrival_time=" +:+ str_Z (arrival_time p) +:+ ")")
          "arrival" (Some (pid p)) None s.

Definition admit_arrivals (s : Scheduler) : Scheduler :=
  let '(arrivals, s) := admit_loop (future_processes s) [] s in
  fold_left record_arrival arrivals s.

Definition set_cpu (i : nat) (c : CPU) (s : Scheduler) : Scheduler :=
  set_cpus (<[i := c]> (cpus s)) s.

Definition set_io_device (j : nat) (d : IODevice) (s : Scheduler) : Scheduler :=
  set_io_devices (<[j := d]> (io_devices s)) s.

Definition cpu_name (c : CPU) : string := "CPU" +:+ str_nat (cid c).
Definition io_name (d : IODevice) : string := "IO" +:+ str_nat (did d).

(** The quantum handling of [step] for the CPU at index [i], which holds
    [cur] after its tick (algorithm RR). *)
Definition rr_quantum (i : nat) (cpu : CPU) (cur : Process) (s : Scheduler)
    : Scheduler :=
  let cur := set_remaining_quantum (remaining_quantum cur - 1) cur in
  if (remaining_quantum cur <=? 0) && (remaining_burst_time cur >? 0) then
    let prem_process := set_remaining_quantum (quantum cur) (set_state Ready cur) in
    let s := set_cpu i (mkCPU (cid cpu) None) s in
    let s := set_ready_queue
               (_insert_into_ready_queue (algorithm s) prem_process (ready_queue s)) s in
    _record (pid prem_process +:+ " quantum expired (RR preemption)")
            "preempted" (Some (pid prem_process)) (Some (cpu_name cpu)) s
  else
    set_cpu i (mkCPU (cid cpu) (Some cur)) s.

(** The body shared by the SRTF and PriorityPreemptive branches once the
    test has succeeded: the running process goes back to the ready queue
    and the selected one is assigned to the same CPU. *)
Definition preempt (i : nat) (cpu : CPU) (current_proc best : Process)
    (label : string) (s : Scheduler) : Scheduler :=
  let current_proc := set_state Ready current_proc in
  let s := set_ready_queue
             (_insert_into_ready_queue (algorithm s) current_proc (ready_queue s)) s in
  let '(new_proc, queue) := _select_process_for_cpu (algorithm s) (ready_queue s) in
  let s := set_ready_queue queue s in
  let s := match new_proc with
           | Some new_proc => set_cpu i (cpu_assign (mkCPU (cid cpu) None) new_proc) s
           | None => set_cpu i (mkCPU (cid cpu) None) s
           end in
  _record (pid best +:+ " preempts " +:+ pid current_proc +:+ " (" +:+ label +:+ ")")
          "preempted" (Some (pid current_proc)) (Some (cpu_name cpu)) s.

(** Preemption for SRTF and PriorityPreemptive, for the CPU at index [i]
    holding [current_proc] after its tick.  Strict comparison: a tie does
    not preempt. *)
Definition preemptive (i : nat) (cpu : CPU) (current_proc : Process)
    (s : Scheduler) : Scheduler :=
  match ready_queue s with
  | [] => s
  | x :: rest =>
      match algorithm s with
      | SRTF =>
          let shortest_ready := min_by Z.ltb remaining_burst_time x rest in
          if remaining_burst_time shortest_ready <? remaining_burst_time current_proc
          then preempt i cpu current_proc shortest_ready "SRTF" s
          else s
      | PriorityPreemptive =>
          let highest_ready := min_by Z.ltb priority x rest in
          if priority highest_ready <? priority current_proc
          then preempt i cpu current_proc highest_ready "Priority" s
          else s
      | _ => s
      end
  end.

(** Routing of a process whose CPU burst has just completed. *)
Definition cpu_completion (cpu : CPU) (proc : Process) (s : Scheduler) : Scheduler :=
  match current_burst proc with
  | None =>
      let proc := set_state Finished proc in
      let s := set_finished (finished s ++ [proc]) s in
      _record (pid proc +:+ " finished all bursts")
              "finished" (Some (pid proc)) (Some (cpu_name cpu)) s
  | Some (IoBurst _ _) =>
      let proc := set_state Waiting proc in
      let s := set_wait_queue (wait_queue s ++ [proc]) s in
      _record (pid proc +:+ " finished CPU " +:+ arrow +:+ " wait queue")
              "cpu_to_io" (Some (pid proc)) (Some (cpu_name cpu)) s
  | Some (CpuBurst _) =>
      let proc := set_state Ready proc in
      let s := set_ready_queue
                 (_insert_into_ready_queue (algorithm s) proc (ready_queue s)) s in
      _record (pid proc +:+ " finished CPU " +:+ arrow +:+ " ready queue")
              "cpu_to_ready" (Some (pid proc)) (Some (cpu_name cpu)) s
  end.

(** The body of [for cpu in self.cpus] in [step], for the CPU at index
    [i]: tick, quantum or preemption, completion. *)
Definition step_cpu (i : nat) (s : Scheduler) : Scheduler :=
  match cpus s !! i with
  | None => s
  | Some cpu =>
      let '(cpu, proc) := cpu_tick cpu in
      let s := set_cpu i cpu s in
      let s :=
        match cpu_current cpu with
        | Some cur =>
            match algorithm s with
            | RR => rr_quantum i cpu cur s
            | _ => preemptive i cpu cur s
            end
        | None => s
        end in
      match proc with
      | Some proc => cpu_completion cpu proc s
      | None => s
      end
  end.

(** Routing of a process whose I/O burst has just completed. *)
Definition io_completion (dev : IODevice) (proc : Process) (s : Scheduler) : Scheduler :=
  match current_burst proc with
  | None =>
      let proc := set_state Finished proc in
      let s := set_finished (finished s ++ [proc]) s in
      _record (pid proc +:+ " finished all bursts")
              "finished" (Some (pid proc)) (Some (io_name dev)) s
  | Some _ =>
      let proc := set_state Ready proc in
      let s := set_ready_queue
                 (_insert_into_ready_queue (algorithm s) proc (ready_queue s)) s in
      _record (pid proc +:+ " finished I/O " +:+ arrow +:+ " ready queue")
              "io_to_ready" (Some (pid proc)) (Some (io_name dev)) s
  end.

(** The body of [for dev in self.io_devices] (tick) for the device at
    index [j]. *)
Definition step_io (j : nat) (s : Scheduler) : Scheduler :=
  match io_devices s !! j with
  | None => s
  | Some dev =>
      let '(dev, proc) := io_tick dev in
      let s := set_io_device j dev s in
      match proc with
      | Some proc => io_completion dev proc s
      | None => s
      end
  end.

(** The body of the CPU dispatch loop for the CPU at index [i]. *)
Definition dispatch_cpu (i : nat) (s : Scheduler) : Scheduler :=
  match cpus s !! i with
  | None => s
  | Some cpu =>
      if negb (cpu_is_busy cpu) then
        match _select_process_for_cpu (algorithm s) (ready_queue s) with
        | (Some proc, queue) =>
            let s := set_ready_queue queue s in
            let s := set_cpu i (cpu_assign cpu proc) s in
            _record (pid proc +:+ " dispatched to " +:+ cpu_name cpu
                       +:+ " (" +:+ algorithm_name (algorithm s) +:+ ")")
                    "dispatch_cpu" (Some (pid proc)) (Some (cpu_name cpu)) s
        | (None, _) => s
        end
      else s
  end.

(** The body of the I/O dispatch loop for the device at index [j]: the
    head of the wait queue, whatever the CPU policy. *)
Definition dispatch_io (j : nat) (s : Scheduler) : Scheduler :=
  match io_devices s !! j with
  | None => s
  | Some dev =>
      if negb (io_is_busy dev) then
        match wait_queue s with
        | proc :: queue =>
            let s := set_wait_queue queue s in
            let s := set_io_device j (io_assign dev proc) s in
            _record (pid proc +:+ " dispatched to " +:+ io_name dev)
                    "dispatch_io" (Some (pid proc)) (Some (io_name dev)) s
        | [] => s
        end
      else s
  end.

(** A [for] loop over the indices [0 .. n-1] of a pool. *)
Definition for_each (n : nat) (body : nat -> Scheduler -> Scheduler)
    (s : Scheduler) : Scheduler :=
  fold_left (fun s i => body i s) (seq 0 n) s.

Definition tick_cpus (s : Scheduler) : Scheduler :=
  for_each (length (cpus s)) step_cpu s.
Definition tick_ios (s : Scheduler) : Scheduler :=
  for_each (length (io_devices s)) step_io s.
Definition dispatch_cpus (s : Scheduler) : Scheduler :=
  for_each (length (cpus s)) dispatch_cpu s.
Definition dispatch_ios (s : Scheduler) : Scheduler :=
  for_each (length (io_devices s)) dispatch_io s.

(** [Scheduler.step]: arrivals, CPU ticks, I/O ticks, CPU dispatch, I/O
    dispatch, then the clock advances. *)
Definition step (s : Scheduler) : Scheduler :=
  let s := admit_arrivals s in
  let s := tick_cpus s in
  let s := tick_ios s in
  let s := dispatch_cpus s in
  let s := dispatch_ios s in
  set_clock (clock s + 1) s.

(** The loop condition of [Scheduler.run]. *)
Definition run_condition (s : Scheduler) : bool :=
  match ready_queue s with _ :: _ => true | [] =>
  match wait_queue s with _ :: _ => true | [] =>
    existsb cpu_is_busy (cpus s) || existsb io_is_busy (io_devices s)
  end end.

(** [Scheduler.run]: the [while] loop, with a bound on the number of
    iterations; [None] when the bound is reached before the loop ends. *)
Fixpoint run (fuel : nat) (s : Scheduler) : option Scheduler :=
  if run_condition s then
    match fuel with
    | O => None
    | S fuel' => run fuel' (step s)
    end
  else Some s.

(** The driver of [main.py]: a fresh scheduler, [add_process] for every
    process in order, then [run]. *)
Definition setup (num_cpus num_ios : nat) (alg : Algorithm)
    (processes : list Process) : Scheduler :=
  fold_left (fun s p => add_process p s) processes (init num_cpus num_ios alg).

Definition simulate (fuel : nat) (num_cpus num_ios : nat) (alg : Algorithm)
    (processes : list Process) : option Scheduler :=
  run fuel (setup num_cpus num_ios alg processes).

(** The state after [n] calls of [step]. *)
Fixpoint steps (n : nat) (s : Scheduler) : Scheduler :=
  match n with
  | O => s
  | S n' => steps n' (step s)
  end.

(** The pids on the CPUs, as the snapshots of [_record] list them. *)
Definition cpu_pids (s : Scheduler) : list (option string) :=
  map (fun c => option_map pid (cpu_current c)) (cpus s).

(** ** The workload generator: [gen_jobs/generate_jobs.py] *)

Module Generator.


Definition py_round (x : Q) : Z :=
  let fl := Z.div (Qnum x) (Z.pos (Qden x)) in
  let twice_rem := 2 * Z.modulo (Qnum x) (Z.pos (Qden x)) in
  if twice_rem <? Z.pos (Qden x) then fl
  else if Z.pos (Qden x) <? twice_rem then fl + 1
  else if Z.even fl then fl else fl + 1.










(** [bisect(cum_weights, x, 0, hi)]: the number of the first [hi] sums
    that are not greater than [x]. *)
Fixpoint bisect (cum_weights : list Q) (x : Q) (hi : nat) : nat :=
  match hi, cum_weights with
  | S hi', c :: cum_weights' =>
      if Qle_bool c x then S (bisect cum_weights' x hi') else 0%nat
  | _, _ => 0%nat
  end.























End Generator.

(** ** Loading a workload: [main.py] *)

Module Loader.

(** One element of the ["bursts"] array of a process record, as
    [load_processes_from_json] looks at it: an object with a ["cpu"] key,
    an object with an ["io"] key whose value may lack ["type"] or
    ["duration"], or an object with neither key. *)
Inductive JBurst : Type :=
| JCpu (n : Z)
| JIo (ty : option string) (duration : option Z)
| JNeither.

(** One process record of the workload file; a key that is absent is
    [None]. *)
Record JRecord : Type := mkJRecord {
  j_pid : option string;
  j_bursts : option (list JBurst);
  j_priority : option Z;
  j_quantum : option Z;
  j_arrival_time : option Z
}.

(** What a call leaves behind: the value returned, or the [KeyError] that
    ends it, and the lines printed. *)
Inductive Outcome (A : Type) : Type :=
| Return (a : A)
| KeyError (key : string).
Arguments Return {A} a.
Arguments KeyError {A} key.

(** The inner loop [for b in p["bursts"]]. *)
Fixpoint load_bursts (bs : list JBurst) (bursts : list Burst) : Outcome (list Burst) :=
  match bs with
  | [] => Return bursts
  | JCpu n :: bs' => load_bursts bs' (bursts ++ [CpuBurst n])
  | JIo ty duration :: bs' =>
      match ty, duration with
      | None, _ => KeyError "type"
      | Some _, None => KeyError "duration"
      | Some ty, Some d => load_bursts bs' (bursts ++ [IoBurst ty d])
      end
  | JNeither :: bs' => load_bursts bs' bursts
  end.

(** The body of [for p in data[:limit]]: the process built from one
    record. *)
Definition load_record (p : JRecord) : Outcome Process :=
  match j_bursts p with
  | None => KeyError "bursts"
  | Some bs =>
      match load_bursts bs [] with
      | KeyError k => KeyError k
      | Return bursts =>
          match j_pid p with
          | None => KeyError "pid"
          | Some pid =>
              Return (mkProcess pid bursts
                        (default 0 (j_priority p))
                        (default 4 (j_quantum p))
                        (default 0 (j_arrival_time p)))
          end
      end
  end.

Fixpoint load_records (data : list JRecord) (processes : list Process)
    : Outcome (list Process) :=
  match data with
  | [] => Return processes
  | p :: data' =>
      match load_record p with
      | KeyError k => KeyError k
      | Return proc => load_records data' (processes ++ [proc])
      end
  end.

(** The slice [data[:limit]] for a Python integer [limit]. *)
Definition slice_to {A : Type} (limit : Z) (data : list A) : list A :=
  if limit <? 0
  then take (Z.to_nat (Z.of_nat (length data) + limit)) data
  else take (Z.to_nat limit) data.

(** [load_processes_from_json(filename, limit)].  [data] is the content of
    the first of the candidate paths that exists, [None] when none does.
    The result is the list of lines printed and the outcome. *)
Definition load_processes_from_json (filename : string)
    (data : option (list JRecord)) (limit : option Z)
    : list string * Outcome (list Process) :=
  match data with
  | None => (["Error: Could not find file " +:+ filename], Return [])
  | Some data =>
      let limit := match limit with
                   | None => Z.of_nat (length data)
                   | Some limit =>
                       if Z.of_nat (length data) <? limit
                       then Z.of_nat (length data) else limit
                   end in
      ([], load_records (slice_to limit data) [])
  end.

(** A record the specification calls an input error: a burst with a
    negative duration, or an empty burst list. *)
Definition negative_burst (b : JBurst) : bool :=
  match b with
  | JCpu n => n <? 0
  | JIo _ (Some d) => d <? 0
  | _ => false
  end.

Definition input_error (p : JRecord) : bool :=
  match j_bursts p with
  | Some [] => true
  | Some bs => existsb negative_burst bs
  | None => true
  end.

End Loader.

(** ** Vocabulary of the properties *)

Definition nonempty {A : Type} (l : list A) : bool :=
  match l with [] => false | _ :: _ => true end.

(** The key a policy orders the ready queue by.  RR and the default
    branch have none: every process ties. *)
Definition policy_key (alg : Algorithm) (p : Process) : Key :=
  match alg with
  | FCFS => Fin (arrival_time p)
  | SJF => sjf_key p
  | SRTF => Fin (remaining_burst_time p)
  | Priority | PriorityPreemptive => Fin (priority p)
  | RR | Other _ => Fin 0
  end.

(** [a <= b] on keys. *)
Definition key_leb (a b : Key) : bool := negb (key_ltb b a).

(** A queue in ascending order of the policy's key. *)
Fixpoint sorted_by_key (alg : Algorithm) (queue : list Process) : Prop :=
  match queue with
  | [] => True
  | p :: queue' =>
      Forall (fun x => key_leb (policy_key alg p) (policy_key alg x) = true) queue'
      /\ sorted_by_key alg queue'
  end.

Definition ready_sorted (s : Scheduler) : Prop :=
  sorted_by_key (algorithm s) (ready_queue s).

(** The events of a given type, as pairs of pid and time. *)
Definition events_of_type (ty : string) (s : Scheduler)
    : list (option string * Z) :=
  map (fun e => (ev_process e, ev_time e))
      (List.filter (fun e => String.eqb (ev_event_type e) ty) (events s)).

(** Scenario S1 of the specification: FCFS, one CPU, one I/O device. *)
Definition S1_P1 : Process := mkProcess "P1" [CpuBurst 3] 0 4 0.
Definition S1_P2 : Process := mkProcess "P2" [CpuBurst 2] 0 4 1.
Definition S1 : Scheduler := setup 1 1 FCFS [S1_P1; S1_P2].

(** A workload whose only process arrives after time 0. *)
Definition late_process : Process := mkProcess "P1" [CpuBurst 3] 0 4 1.

(** A priority queue with a tie: b (priority 1), then a and c (priority 2)
    in the order they were added; d is a later process of priority 2. *)
Definition tie_state : Scheduler :=
  setup 1 1 Priority
    [mkProcess "a" [CpuBurst 3] 2 4 0; mkProcess "b" [CpuBurst 3] 1 4 0;
     mkProcess "c" [CpuBurst 3] 2 4 0].
Definition tie_process : Process := mkProcess "d" [CpuBurst 1] 2 4 0.

(** The state in which the body of the CPU loop of [step] runs for the
    CPU at index [i]: arrivals are admitted and the CPUs before [i] are
    done. *)
Definition before_cpu (i : nat) (s : Scheduler) : Scheduler :=
  fold_left (fun s k => step_cpu k s) (seq 0 i) (admit_arrivals s).

(** The key the two preemptive policies compare. *)
Definition preempt_key (alg : Algorithm) (p : Process) : Z :=
  match alg with
  | SRTF => remaining_burst_time p
  | _ => priority p
  end.

(** Scenario S3 of the specification (SRTF), two steps into the run: P1
    is on the CPU and P2 is about to arrive. *)
Definition S3_state : Scheduler :=
  steps 2 (setup 1 1 SRTF [mkProcess "P1" [CpuBurst 8] 0 4 0;
                           mkProcess "P2" [CpuBurst 2] 0 4 2]).

(** The pieces of [S3_state] the preemption looks at: the CPU before and
    after its tick, the process it holds, and the process that has just
    arrived in the ready queue. *)
Definition S3_cpu : CPU :=
  Eval vm_compute in nth 0 (cpus S3_state) (mkCPU 0 None).
Definition S3_cpu_ticked : CPU := Eval vm_compute in fst (cpu_tick S3_cpu).
Definition S3_running : Process :=
  Eval vm_compute in default late_process (cpu_current S3_cpu_ticked).
Definition S3_arrived : Process :=
  Eval vm_compute in
    hd late_process (ready_queue (before_cpu 0 S3_state)).

(** A list in ascending order of an integer key. *)
Fixpoint ascending {A : Type} (key : A -> Z) (l : list A) : Prop :=
  match l with
  | [] => True
  | x :: l' => Forall (fun y => key x <= key y) l' /\ ascending key l'
  end.

(** A scheduler in which two processes wait for their arrival time, and a
    third process that arrives between them. *)
Definition waiting_state : Scheduler :=
  setup 1 1 RR [mkProcess "a" [CpuBurst 1] 0 4 5; mkProcess "b" [CpuBurst 1] 0 4 9].
Definition between_process : Process := mkProcess "c" [CpuBurst 2] 0 4 5.

(** What an event shows of a tick: its type, process, time and the
    snapshot of the ready queue. *)
Definition event_view (e : Event) : string * option string * Z * list string :=
  (ev_event_type e, ev_process e, ev_time e, ev_ready_queue e).

(** A scheduler at time 0 with three future processes, two of which are
    due at time 3. *)
Definition arrivals_state : Scheduler :=
  set_clock 3
    (setup 1 1 FCFS [mkProcess "a" [CpuBurst 1] 0 4 3; mkProcess "b" [CpuBurst 1] 0 4 7;
                     mkProcess "c" [CpuBurst 1] 0 4 2]).

(** What the events logged since a state [s0] look like: stamped with the
    clock of [s0], and with one snapshot entry per CPU and per device. *)
Definition logged_at (s0 : Scheduler) (e : Event) : Prop :=
  ev_time e = clock s0
  /\ length (ev_cpus e) = length (cpus s0)
  /\ length (ev_ios e) = length (io_devices s0).

(** [s] is a state inside the tick that began in [s0]: same clock, same
    policy, same pools; the log and the finished list have only grown. *)
Record progress (s0 s : Scheduler) : Prop := mkProgress {
  pr_clock : clock s = clock s0;
  pr_algorithm : algorithm s = algorithm s0;
  pr_cids : map cid (cpus s) = map cid (cpus s0);
  pr_dids : map did (io_devices s) = map did (io_devices s0);
  pr_events : exists new, events s = events s0 ++ new /\ Forall (logged_at s0) new;
  pr_finished : exists more, finished s = finished s0 ++ more
}.

(** The log is in order of time and never ahead of the clock. *)
Definition log_ordered (s : Scheduler) : Prop :=
  ascending ev_time (events s) /\ Forall (fun e => ev_time e <= clock s) (events s).

(** ** Vocabulary of the loader properties *)

(** A burst entry the loader can read: anything but an ["io"] object
    without its ["type"] or ["duration"]. *)
Definition burst_complete (b : Loader.JBurst) : bool :=
  match b with
  | Loader.JIo None _ | Loader.JIo _ None => false
  | _ => true
  end.

(** A record the loader can read: ["pid"] and ["bursts"] are present and
    every burst entry is readable. *)
Definition record_complete (p : Loader.JRecord) : bool :=
  match Loader.j_pid p, Loader.j_bursts p with
  | Some _, Some bs => forallb burst_complete bs
  | _, _ => false
  end.

(** The burst a readable entry stands for; an entry with neither key
    stands for none. *)
Definition translate_burst (b : Loader.JBurst) : list Burst :=
  match b with
  | Loader.JCpu n => [CpuBurst n]
  | Loader.JIo (Some ty) (Some d) => [IoBurst ty d]
  | _ => []
  end.

(** The process a readable record stands for. *)
Definition translate_record (p : Loader.JRecord) : Process :=
  mkProcess (default "" (Loader.j_pid p))
            (flat_map translate_burst (default [] (Loader.j_bursts p)))
            (default 0 (Loader.j_priority p))
            (default 4 (Loader.j_quantum p))
            (default 0 (Loader.j_arrival_time p)).



(** The effective length of the slice [data[:limit]] after the loader has
    capped [limit]. *)
Definition loaded_count (limit : option Z) (len : nat) : nat :=
  match limit with
  | None => len
  | Some l =>
      if Z.of_nat len <? l then len
      else if l <? 0 then Z.to_nat (Z.of_nat len + l)
      else Z.to_nat l
  end.

(** A workload file with a record the specification calls an input error
    (a negative duration) and one with an empty burst list. *)
Definition odd_workload : list Loader.JRecord :=
  [Loader.mkJRecord (Some "1") (Some [Loader.JCpu (-3); Loader.JNeither]) None None None;
   Loader.mkJRecord (Some "2") (Some []) (Some 7) None (Some 2);
   Loader.mkJRecord (Some "3") (Some [Loader.JCpu 2]) None None None].


(** ** Vocabulary of the generator properties *)










(** ** Vocabulary of the workload invariants *)

(** The bursts a process still has to go through, the current one first. *)
Definition pending (p : Process) : list Burst := drop (cursor p) (bursts p).

(** A list of pending bursts the scheduler can carry out: every burst
    lasts at least one tick and an I/O burst comes only right after a CPU
    burst.  [after_cpu] tells whether the burst before the list is a CPU
    burst. *)
Fixpoint alternating (after_cpu : bool) (bs : list Burst) : Prop :=
  match bs with
  | [] => True
  | CpuBurst n :: bs' => 1 <= n /\ alternating true bs'
  | IoBurst _ d :: bs' => after_cpu = true /\ 1 <= d /\ alternating false bs'
  end.

(** The time slice of a process is at least one tick and at most its
    quantum. *)
Definition slice_ok (p : Process) : Prop :=
  1 <= remaining_quantum p <= quantum p.

(** A process that is to use a CPU: its current burst is a CPU burst. *)
Definition cpu_ready (p : Process) : Prop :=
  slice_ok p
  /\ match pending p with
     | CpuBurst n :: rest => 1 <= n /\ alternating true rest
     | _ => False
     end.

(** A process that is to use a device: its current burst is an I/O
    burst. *)
Definition io_ready (p : Process) : Prop :=
  slice_ok p
  /\ match pending p with
     | IoBurst _ d :: rest => 1 <= d /\ alternating false rest
     | _ => False
     end.

(** Every process is where its current burst sends it. *)
Record well_formed (s : Scheduler) : Prop := mkWellFormed {
  wf_ready : Forall cpu_ready (ready_queue s);
  wf_future : Forall cpu_ready (future_processes s);
  wf_wait : Forall io_ready (wait_queue s);
  wf_cpus : Forall (fun c => forall p, cpu_current c = Some p -> cpu_ready p) (cpus s);
  wf_ios : Forall (fun d => forall p, io_current d = Some p -> io_ready p)
             (io_devices s);
  wf_finished : Forall (fun p => pending p = []) (finished s)
}.

(** ** Vocabulary of the time slice *)

(** CPU [i] is busy when the tick phase of the coming step is over.
    Under RR the tick phase assigns no process, so that the CPU then still
    holds the process it held: its burst did not end and it was not
    preempted. *)
Definition keeps_cpu (i : nat) (s : Scheduler) : bool :=
  match cpus (tick_cpus (admit_arrivals s)) !! i with
  | Some c => cpu_is_busy c
  | None => false
  end.

(** CPU [i] keeps its process through the tick phases of the next [k]
    steps. *)
Fixpoint keeps_cpu_for (k i : nat) (s : Scheduler) : bool :=
  match k with
  | O => true
  | S k' => keeps_cpu i s && keeps_cpu_for k' i (step s)
  end.


(** Round robin with one CPU and one process of quantum 3, after the
    first step: the process is on the CPU with a whole slice. *)
Definition rr_process : Process := mkProcess "P1" [CpuBurst 5] 0 3 0.
Definition rr_state : Scheduler :=
  Eval vm_compute in step (setup 1 1 RR [rr_process]).
Definition rr_running : Process := set_state Running rr_process.


(** The process [p] once its current CPU burst, of [n] ticks, has been
    ticked. *)
Definition ticked (p : Process) (n : Z) : Process :=
  set_bursts (<[cursor p := CpuBurst (n - 1)]> (bursts p)) p.

(** The same simulation two steps later: the slice of the process is down
    to one tick and its burst has three ticks left. *)
Definition rr_expiring : Scheduler := Eval vm_compute in steps 2 rr_state.
Definition rr_expiring_process : Process :=
  Eval vm_compute in
    default rr_process (cpus rr_expiring !! 0%nat ≫= cpu_current).


(** ** Vocabulary of termination *)

Definition duration (b : Burst) : Z :=
  match b with
  | CpuBurst n => n
  | IoBurst _ d => d
  end.

Fixpoint sum_durations (bs : list Burst) : Z :=
  match bs with
  | [] => 0
  | b :: bs' => duration b + sum_durations bs'
  end.

(** The ticks a process still needs, on a CPU or on a device. *)
Definition work (p : Process) : Z := sum_durations (pending p).

Definition sum_of {A : Type} (f : A -> Z) (l : list A) : Z :=
  foldr (fun x acc => f x + acc) 0 l.

Definition cpu_work (c : CPU) : Z := from_option work 0 (cpu_current c).
Definition io_work (d : IODevice) : Z := from_option work 0 (io_current d).

(** The ticks the processes of the simulation still need, the processes
    that have not arrived included. *)
Definition total_work (s : Scheduler) : Z :=
  sum_of work (ready_queue s) + sum_of work (wait_queue s)
  + sum_of work (future_processes s)
  + sum_of cpu_work (cpus s) + sum_of io_work (io_devices s).

(** The state the dispatch phases leave: a process is left in a queue
    only when every unit of the pool is busy. *)
Definition saturated (s : Scheduler) : Prop :=
  (ready_queue s <> [] -> Forall (fun c => cpu_is_busy c = true) (cpus s))
  /\ (wait_queue s <> [] -> Forall (fun d => io_is_busy d = true) (io_devices s)).


(** ** Vocabulary of conservation *)

(** The processes of a scheduler, wherever they are, counted with a
    weight [f]. *)
Definition census (f : Process -> Z) (s : Scheduler) : Z :=
  sum_of f (ready_queue s) + sum_of f (wait_queue s)
  + sum_of f (future_processes s)
  + sum_of (fun c => from_option f 0 (cpu_current c)) (cpus s)
  + sum_of (fun d => from_option f 0 (io_current d)) (io_devices s)
  + sum_of f (finished s).

(** The weight that counts the processes of pid [x]. *)
Definition has_pid (x : string) (p : Process) : Z :=
  if String.eqb (pid p) x then 1 else 0.


(** The list [all] that [Scheduler.processes] builds: the ready queue, the
    wait queue, the finished processes, then the processes on the CPUs and
    on the devices.  The processes that have not arrived are not in it. *)
Definition all_processes (s : Scheduler) : list Process :=
  ready_queue s ++ wait_queue s ++ finished s
  ++ omap cpu_current (cpus s) ++ omap io_current (io_devices s).

(** [Scheduler.processes]: the dict [{p.pid: p for p in all}]; a later
    process replaces an earlier one with the same pid. *)
Definition processes (s : Scheduler) : gmap string Process :=
  fold_left (fun rdict p => <[pid p := p]> rdict) (all_processes s) ∅.


(** A workload with a gap: the second process arrives at time 9, long
    after the first one is done. *)
Definition gap_workload : list Process :=
  [mkProcess "P1" [CpuBurst 3] 0 4 0; mkProcess "P9" [CpuBurst 1] 0 4 9].


(** ** Generated workloads: [main.py] *)






(** A scheduler without any CPU that holds a ready process, and one
    without any device whose only process has reached its I/O burst. *)
Definition no_cpu_state : Scheduler := setup 0 1 FCFS [S1_P1].
Definition no_device_state : Scheduler :=
  Eval vm_compute in
    steps 2 (setup 1 0 FCFS [mkProcess "P1" [CpuBurst 1; IoBurst "disk" 1] 0 4 0]).

(** * Properties *)

(** ** The loop of [run] *)

Lemma run_idle (fuel : nat) (s : Scheduler) :
  run_condition s = false -> run fuel s = Some s.
Proof. intros H. destruct fuel; simpl; rewrite H; reflexivity. Qed.

Lemma run_more_fuel (fuel : nat) :
  forall s r, run fuel s = Some r -> run (S fuel) s = Some r.
Proof.
  induction fuel as [|fuel IH]; intros s r H.
  - simpl in H. simpl. destruct (run_condition s); [discriminate|exact H].
  - cbn [run] in H. cbn [run].
    destruct (run_condition s); [|exact H].
    apply IH in H. exact H.
Qed.

Lemma run_fuel_le (f1 f2 : nat) (s r : Scheduler) :
  (f1 <= f2)%nat -> run f1 s = Some r -> run f2 s = Some r.
Proof.
  induction 1 as [|f2 _ IH]; intros H; [exact H|].
  apply run_more_fuel, IH, H.
Qed.

(** The result of [run] does not depend on the bound. *)
Lemma run_fuel_irrelevant (f1 f2 : nat) (s r1 r2 : Scheduler) :
  run f1 s = Some r1 -> run f2 s = Some r2 -> r1 = r2.
Proof.
  intros H1 H2.
  destruct (Nat.le_ge_cases f1 f2) as [Hle|Hle].
  - apply (run_fuel_le _ _ _ _ Hle) in H1. congruence.
  - apply (run_fuel_le _ _ _ _ Hle) in H2. congruence.
Qed.

(** When [run] returns, its loop condition is false. *)
Lemma run_returns_idle (fuel : nat) :
  forall s r, run fuel s = Some r -> run_condition r = false.
Proof.
  induction fuel as [|fuel IH]; intros s r H; cbn [run] in H.
  - destruct (run_condition s) eqn:E; [discriminate|]. congruence.
  - destruct (run_condition s) eqn:E; [eauto|]. congruence.
Qed.

Lemma sort_insert_length {A : Type} (key : A -> Z) (x : A) (l : list A) :
  length (sort_insert key x l) = S (length l).
Proof.
  induction l as [|y l IH]; simpl; [reflexivity|].
  destruct (key x <=? key y); simpl; congruence.
Qed.

Lemma sort_by_length {A : Type} (key : A -> Z) (l : list A) :
  length (sort_by key l) = length l.
Proof.
  unfold sort_by. induction l as [|x l IH]; simpl; [reflexivity|].
  rewrite sort_insert_length, IH. reflexivity.
Qed.

(** Adding processes that have not arrived yet only fills
    [future_processes]. *)
Lemma setup_all_late (processes : list Process) :
  forall s,
    Forall (fun p => clock s < arrival_time p) processes ->
    let s' := fold_left (fun s p => add_process p s) processes s in
    clock s' = clock s /\ ready_queue s' = ready_queue s
    /\ wait_queue s' = wait_queue s /\ cpus s' = cpus s
    /\ io_devices s' = io_devices s /\ events s' = events s
    /\ length (future_processes s')
       = (length (future_processes s) + length processes)%nat.
Proof.
  induction processes as [|p ps IH]; intros s Hall; simpl.
  - repeat split; lia.
  - inversion Hall as [|? ? Hp Hps]; subst.
    assert (Hadd : add_process p s
                   = set_future_processes
                       (sort_by arrival_time (future_processes s ++ [p])) s).
    { unfold add_process. destruct (Z.leb_spec (arrival_time p) (clock s)); [lia|].
      reflexivity. }
    rewrite Hadd.
    specialize (IH (set_future_processes
                      (sort_by arrival_time (future_processes s ++ [p])) s)).
    simpl in IH. destruct (IH Hps) as (H1 & H2 & H3 & H4 & H5 & H6 & H7).
    repeat split; try assumption.
    rewrite H7, sort_by_length, length_app. simpl. lia.
Qed.

Lemma existsb_idle_cpus (n : nat) (start : nat) :
  existsb cpu_is_busy (map (fun i => mkCPU i None) (seq start n)) = false.
Proof. revert start. induction n as [|n IH]; intros start; simpl; auto. Qed.

Lemma existsb_idle_ios (n : nat) (start : nat) :
  existsb io_is_busy (map (fun i => mkIODevice i None) (seq start n)) = false.
Proof. revert start. induction n as [|n IH]; intros start; simpl; auto. Qed.

(** C1 (the code departs from the claim).  When every process added
    before the run arrives after time 0, [run] returns at once, without a
    single call of [step]: the clock is still 0, nothing was logged, and
    all the processes are still in the future-arrivals list.  The loop
    condition of [run] never looks at that list. *)
Theorem run_ignores_future_arrivals
    (fuel num_cpus num_ios : nat) (alg : Algorithm) (processes : list Process) :
  Forall (fun p => 0 < arrival_time p) processes ->
  let s0 := setup num_cpus num_ios alg processes in
  run fuel s0 = Some s0
  /\ clock s0 = 0
  /\ events s0 = []
  /\ length (future_processes s0) = length processes.
Proof.
  intros Hall s0.
  destruct (setup_all_late processes (init num_cpus num_ios alg) Hall)
    as (H1 & H2 & H3 & H4 & H5 & H6 & H7).
  fold (setup num_cpus num_ios alg processes) in H1, H2, H3, H4, H5, H6, H7.
  fold s0 in H1, H2, H3, H4, H5, H6, H7.
  repeat split; try assumption.
  apply run_idle. unfold run_condition.
  rewrite H2, H3, H4, H5. simpl.
  rewrite existsb_idle_cpus, existsb_idle_ios. reflexivity.
Qed.

Lemma run_ignores_future_arrivals_witness :
  Forall (fun p => 0 < arrival_time p) [late_process]
  /\ run 100 (setup 1 1 FCFS [late_process]) = Some (setup 1 1 FCFS [late_process])
  /\ future_processes (setup 1 1 FCFS [late_process]) = [late_process].
Proof.
  split; [repeat constructor|].
  split; [|reflexivity].
  apply (run_ignores_future_arrivals 100 1 1 FCFS [late_process]).
  repeat constructor.
Defined.

(** ** Scenario S1 (FCFS) *)

Lemma S1_run : run 6 S1 = Some (steps 6 S1).
Proof. vm_compute. reflexivity. Qed.

(** C2, as stated, fails: whatever the bound, [run] on scenario S1 never
    returns with the clock at 5, and P1 is not finished at the end of
    tick 2. *)
Lemma S1_total_time_is_not_5 :
  ~ (exists fuel s, run fuel S1 = Some s /\ clock s = 5)
  /\ finished (steps 3 S1) = [].
Proof.
  split; [|vm_compute; reflexivity].
  intros (fuel & s & Hrun & Hclock).
  pose proof (run_fuel_irrelevant _ _ _ _ _ Hrun S1_run) as ->.
  vm_compute in Hclock. discriminate.
Qed.

(** C2 (amended).  In scenario S1, P1 is on the CPU at the end of ticks 0
    to 2 and its [finished] event is logged at time 3; P2 is dispatched at
    time 3, is on the CPU at the end of ticks 3 and 4, and its [finished]
    event is logged at time 5; [run] returns after six calls of [step],
    with the clock at 6. *)
Theorem S1_fcfs_timeline :
  map (fun n => cpu_pids (steps (S n) S1)) (seq 0 6)
  = [[Some "P1"]; [Some "P1"]; [Some "P1"]; [Some "P2"]; [Some "P2"]; [None]]
  /\ map (fun n => map pid (finished (steps (S n) S1))) (seq 0 6)
     = [[]; []; []; ["P1"]; ["P1"]; ["P1"; "P2"]]
  /\ events_of_type "dispatch_cpu" (steps 6 S1) = [(Some "P1", 0); (Some "P2", 3)]
  /\ events_of_type "finished" (steps 6 S1) = [(Some "P1", 3); (Some "P2", 5)]
  /\ run 6 S1 = Some (steps 6 S1)
  /\ clock (steps 6 S1) = 6.
Proof. vm_compute. repeat split; reflexivity. Qed.

(** ** Order of the ready queue *)

Lemma key_ltb_leb_trans (a b c : Key) :
  key_ltb a b = true -> key_leb b c = true -> key_ltb a c = true.
Proof.
  unfold key_leb. destruct a, b, c; simpl; try discriminate; try reflexivity.
  rewrite Bool.negb_true_iff. intros H1 H2.
  apply Z.ltb_lt. apply Z.ltb_lt in H1. apply Z.ltb_ge in H2. lia.
Qed.

Lemma key_leb_trans (a b c : Key) :
  key_leb a b = true -> key_leb b c = true -> key_leb a c = true.
Proof.
  unfold key_leb. destruct a, b, c; simpl; try discriminate; try reflexivity.
  rewrite !Bool.negb_true_iff. intros H1 H2.
  apply Z.ltb_ge. apply Z.ltb_ge in H1. apply Z.ltb_ge in H2. lia.
Qed.

Lemma key_ltb_leb (a b : Key) : key_ltb a b = true -> key_leb a b = true.
Proof.
  unfold key_leb. destruct a, b; simpl; try discriminate; try reflexivity.
  rewrite Bool.negb_true_iff. intros H.
  apply Z.ltb_ge. apply Z.ltb_lt in H. lia.
Qed.

Lemma key_not_ltb_leb (a b : Key) : key_ltb a b = false -> key_leb b a = true.
Proof. unfold key_leb. intros ->. reflexivity. Qed.

(** The scan of an insertion splits the queue: no element of the first
    part passes the test, and the second part is empty or begins with an
    element that does. *)
Lemma scan_pos_split (test : Process -> bool) (queue : list Process) :
  let pos := scan_pos test queue in
  Forall (fun x => test x = false) (take pos queue)
  /\ (drop pos queue = [] \/
      exists y rest, drop pos queue = y :: rest /\ test y = true).
Proof.
  induction queue as [|x queue IH]; simpl.
  - split; [constructor|left; reflexivity].
  - destruct (test x) eqn:E; simpl.
    + split; [constructor|]. right. exists x, queue. auto.
    + destruct IH as [IH1 IH2]. split; [constructor; assumption|exact IH2].
Qed.

Lemma scan_pos_all_false (test : Process -> bool) (queue : list Process) :
  Forall (fun x => test x = false) queue -> scan_pos test queue = length queue.
Proof.
  induction 1 as [|x queue Hx _ IH]; simpl; [reflexivity|].
  rewrite Hx, IH. reflexivity.
Qed.

(** Every policy inserts by one scan with a strict comparison of keys. *)
Lemma insert_by_key (alg : Algorithm) (p : Process) (queue : list Process) :
  _insert_into_ready_queue alg p queue
  = list_insert_at
      (scan_pos (fun x => key_ltb (policy_key alg p) (policy_key alg x)) queue)
      p queue.
Proof.
  assert (Htail : forall q : list Process,
            q ++ [p] = list_insert_at (scan_pos (fun _ => key_ltb (Fin 0) (Fin 0)) q) p q).
  { intros q. rewrite scan_pos_all_false.
    - unfold list_insert_at. rewrite firstn_all, drop_all. reflexivity.
    - apply Forall_forall. intros x _. reflexivity. }
  destruct alg; try reflexivity; simpl; apply Htail.
Qed.

Lemma sorted_by_key_app (alg : Algorithm) (l1 l2 : list Process) :
  sorted_by_key alg (l1 ++ l2) <->
  sorted_by_key alg l1 /\ sorted_by_key alg l2
  /\ Forall (fun x =>
       Forall (fun y => key_leb (policy_key alg x) (policy_key alg y) = true) l2) l1.
Proof.
  induction l1 as [|x l1 IH]; simpl.
  - split; [intros H; repeat split; auto|intros (_ & H & _); exact H].
  - rewrite Forall_app, IH. split.
    + intros ((H1 & H2) & H3 & H4 & H5). repeat split; auto.
    + intros ((H1 & H2) & H3 & H4).
      apply Forall_cons_1 in H4 as [H4 H5]. repeat split; auto.
Qed.

Lemma sorted_by_key_tail (alg : Algorithm) (x : Process) (l : list Process) :
  sorted_by_key alg (x :: l) -> sorted_by_key alg l.
Proof. simpl. tauto. Qed.

(** The position found by the scan in a sorted queue: everything before
    it has a key not greater than the new one, everything after it a key
    strictly greater. *)
Lemma insert_position (alg : Algorithm) (p : Process) (queue : list Process) :
  sorted_by_key alg queue ->
  exists before after,
    queue = before ++ after
    /\ _insert_into_ready_queue alg p queue = before ++ p :: after
    /\ Forall (fun x => key_leb (policy_key alg x) (policy_key alg p) = true) before
    /\ Forall (fun x => key_ltb (policy_key alg p) (policy_key alg x) = true) after.
Proof.
  intros Hsorted. rewrite insert_by_key.
  set (test := fun x => key_ltb (policy_key alg p) (policy_key alg x)).
  destruct (scan_pos_split test queue) as [Hbefore Hafter].
  exists (take (scan_pos test queue) queue), (drop (scan_pos test queue) queue).
  split; [symmetry; apply take_drop|].
  split; [reflexivity|].
  split.
  - eapply Forall_impl; [exact Hbefore|].
    intros x Hx. apply key_not_ltb_leb. exact Hx.
  - rewrite <- (take_drop (scan_pos test queue) queue) in Hsorted.
    apply sorted_by_key_app in Hsorted as (_ & Hs & _).
    destruct Hafter as [Hnil|(y & rest & Hcons & Hy)].
    { rewrite Hnil. apply Forall_nil_2. }
    rewrite Hcons in Hs |- *.
    apply Forall_cons_2; [exact Hy|].
    destruct Hs as [Hle _].
    eapply Forall_impl; [exact Hle|].
    intros z Hz. eapply key_ltb_leb_trans; [exact Hy|exact Hz].
Qed.

Lemma insert_sorted (alg : Algorithm) (p : Process) (queue : list Process) :
  sorted_by_key alg queue ->
  sorted_by_key alg (_insert_into_ready_queue alg p queue).
Proof.
  intros Hsorted.
  destruct (insert_position alg p queue Hsorted)
    as (before & after & Hq & -> & Hbefore & Hafter).
  subst queue. apply sorted_by_key_app in Hsorted as (Hs1 & Hs2 & Hcross).
  apply sorted_by_key_app. split; [exact Hs1|]. split.
  - simpl. split; [|exact Hs2].
    eapply Forall_impl; [exact Hafter|]. intros x. apply key_ltb_leb.
  - apply Forall_forall. intros x Hx.
    rewrite Forall_forall in Hbefore, Hcross.
    apply Forall_cons_2; [apply Hbefore, Hx|apply Hcross, Hx].
Qed.

Lemma min_by_head {K : Type} (ltb : K -> K -> bool) (key : Process -> K)
    (x : Process) (rest : list Process) :
  Forall (fun y => ltb (key y) (key x) = false) rest ->
  min_by ltb key x rest = x.
Proof.
  unfold min_by. induction 1 as [|y rest Hy _ IH]; simpl; [reflexivity|].
  rewrite Hy. exact IH.
Qed.

Lemma remove_first_head (x : Process) (rest : list Process) :
  remove_first x (x :: rest) = rest.
Proof. simpl. destruct (decide (x = x)); [reflexivity|congruence]. Qed.

(** In a sorted queue every policy selects the head. *)
Lemma select_head (alg : Algorithm) (x : Process) (rest : list Process) :
  sorted_by_key alg (x :: rest) ->
  _select_process_for_cpu alg (x :: rest) = (Some x, rest).
Proof.
  intros [Hle _].
  assert (Hkey : Forall (fun y => key_ltb (policy_key alg y) (policy_key alg x) = false) rest).
  { eapply Forall_impl; [exact Hle|]. intros y Hy.
    unfold key_leb in Hy. apply Bool.negb_true_iff in Hy. exact Hy. }
  destruct alg; cbn [_select_process_for_cpu]; try reflexivity.
  - rewrite (min_by_head key_ltb sjf_key x rest Hkey), remove_first_head. reflexivity.
  - rewrite (min_by_head Z.ltb remaining_burst_time x rest Hkey), remove_first_head.
    reflexivity.
  - rewrite (min_by_head Z.ltb priority x rest Hkey), remove_first_head. reflexivity.
  - rewrite (min_by_head Z.ltb priority x rest Hkey), remove_first_head. reflexivity.
Qed.

Lemma select_sorted (alg : Algorithm) (queue : list Process) :
  sorted_by_key alg queue ->
  sorted_by_key alg (snd (_select_process_for_cpu alg queue)).
Proof.
  destruct queue as [|x rest]; intros Hsorted; [exact Hsorted|].
  rewrite (select_head alg x rest Hsorted). simpl. apply Hsorted.
Qed.

(** *** The ready queue stays sorted *)

Lemma for_each_preserves (P : Scheduler -> Prop) (n : nat)
    (body : nat -> Scheduler -> Scheduler) (s : Scheduler) :
  (forall i s, P s -> P (body i s)) -> P s -> P (for_each n body s).
Proof.
  intros Hbody. unfold for_each. generalize (seq 0 n). intros l. revert s.
  induction l as [|i l IH]; intros s Hs; simpl; [exact Hs|].
  apply IH, Hbody, Hs.
Qed.

Lemma insert_ready_sorted (p : Process) (s : Scheduler) :
  ready_sorted s ->
  ready_sorted
    (set_ready_queue (_insert_into_ready_queue (algorithm s) p (ready_queue s)) s).
Proof. intros H. apply (insert_sorted (algorithm s) p (ready_queue s) H). Qed.

Lemma admit_loop_sorted (copy : list Process) :
  forall arrivals s, ready_sorted s -> ready_sorted (snd (admit_loop copy arrivals s)).
Proof.
  induction copy as [|p copy IH]; intros arrivals s Hs; simpl; [exact Hs|].
  destruct (arrival_time p <=? clock s); [|apply IH, Hs].
  apply IH. apply (insert_ready_sorted (set_state Ready p) s Hs).
Qed.

Lemma record_arrivals_sorted (arrivals : list Process) :
  forall s, ready_sorted s -> ready_sorted (fold_left record_arrival arrivals s).
Proof.
  induction arrivals as [|p arrivals IH]; intros s Hs; simpl; [exact Hs|].
  apply IH. exact Hs.
Qed.

Lemma admit_arrivals_sorted (s : Scheduler) :
  ready_sorted s -> ready_sorted (admit_arrivals s).
Proof.
  intros Hs. unfold admit_arrivals.
  pose proof (admit_loop_sorted (future_processes s) [] s Hs) as H.
  destruct (admit_loop (future_processes s) [] s) as [arrivals s'].
  apply record_arrivals_sorted, H.
Qed.

Lemma rr_quantum_sorted (i : nat) (cpu : CPU) (cur : Process) (s : Scheduler) :
  ready_sorted s -> ready_sorted (rr_quantum i cpu cur s).
Proof.
  intros Hs. unfold rr_quantum.
  destruct (_ && _); [|exact Hs].
  apply (insert_ready_sorted _ (set_cpu i (mkCPU (cid cpu) None) s) Hs).
Qed.

Lemma preempt_sorted (i : nat) (cpu : CPU) (cur best : Process) (label : string)
    (s : Scheduler) :
  ready_sorted s -> ready_sorted (preempt i cpu cur best label s).
Proof.
  intros Hs. unfold preempt.
  pose proof (insert_ready_sorted (set_state Ready cur) s Hs) as H1.
  set (s1 := set_ready_queue _ s) in *.
  pose proof (select_sorted (algorithm s1) (ready_queue s1) H1) as H2.
  destruct (_select_process_for_cpu (algorithm s1) (ready_queue s1))
    as [new_proc queue].
  destruct new_proc; exact H2.
Qed.

Lemma preemptive_sorted (i : nat) (cpu : CPU) (cur : Process) (s : Scheduler) :
  ready_sorted s -> ready_sorted (preemptive i cpu cur s).
Proof.
  intros Hs. unfold preemptive.
  destruct (ready_queue s) as [|x rest] eqn:Eq; [exact Hs|].
  destruct (algorithm s) eqn:Ealg; try exact Hs.
  - destruct (_ <? _); [apply preempt_sorted|]; exact Hs.
  - destruct (_ <? _); [apply preempt_sorted|]; exact Hs.
Qed.

Lemma cpu_completion_sorted (cpu : CPU) (proc : Process) (s : Scheduler) :
  ready_sorted s -> ready_sorted (cpu_completion cpu proc s).
Proof.
  intros Hs. unfold cpu_completion.
  destruct (current_burst proc) as [[n|ty d]|]; try exact Hs.
  apply (insert_ready_sorted (set_state Ready proc) s Hs).
Qed.

Lemma step_cpu_sorted (i : nat) (s : Scheduler) :
  ready_sorted s -> ready_sorted (step_cpu i s).
Proof.
  intros Hs. unfold step_cpu.
  destruct (cpus s !! i) as [c|]; [|exact Hs].
  destruct (cpu_tick c) as [cpu proc].
  assert (H1 : ready_sorted
                 match cpu_current cpu with
                 | Some cur =>
                     match algorithm (set_cpu i cpu s) with
                     | RR => rr_quantum i cpu cur (set_cpu i cpu s)
                     | _ => preemptive i cpu cur (set_cpu i cpu s)
                     end
                 | None => set_cpu i cpu s
                 end).
  { destruct (cpu_current cpu) as [cur|]; [|exact Hs].
    destruct (algorithm (set_cpu i cpu s));
      first [apply rr_quantum_sorted | apply preemptive_sorted]; exact Hs. }
  destruct proc as [proc|]; [apply cpu_completion_sorted|]; exact H1.
Qed.

Lemma io_completion_sorted (dev : IODevice) (proc : Process) (s : Scheduler) :
  ready_sorted s -> ready_sorted (io_completion dev proc s).
Proof.
  intros Hs. unfold io_completion.
  destruct (current_burst proc); [|exact Hs].
  apply (insert_ready_sorted (set_state Ready proc) s Hs).
Qed.

Lemma step_io_sorted (j : nat) (s : Scheduler) :
  ready_sorted s -> ready_sorted (step_io j s).
Proof.
  intros Hs. unfold step_io.
  destruct (io_devices s !! j) as [d|]; [|exact Hs].
  destruct (io_tick d) as [dev proc].
  destruct proc as [proc|]; [apply io_completion_sorted|]; exact Hs.
Qed.

Lemma dispatch_cpu_sorted (i : nat) (s : Scheduler) :
  ready_sorted s -> ready_sorted (dispatch_cpu i s).
Proof.
  intros Hs. unfold dispatch_cpu.
  destruct (cpus s !! i) as [cpu|]; [|exact Hs].
  destruct (negb (cpu_is_busy cpu)); [|exact Hs].
  pose proof (select_sorted (algorithm s) (ready_queue s) Hs) as H.
  destruct (_select_process_for_cpu (algorithm s) (ready_queue s)) as [[proc|] queue];
    [exact H|exact Hs].
Qed.

Lemma dispatch_io_sorted (j : nat) (s : Scheduler) :
  ready_sorted s -> ready_sorted (dispatch_io j s).
Proof.
  intros Hs. unfold dispatch_io.
  destruct (io_devices s !! j) as [dev|]; [|exact Hs].
  destruct (negb (io_is_busy dev)); [|exact Hs].
  destruct (wait_queue s); exact Hs.
Qed.

Lemma step_sorted (s : Scheduler) : ready_sorted s -> ready_sorted (step s).
Proof.
  intros Hs. unfold step, tick_cpus, tick_ios, dispatch_cpus, dispatch_ios.
  change (ready_sorted ?x) with (ready_sorted x).
  match goal with |- ready_sorted (set_clock _ ?x) => change (ready_sorted x) end.
  apply for_each_preserves; [apply dispatch_io_sorted|].
  apply for_each_preserves; [apply dispatch_cpu_sorted|].
  apply for_each_preserves; [apply step_io_sorted|].
  apply for_each_preserves; [apply step_cpu_sorted|].
  apply admit_arrivals_sorted, Hs.
Qed.

Lemma add_process_sorted (p : Process) (s : Scheduler) :
  ready_sorted s -> ready_sorted (add_process p s).
Proof.
  intros Hs. unfold add_process.
  destruct (arrival_time p <=? clock s); [|exact Hs].
  apply (insert_ready_sorted (set_state Ready p) s Hs).
Qed.

Example tie_state_queue :
  map pid (ready_queue tie_state) = ["b"; "a"; "c"]
  /\ map pid (_insert_into_ready_queue Priority tie_process (ready_queue tie_state))
     = ["b"; "a"; "c"; "d"].
Proof. vm_compute. split; reflexivity. Qed.

(** C6.  In a state whose ready queue is sorted by the policy's key (for
    RR every process ties), [_insert_into_ready_queue] puts the new process
    after every queued process whose key is not greater than its own, so
    after all those with an equal key, and before every process with a
    strictly greater key; the queue stays sorted, also across
    [add_process] and a whole [step]; and [_select_process_for_cpu] takes
    the head of the queue, the earliest inserted among the processes of
    minimal key, leaving the others in their order. *)
Theorem ready_queue_order_is_stable (s : Scheduler) (p : Process) :
  ready_sorted s ->
  (exists before after,
      ready_queue s = before ++ after
      /\ _insert_into_ready_queue (algorithm s) p (ready_queue s)
         = before ++ p :: after
      /\ Forall (fun x => key_leb (policy_key (algorithm s) x)
                                  (policy_key (algorithm s) p) = true) before
      /\ Forall (fun x => key_ltb (policy_key (algorithm s) p)
                                  (policy_key (algorithm s) x) = true) after)
  /\ sorted_by_key (algorithm s)
       (_insert_into_ready_queue (algorithm s) p (ready_queue s))
  /\ (forall x rest,
        ready_queue s = x :: rest ->
        _select_process_for_cpu (algorithm s) (ready_queue s) = (Some x, rest)
        /\ Forall (fun y => key_leb (policy_key (algorithm s) x)
                                    (policy_key (algorithm s) y) = true) rest
        /\ sorted_by_key (algorithm s) rest)
  /\ ready_sorted (add_process p s)
  /\ ready_sorted (step s).
Proof.
  intros Hs. split; [apply insert_position, Hs|].
  split; [apply insert_sorted, Hs|].
  split.
  - intros x rest Hq. unfold ready_sorted in Hs. rewrite Hq in Hs |- *.
    split; [apply select_head, Hs|]. exact Hs.
  - split; [apply add_process_sorted, Hs|apply step_sorted, Hs].
Qed.

Lemma ready_queue_order_is_stable_witness :
  ready_sorted tie_state
  /\ sorted_by_key Priority
       (_insert_into_ready_queue Priority tie_process (ready_queue tie_state))
  /\ ready_sorted (step tie_state).
Proof.
  assert (H : ready_sorted tie_state).
  { vm_compute. repeat split; repeat constructor. }
  split; [exact H|].
  destruct (ready_queue_order_is_stable tie_state tie_process H)
    as (_ & H1 & _ & _ & H2).
  split; [exact H1|exact H2].
Defined.

(** The ready queue is sorted in every state the driver reaches. *)
Lemma setup_sorted (num_cpus num_ios : nat) (alg : Algorithm)
    (processes : list Process) :
  ready_sorted (setup num_cpus num_ios alg processes).
Proof.
  unfold setup.
  assert (H : ready_sorted (init num_cpus num_ios alg)) by exact I.
  revert H. generalize (init num_cpus num_ios alg).
  induction processes as [|p ps IH]; intros s Hs; simpl; [exact Hs|].
  apply IH, add_process_sorted, Hs.
Qed.

Lemma steps_sorted (n : nat) :
  forall s, ready_sorted s -> ready_sorted (steps n s).
Proof.
  induction n as [|n IH]; intros s Hs; simpl; [exact Hs|].
  apply IH, step_sorted, Hs.
Qed.

(** ** Preemption under SRTF and PriorityPreemptive *)

Section MinBy.
Variable key : Process -> Z.

Let pick (best y : Process) : Process :=
  if key y <? key best then y else best.

Lemma min_by_fold (x : Process) (rest : list Process) :
  min_by Z.ltb key x rest = fold_left pick rest x.
Proof. reflexivity. Qed.

Lemma fold_pick_le (l : list Process) :
  forall b, key (fold_left pick l b) <= key b
            /\ Forall (fun y => key (fold_left pick l b) <= key y) l.
Proof.
  induction l as [|y l IH]; intros b; simpl; [split; [lia|constructor]|].
  destruct (IH (pick b y)) as [H1 H2].
  assert (Hp : key (pick b y) <= key b /\ key (pick b y) <= key y).
  { unfold pick. destruct (Z.ltb_spec (key y) (key b)); lia. }
  split; [lia|]. constructor; [lia|exact H2].
Qed.

(** The minimum that [min] returns is a minimum. *)
Lemma min_by_le (x : Process) (rest : list Process) :
  Forall (fun y => key (min_by Z.ltb key x rest) <= key y) (x :: rest).
Proof.
  rewrite min_by_fold. destruct (fold_pick_le rest x) as [H1 H2].
  constructor; assumption.
Qed.

Lemma min_by_In (x : Process) (rest : list Process) :
  In (min_by Z.ltb key x rest) (x :: rest).
Proof.
  rewrite min_by_fold. revert x.
  induction rest as [|y rest IH]; intros x; simpl; [left; reflexivity|].
  destruct (IH (pick x y)) as [H|H]; [|right; right; exact H].
  unfold pick in H at 1. destruct (key y <? key x); [right; left|left]; exact H.
Qed.

(** Starting the scan from another element does not change a minimum
    that is strictly below both starting points. *)
Lemma fold_pick_start (l : list Process) :
  forall b c,
    key (fold_left pick l b) < key b ->
    key (fold_left pick l b) < key c ->
    fold_left pick l c = fold_left pick l b.
Proof.
  induction l as [|y l IH]; intros b c Hb Hc; simpl in *; [lia|].
  unfold pick at 2 4. unfold pick at 2 in Hb. unfold pick at 2 in Hc.
  destruct (Z.ltb_spec (key y) (key b)), (Z.ltb_spec (key y) (key c)).
  - reflexivity.
  - apply IH; [lia|exact Hc].
  - apply IH; [exact Hb|lia].
  - apply IH; assumption.
Qed.

(** A process whose key is strictly above the minimum can be put
    anywhere in the queue: [min] returns the same process. *)
Lemma min_by_insert (c x : Process) (rest : list Process) (pos : nat) :
  key (min_by Z.ltb key x rest) < key c ->
  match list_insert_at pos c (x :: rest) with
  | [] => False
  | y :: l => min_by Z.ltb key y l = min_by Z.ltb key x rest
  end.
Proof.
  rewrite !min_by_fold. intros Hc. unfold list_insert_at.
  destruct pos as [|k]; simpl.
  - rewrite min_by_fold. simpl. unfold pick at 2.
    destruct (Z.ltb_spec (key x) (key c)); [reflexivity|].
    apply fold_pick_start; [lia|exact Hc].
  - rewrite min_by_fold, fold_left_app. simpl.
    rewrite <- (take_drop k rest) in Hc at 1.
    rewrite <- (take_drop k rest) at 3.
    rewrite fold_left_app in Hc |- *.
    set (b1 := fold_left pick (take k rest) x) in *.
    unfold pick at 2.
    destruct (Z.ltb_spec (key c) (key b1)); [|reflexivity].
    apply fold_pick_start; [lia|exact Hc].
Qed.
End MinBy.

(** *** What a phase of [step] leaves unchanged *)

Ltac break_match :=
  match goal with
  | |- context [match ?x with _ => _ end] => destruct x eqn:?
  end.

Ltac unfold_phases :=
  unfold step_cpu, step_io, dispatch_cpu, dispatch_io, rr_quantum, preemptive,
    preempt, cpu_completion, io_completion, record_arrival, add_process.

Lemma fold_left_preserves {A : Type} (P : Scheduler -> Prop)
    (body : Scheduler -> A -> Scheduler) (l : list A) :
  forall s, (forall k s, In k l -> P s -> P (body s k)) -> P s ->
            P (fold_left body l s).
Proof.
  induction l as [|k l IH]; intros s Hbody Hs; simpl; [exact Hs|].
  apply IH; [intros k' s' Hin; apply Hbody; right; exact Hin|].
  apply Hbody; [left; reflexivity|exact Hs].
Qed.

Lemma admit_loop_frame (copy : list Process) :
  forall arrivals s,
    let s' := snd (admit_loop copy arrivals s) in
    algorithm s' = algorithm s /\ cpus s' = cpus s
    /\ io_devices s' = io_devices s /\ clock s' = clock s
    /\ events s' = events s /\ wait_queue s' = wait_queue s.
Proof.
  induction copy as [|p copy IH]; intros arrivals s; simpl; [repeat split|].
  destruct (arrival_time p <=? clock s); [|apply IH].
  match goal with |- context [admit_loop copy ?a ?t] => specialize (IH a t) end.
  simpl in IH. exact IH.
Qed.

Lemma record_arrivals_frame (arrivals : list Process) :
  forall s,
    let s' := fold_left record_arrival arrivals s in
    algorithm s' = algorithm s /\ cpus s' = cpus s
    /\ io_devices s' = io_devices s /\ clock s' = clock s
    /\ ready_queue s' = ready_queue s /\ wait_queue s' = wait_queue s.
Proof.
  induction arrivals as [|p arrivals IH]; intros s; simpl; [repeat split|].
  specialize (IH (record_arrival s p)). simpl in IH. exact IH.
Qed.

Lemma admit_arrivals_frame (s : Scheduler) :
  algorithm (admit_arrivals s) = algorithm s
  /\ cpus (admit_arrivals s) = cpus s
  /\ io_devices (admit_arrivals s) = io_devices s
  /\ clock (admit_arrivals s) = clock s.
Proof.
  unfold admit_arrivals.
  pose proof (admit_loop_frame (future_processes s) [] s) as H1.
  destruct (admit_loop (future_processes s) [] s) as [arrivals s1]. simpl in H1.
  pose proof (record_arrivals_frame arrivals s1) as H2. simpl in H2.
  destruct H1 as (A1 & A2 & A3 & A4 & _), H2 as (B1 & B2 & B3 & B4 & _).
  repeat split; congruence.
Qed.

Lemma step_cpu_algorithm (i : nat) (s : Scheduler) :
  algorithm (step_cpu i s) = algorithm s.
Proof. unfold_phases. repeat break_match; reflexivity. Qed.

Lemma step_io_algorithm (j : nat) (s : Scheduler) :
  algorithm (step_io j s) = algorithm s.
Proof. unfold_phases. repeat break_match; reflexivity. Qed.

Lemma step_io_cpus (j : nat) (s : Scheduler) : cpus (step_io j s) = cpus s.
Proof. unfold_phases. repeat break_match; reflexivity. Qed.

Lemma dispatch_io_cpus (j : nat) (s : Scheduler) : cpus (dispatch_io j s) = cpus s.
Proof. unfold_phases. repeat break_match; reflexivity. Qed.

Lemma dispatch_cpu_algorithm (i : nat) (s : Scheduler) :
  algorithm (dispatch_cpu i s) = algorithm s.
Proof. unfold_phases. repeat break_match; reflexivity. Qed.

Lemma dispatch_io_algorithm (j : nat) (s : Scheduler) :
  algorithm (dispatch_io j s) = algorithm s.
Proof. unfold_phases. repeat break_match; reflexivity. Qed.

(** The body for one CPU does not touch another CPU. *)
Lemma step_cpu_other (k i : nat) (s : Scheduler) :
  k <> i -> cpus (step_cpu k s) !! i = cpus s !! i.
Proof.
  intros Hne. unfold_phases.
  repeat break_match; simpl; rewrite ?list_lookup_insert_ne by exact Hne;
    reflexivity.
Qed.

Lemma dispatch_cpu_other (k i : nat) (s : Scheduler) :
  k <> i -> cpus (dispatch_cpu k s) !! i = cpus s !! i.
Proof.
  intros Hne. unfold_phases.
  repeat break_match; simpl; rewrite ?list_lookup_insert_ne by exact Hne;
    reflexivity.
Qed.

(** A busy CPU is not dispatched to. *)
Lemma dispatch_cpu_busy (k i : nat) (c : CPU) (s : Scheduler) :
  cpus s !! i = Some c -> cpu_is_busy c = true ->
  cpus (dispatch_cpu k s) !! i = Some c.
Proof.
  intros Hc Hbusy. destruct (decide (k = i)) as [->|Hne].
  - unfold dispatch_cpu. rewrite Hc, Hbusy. simpl. exact Hc.
  - rewrite dispatch_cpu_other by exact Hne. exact Hc.
Qed.

Lemma cpu_tick_cid (c : CPU) : cid (fst (cpu_tick c)) = cid c.
Proof.
  unfold cpu_tick. destruct (cpu_current c) as [p|]; [|reflexivity].
  destruct (current_burst p) as [[n|ty d]|]; try reflexivity.
  destruct (n - 1 =? 0); reflexivity.
Qed.

(** A tick that leaves a process on the CPU returns nothing. *)
Lemma cpu_tick_stays (c c' : CPU) (proc : option Process) (cur : Process) :
  cpu_tick c = (c', proc) -> cpu_current c' = Some cur -> proc = None.
Proof.
  unfold cpu_tick. destruct (cpu_current c) as [p|] eqn:Ec.
  - destruct (current_burst p) as [[n|ty d]|].
    + destruct (n - 1 =? 0); intros [= <- <-]; [discriminate|reflexivity].
    + intros [= <- <-]; reflexivity.
    + intros [= <- <-]; reflexivity.
  - intros [= <- <-]; reflexivity.
Qed.

(** The rest of [step] after the loop body of CPU [i] does not touch
    that CPU as long as it is busy. *)
Lemma step_keeps_busy_cpu (s : Scheduler) (i : nat) (c : CPU) :
  (i < length (cpus s))%nat ->
  cpus (step_cpu i (before_cpu i s)) !! i = Some c ->
  cpu_is_busy c = true ->
  cpus (step s) !! i = Some c.
Proof.
  intros Hi Hc Hbusy.
  set (P := fun s' : Scheduler => cpus s' !! i = Some c).
  change (P (step s)). change (P (step_cpu i (before_cpu i s))) in Hc.
  unfold step, dispatch_ios, dispatch_cpus, tick_ios.
  match goal with |- P (set_clock _ ?x) => change (P x) end.
  apply for_each_preserves.
  { intros j s' Hs'. unfold P. rewrite dispatch_io_cpus. exact Hs'. }
  apply for_each_preserves.
  { intros k s' Hs'. apply (dispatch_cpu_busy k i c s' Hs' Hbusy). }
  apply for_each_preserves.
  { intros j s' Hs'. unfold P. rewrite step_io_cpus. exact Hs'. }
  unfold tick_cpus, for_each.
  destruct (admit_arrivals_frame s) as (_ & Hcpus & _). rewrite Hcpus.
  replace (length (cpus s)) with (i + S (length (cpus s) - S i))%nat by lia.
  rewrite seq_app, fold_left_app. simpl.
  fold (before_cpu i s).
  apply fold_left_preserves; [|exact Hc].
  intros k s' Hin Hs'. unfold P. rewrite step_cpu_other; [exact Hs'|].
  apply in_seq in Hin. lia.
Qed.

Lemma before_cpu_algorithm (i : nat) (s : Scheduler) :
  algorithm (before_cpu i s) = algorithm s.
Proof.
  unfold before_cpu.
  apply (fold_left_preserves (fun s' => algorithm s' = algorithm s)).
  - intros k s' _ Hs'. rewrite step_cpu_algorithm. exact Hs'.
  - apply admit_arrivals_frame.
Qed.

(** After the preempted process has been put back, the selection returns
    the process found by the test. *)
Lemma select_after_insert (alg : Algorithm) (c x : Process) (rest : list Process) :
  alg = SRTF \/ alg = PriorityPreemptive ->
  let best := min_by Z.ltb (preempt_key alg) x rest in
  preempt_key alg best < preempt_key alg c ->
  _select_process_for_cpu alg (_insert_into_ready_queue alg c (x :: rest))
  = (Some best, remove_first best (_insert_into_ready_queue alg c (x :: rest))).
Proof.
  intros Halg best Hlt. rewrite insert_by_key.
  set (pos := scan_pos _ _).
  pose proof (min_by_insert (preempt_key alg) c x rest pos Hlt) as Hmin.
  destruct (list_insert_at pos c (x :: rest)) as [|y l]; [contradiction|].
  fold best in Hmin.
  destruct Halg as [-> | ->]; cbn [_select_process_for_cpu].
  - change (preempt_key SRTF) with remaining_burst_time in Hmin.
    rewrite Hmin. reflexivity.
  - change (preempt_key PriorityPreemptive) with priority in Hmin.
    rewrite Hmin. reflexivity.
Qed.

(** The loop bodies of the CPUs before [i] leave CPU [i] as it was. *)
Lemma before_cpu_cpu (i : nat) (s : Scheduler) :
  cpus (before_cpu i s) !! i = cpus s !! i.
Proof.
  unfold before_cpu.
  apply (fold_left_preserves (fun s' => cpus s' !! i = cpus s !! i)).
  - intros k s' Hin Hs'. rewrite step_cpu_other; [exact Hs'|].
    apply in_seq in Hin. lia.
  - destruct (admit_arrivals_frame s) as (_ & -> & _). reflexivity.
Qed.

Lemma remove_first_In (a b : Process) (l : list Process) :
  In a l -> a <> b -> In a (remove_first b l).
Proof.
  intros Hin Hne. induction l as [|y l IH]; simpl in *; [exact Hin|].
  destruct (decide (y = b)) as [->|Hy].
  - destruct Hin as [->|Hin]; [congruence|exact Hin].
  - destruct Hin as [->|Hin]; [left; reflexivity|right; apply IH, Hin].
Qed.

Lemma insert_In (alg : Algorithm) (p : Process) (queue : list Process) :
  In p (_insert_into_ready_queue alg p queue).
Proof.
  rewrite insert_by_key. unfold list_insert_at.
  apply in_or_app. right. left. reflexivity.
Qed.

(** Under a preemptive policy the loop body of a CPU that still holds a
    process after its tick is the preemption test. *)
Lemma step_cpu_is_preemptive (s0 : Scheduler) (i : nat) (cpu cpu' : CPU)
    (proc : option Process) (cur : Process) :
  algorithm s0 = SRTF \/ algorithm s0 = PriorityPreemptive ->
  cpus s0 !! i = Some cpu ->
  cpu_tick cpu = (cpu', proc) ->
  cpu_current cpu' = Some cur ->
  step_cpu i s0 = preemptive i cpu' cur (set_cpu i cpu' s0).
Proof.
  intros Halg Hcpu Htick Hcur. unfold step_cpu. rewrite Hcpu, Htick, Hcur.
  rewrite (cpu_tick_stays _ _ _ _ Htick Hcur).
  change (algorithm (set_cpu i cpu' s0)) with (algorithm s0).
  destruct Halg as [-> | ->]; reflexivity.
Qed.

(** The preemption test, once it has succeeded. *)
Lemma preemptive_preempts (s1 : Scheduler) (i : nat) (cpu' : CPU)
    (cur x : Process) (rest : list Process) :
  algorithm s1 = SRTF \/ algorithm s1 = PriorityPreemptive ->
  (i < length (cpus s1))%nat ->
  ready_queue s1 = x :: rest ->
  let key := preempt_key (algorithm s1) in
  let best := min_by Z.ltb key x rest in
  key best < key cur ->
  let s2 := preemptive i cpu' cur s1 in
  cpus s2 !! i = Some (mkCPU (cid cpu') (Some (set_state Running best)))
  /\ ready_queue s2
     = remove_first best
         (_insert_into_ready_queue (algorithm s1) (set_state Ready cur) (x :: rest)).
Proof.
  intros Halg Hi Hq key best Hlt s2.
  assert (Hsel := select_after_insert (algorithm s1) (set_state Ready cur) x rest
                    Halg Hlt).
  assert (Hs2 : s2 = preempt i cpu' cur best
                       (match algorithm s1 with SRTF => "SRTF" | _ => "Priority" end)
                       s1).
  { unfold s2, preemptive. rewrite Hq. unfold best, key in *.
    destruct Halg as [E | E]; rewrite E in *.
    - change (preempt_key SRTF) with remaining_burst_time in *.
      apply Z.ltb_lt in Hlt. rewrite Hlt. reflexivity.
    - change (preempt_key PriorityPreemptive) with priority in *.
      apply Z.ltb_lt in Hlt. rewrite Hlt. reflexivity. }
  rewrite Hs2. unfold preempt. cbn [ready_queue set_ready_queue algorithm].
  rewrite Hq, Hsel. cbn. split; [|reflexivity].
  apply list_lookup_insert_eq. exact Hi.
Qed.

(** The preemption test, when no ready process has a smaller key. *)
Lemma preemptive_keeps (s1 : Scheduler) (i : nat) (cpu' : CPU)
    (cur x : Process) (rest : list Process) :
  algorithm s1 = SRTF \/ algorithm s1 = PriorityPreemptive ->
  ready_queue s1 = x :: rest ->
  preempt_key (algorithm s1) cur
    <= preempt_key (algorithm s1) (min_by Z.ltb (preempt_key (algorithm s1)) x rest) ->
  preemptive i cpu' cur s1 = s1.
Proof.
  intros Halg Hq Hle. unfold preemptive. rewrite Hq.
  destruct Halg as [E | E]; rewrite E in *.
  - change (preempt_key SRTF) with remaining_burst_time in *.
    apply Z.ltb_ge in Hle. rewrite Hle. reflexivity.
  - change (preempt_key PriorityPreemptive) with priority in *.
    apply Z.ltb_ge in Hle. rewrite Hle. reflexivity.
Qed.

(** C3.  Under SRTF (key [remaining_burst_time]) and PriorityPreemptive
    (key [priority]): let CPU [i] still hold [cur] after its tick in
    [step], and let [best] be the first process of minimal key in the
    ready queue at that point.  If some ready process has a key strictly
    below that of [cur], then in the same loop body [cur] goes back to the
    ready queue and [best] is assigned to CPU [i], which still holds it
    when [step] returns.  If no ready process has a strictly smaller key
    (a tie included), the loop body only ticks: the queue is unchanged and
    CPU [i] keeps [cur]. *)
Theorem preemption_in_same_step (s : Scheduler) (i : nat) (cpu cpu' : CPU)
    (proc : option Process) (cur x : Process) (rest : list Process) :
  algorithm s = SRTF \/ algorithm s = PriorityPreemptive ->
  cpus s !! i = Some cpu ->
  cpu_tick cpu = (cpu', proc) ->
  cpu_current cpu' = Some cur ->
  ready_queue (before_cpu i s) = x :: rest ->
  let key := preempt_key (algorithm s) in
  let best := min_by Z.ltb key x rest in
  let after := step_cpu i (before_cpu i s) in
  In best (x :: rest)
  /\ Forall (fun y => key best <= key y) (x :: rest)
  /\ (Exists (fun y => key y < key cur) (x :: rest) ->
        cpus after !! i = Some (mkCPU (cid cpu) (Some (set_state Running best)))
        /\ cpus (step s) !! i = Some (mkCPU (cid cpu) (Some (set_state Running best)))
        /\ ready_queue after
           = remove_first best
               (_insert_into_ready_queue (algorithm s) (set_state Ready cur) (x :: rest))
        /\ In (set_state Ready cur) (ready_queue after))
  /\ (Forall (fun y => key cur <= key y) (x :: rest) ->
        after = set_cpu i cpu' (before_cpu i s)
        /\ cpus (step s) !! i = Some cpu').
Proof.
  intros Halg Hcpu Htick Hcur Hq key best after.
  pose proof (min_by_In key x rest) as Hin.
  pose proof (min_by_le key x rest) as Hmin.
  fold best in Hin, Hmin.
  assert (Ha : algorithm (before_cpu i s) = algorithm s)
    by apply before_cpu_algorithm.
  assert (Hcpu0 : cpus (before_cpu i s) !! i = Some cpu)
    by (rewrite before_cpu_cpu; exact Hcpu).
  assert (Hi : (i < length (cpus s))%nat) by (eapply lookup_lt_Some; exact Hcpu).
  assert (Hi0 : (i < length (cpus (before_cpu i s)))%nat)
    by (eapply lookup_lt_Some; exact Hcpu0).
  assert (Hbody : after = preemptive i cpu' cur (set_cpu i cpu' (before_cpu i s))).
  { apply (step_cpu_is_preemptive _ _ cpu cpu' proc cur);
      [rewrite Ha; exact Halg|assumption..]. }
  assert (Hcid : cid cpu' = cid cpu).
  { pose proof (cpu_tick_cid cpu) as H. rewrite Htick in H. exact H. }
  split; [exact Hin|]. split; [exact Hmin|]. split.
  - intros Hex.
    assert (Hlt : key best < key cur).
    { apply Exists_exists in Hex as (y & Hy & Hlt).
      rewrite Forall_forall in Hmin. specialize (Hmin y Hy). lia. }
    destruct (preemptive_preempts (set_cpu i cpu' (before_cpu i s)) i cpu' cur x rest)
      as [H1 H2].
    + cbn. rewrite Ha. exact Halg.
    + cbn. rewrite length_insert. exact Hi0.
    + exact Hq.
    + cbn. rewrite Ha. exact Hlt.
    + cbn [algorithm set_cpu set_cpus] in H1, H2. rewrite Ha in H1, H2.
      fold key in H1, H2. fold best in H1, H2.
      rewrite <- Hbody in H1, H2. rewrite Hcid in H1.
      split; [exact H1|]. split.
      { apply step_keeps_busy_cpu; [exact Hi|exact H1|reflexivity]. }
      split; [exact H2|].
      rewrite H2. apply remove_first_In; [apply insert_In|].
      intros Heq. rewrite <- Heq in Hlt.
      unfold key, preempt_key, remaining_burst_time in Hlt.
      destruct (algorithm s); simpl in Hlt; lia.
  - intros Hall.
    assert (Hle : key cur <= key best).
    { rewrite Forall_forall in Hall. apply Hall, list_elem_of_In, Hin. }
    assert (Hkeep : after = set_cpu i cpu' (before_cpu i s)).
    { rewrite Hbody. apply (preemptive_keeps _ i cpu' cur x rest).
      - cbn. rewrite Ha. exact Halg.
      - exact Hq.
      - cbn. rewrite Ha. exact Hle. }
    split; [exact Hkeep|].
    apply step_keeps_busy_cpu; [exact Hi| |].
    + fold after. rewrite Hkeep. cbn. apply list_lookup_insert_eq. exact Hi0.
    + unfold cpu_is_busy. rewrite Hcur. reflexivity.
Qed.

Lemma preemption_in_same_step_witness :
  pid S3_running = "P1" /\ pid S3_arrived = "P2"
  /\ cpus S3_state !! 0%nat = Some S3_cpu
  /\ cpus (step S3_state) !! 0%nat
     = Some (mkCPU (cid S3_cpu)
               (Some (set_state Running
                        (min_by Z.ltb (preempt_key (algorithm S3_state))
                           S3_arrived [])))).
Proof.
  split; [reflexivity|]. split; [reflexivity|].
  assert (Hcpu : cpus S3_state !! 0%nat = Some S3_cpu)
    by (vm_compute; reflexivity).
  split; [exact Hcpu|].
  assert (Halg : algorithm S3_state = SRTF \/ algorithm S3_state = PriorityPreemptive)
    by (left; vm_compute; reflexivity).
  assert (Htick : cpu_tick S3_cpu = (S3_cpu_ticked, None))
    by (vm_compute; reflexivity).
  assert (Hcur : cpu_current S3_cpu_ticked = Some S3_running)
    by (vm_compute; reflexivity).
  assert (Hq : ready_queue (before_cpu 0 S3_state) = [S3_arrived])
    by (vm_compute; reflexivity).
  pose proof (preemption_in_same_step S3_state 0 S3_cpu S3_cpu_ticked None
                S3_running S3_arrived [] Halg Hcpu Htick Hcur Hq) as H.
  destruct H as (_ & _ & H & _).
  assert (Hex : Exists
                  (fun y => preempt_key (algorithm S3_state) y
                            < preempt_key (algorithm S3_state) S3_running)
                  [S3_arrived]).
  { apply Exists_cons_hd. vm_compute. reflexivity. }
  destruct (H Hex) as (_ & H2 & _). exact H2.
Defined.

(** ** Insertion and selection lose no process *)

Lemma insert_permutation (alg : Algorithm) (p : Process) (queue : list Process) :
  Permutation (_insert_into_ready_queue alg p queue) (p :: queue).
Proof.
  rewrite insert_by_key. unfold list_insert_at.
  set (pos := scan_pos _ _).
  rewrite <- (take_drop pos queue) at 3.
  symmetry. apply Permutation_middle.
Qed.

Lemma remove_first_permutation (x : Process) (l : list Process) :
  In x l -> Permutation l (x :: remove_first x l).
Proof.
  induction l as [|y l IH]; simpl; [intros []|].
  intros Hin. destruct (decide (y = x)) as [->|Hne]; [reflexivity|].
  destruct Hin as [->|Hin]; [congruence|].
  rewrite (IH Hin) at 1. apply perm_swap.
Qed.

Section MinByOrder.
Context {K : Type} (ltb : K -> K -> bool) (key : Process -> K).
Hypothesis ltb_irrefl : forall a, ltb a a = false.
Hypothesis ltb_asym : forall a b, ltb a b = true -> ltb b a = false.
Hypothesis leb_trans :
  forall a b c, ltb b a = false -> ltb c b = false -> ltb c a = false.

Lemma min_by_member (x : Process) (rest : list Process) :
  In (min_by ltb key x rest) (x :: rest).
Proof.
  unfold min_by. revert x.
  induction rest as [|y rest IH]; intros x; simpl; [left; reflexivity|].
  destruct (IH (if ltb (key y) (key x) then y else x)) as [H|H];
    [|right; right; exact H].
  destruct (ltb (key y) (key x)); [right; left|left]; exact H.
Qed.

Lemma fold_min_lower (l : list Process) :
  forall b seen,
    Forall (fun y => ltb (key y) (key b) = false) seen ->
    Forall (fun y =>
              ltb (key y)
                  (key (fold_left (fun best y => if ltb (key y) (key best)
                                                 then y else best) l b)) = false)
           (seen ++ b :: l).
Proof.
  induction l as [|y l IH]; intros b seen Hseen; simpl.
  - apply Forall_app. split; [exact Hseen|].
    apply Forall_cons_2; [apply ltb_irrefl|apply Forall_nil_2].
  - replace (seen ++ b :: y :: l) with ((seen ++ [b]) ++ y :: l)
      by (rewrite <- app_assoc; reflexivity).
    destruct (ltb (key y) (key b)) eqn:E.
    + apply IH. apply Forall_app. split.
      * eapply Forall_impl; [exact Hseen|]. intros z Hz. simpl in Hz.
        apply (leb_trans (key y) (key b) (key z)); [|exact Hz].
        apply ltb_asym, E.
      * apply Forall_cons_2; [apply ltb_asym, E|apply Forall_nil_2].
    + assert (Hb : Forall (fun z => ltb (key z) (key b) = false) (seen ++ [y])).
      { apply Forall_app. split; [exact Hseen|].
        apply Forall_cons_2; [exact E|apply Forall_nil_2]. }
      specialize (IH b (seen ++ [y]) Hb).
      rewrite Forall_app in IH. destruct IH as [IH1 IH2].
      rewrite Forall_app in IH1. destruct IH1 as [IH1 IH3].
      apply Forall_cons_1 in IH2 as [IH2 IH4].
      apply Forall_app. split.
      * apply Forall_app. split; [exact IH1|].
        apply Forall_cons_2; [exact IH2|apply Forall_nil_2].
      * apply Forall_cons_2; [|exact IH4].
        apply Forall_cons_1 in IH3 as [IH3 _]. exact IH3.
Qed.

(** No element of the queue has a key strictly below that of the
    process [min] returns. *)
Lemma min_by_lower (x : Process) (rest : list Process) :
  Forall (fun y => ltb (key y) (key (min_by ltb key x rest)) = false) (x :: rest).
Proof. apply (fold_min_lower rest x []). apply Forall_nil_2. Qed.
End MinByOrder.

Lemma key_ltb_irrefl (a : Key) : key_ltb a a = false.
Proof. destruct a; simpl; [apply Z.ltb_irrefl|reflexivity]. Qed.

Lemma key_ltb_asym (a b : Key) : key_ltb a b = true -> key_ltb b a = false.
Proof.
  destruct a, b; simpl; try discriminate; try reflexivity.
  intros H. apply Z.ltb_lt in H. apply Z.ltb_ge. lia.
Qed.

Lemma key_not_ltb_trans (a b c : Key) :
  key_ltb b a = false -> key_ltb c b = false -> key_ltb c a = false.
Proof.
  destruct a, b, c; simpl; try discriminate; try reflexivity.
  intros H1 H2. apply Z.ltb_ge in H1, H2. apply Z.ltb_ge. lia.
Qed.

Lemma Z_ltb_asym (a b : Z) : (a <? b) = true -> (b <? a) = false.
Proof. intros H. apply Z.ltb_lt in H. apply Z.ltb_ge. lia. Qed.

Lemma Z_not_ltb_trans (a b c : Z) :
  (b <? a) = false -> (c <? b) = false -> (c <? a) = false.
Proof. intros H1 H2. apply Z.ltb_ge in H1, H2. apply Z.ltb_ge. lia. Qed.

(** X1.  Whatever the queue, sorted or not, [_insert_into_ready_queue]
    puts the new process at the first position whose occupant has a
    strictly greater key, at the tail when there is none; the queued
    processes keep their relative order, none is lost, none is
    duplicated. *)
Theorem insert_at_first_greater (alg : Algorithm) (p : Process)
    (queue : list Process) :
  exists before after,
    queue = before ++ after
    /\ _insert_into_ready_queue alg p queue = before ++ p :: after
    /\ Forall (fun x => key_ltb (policy_key alg p) (policy_key alg x) = false) before
    /\ (after = [] \/
        exists y rest, after = y :: rest
                       /\ key_ltb (policy_key alg p) (policy_key alg y) = true)
    /\ Permutation (_insert_into_ready_queue alg p queue) (p :: queue)
    /\ length (_insert_into_ready_queue alg p queue) = S (length queue).
Proof.
  set (test := fun x => key_ltb (policy_key alg p) (policy_key alg x)).
  destruct (scan_pos_split test queue) as [Hbefore Hafter].
  exists (take (scan_pos test queue) queue), (drop (scan_pos test queue) queue).
  split; [symmetry; apply take_drop|].
  split; [apply insert_by_key|].
  split; [exact Hbefore|]. split; [exact Hafter|].
  split; [apply insert_permutation|].
  apply (Permutation_length (insert_permutation alg p queue)).
Qed.

(** X2.  [_select_process_for_cpu] returns nothing on an empty queue and
    leaves it empty.  On a non-empty queue it returns one of the queued
    processes and the queue without it (the same processes, one fewer):
    under SJF, SRTF, Priority and PriorityPreemptive a process whose key no
    queued process undercuts, whatever the order of the queue; under FCFS,
    RR and any other name the head. *)
Theorem select_takes_minimum (alg : Algorithm) (queue : list Process) :
  match _select_process_for_cpu alg queue with
  | (None, queue') => queue = [] /\ queue' = []
  | (Some p, queue') =>
      Permutation queue (p :: queue')
      /\ match alg with
         | SJF | SRTF | Priority | PriorityPreemptive =>
             Forall (fun y => key_leb (policy_key alg p) (policy_key alg y) = true)
                    queue
         | _ => queue = p :: queue'
         end
  end.
Proof.
  destruct queue as [|x rest]; [simpl; split; reflexivity|].
  destruct alg; cbn [_select_process_for_cpu];
    try (split; reflexivity).
  - split.
    + apply remove_first_permutation, min_by_member.
    + pose proof (min_by_lower key_ltb sjf_key key_ltb_irrefl key_ltb_asym
                    key_not_ltb_trans x rest) as H.
      eapply Forall_impl; [exact H|]. intros y Hy. unfold key_leb.
      cbn [policy_key]. rewrite Hy. reflexivity.
  - split.
    + apply remove_first_permutation, min_by_member.
    + pose proof (min_by_lower Z.ltb remaining_burst_time Z.ltb_irrefl Z_ltb_asym
                    Z_not_ltb_trans x rest) as H.
      eapply Forall_impl; [exact H|]. intros y Hy. unfold key_leb.
      cbn [policy_key key_ltb]. rewrite Hy. reflexivity.
  - split.
    + apply remove_first_permutation, min_by_member.
    + pose proof (min_by_lower Z.ltb priority Z.ltb_irrefl Z_ltb_asym
                    Z_not_ltb_trans x rest) as H.
      eapply Forall_impl; [exact H|]. intros y Hy. unfold key_leb.
      cbn [policy_key key_ltb]. rewrite Hy. reflexivity.
  - split.
    + apply remove_first_permutation, min_by_member.
    + pose proof (min_by_lower Z.ltb priority Z.ltb_irrefl Z_ltb_asym
                    Z_not_ltb_trans x rest) as H.
      eapply Forall_impl; [exact H|]. intros y Hy. unfold key_leb.
      cbn [policy_key key_ltb]. rewrite Hy. reflexivity.
Qed.

(** ** Sorting by an integer key *)

Section SortBy.
Context {A : Type} (key : A -> Z).

Lemma sort_insert_perm (x : A) (l : list A) :
  Permutation (sort_insert key x l) (x :: l).
Proof.
  induction l as [|y l IH]; simpl; [reflexivity|].
  destruct (key x <=? key y); [reflexivity|].
  rewrite IH. apply perm_swap.
Qed.

Lemma sort_by_perm (l : list A) : Permutation (sort_by key l) l.
Proof.
  unfold sort_by. induction l as [|x l IH]; simpl; [reflexivity|].
  rewrite sort_insert_perm, IH. reflexivity.
Qed.

Lemma sort_insert_ascending (x : A) (l : list A) :
  ascending key l -> ascending key (sort_insert key x l).
Proof.
  induction l as [|y l IH]; simpl; [intros _; split; [constructor|exact I]|].
  intros [Hy Hl]. destruct (Z.leb_spec (key x) (key y)) as [Hle|Hgt]; simpl.
  - split; [|split; assumption].
    apply Forall_cons_2; [exact Hle|].
    eapply Forall_impl; [exact Hy|]. intros z Hz. simpl in Hz. lia.
  - split; [|apply IH, Hl].
    rewrite (sort_insert_perm x l).
    apply Forall_cons_2; [lia|exact Hy].
Qed.

Lemma sort_by_ascending (l : list A) : ascending key (sort_by key l).
Proof.
  unfold sort_by. induction l as [|x l IH]; simpl; [exact I|].
  apply sort_insert_ascending, IH.
Qed.

Lemma sort_insert_head (x : A) (l : list A) :
  ascending key (x :: l) -> sort_insert key x l = x :: l.
Proof.
  destruct l as [|y l]; simpl; [reflexivity|].
  intros [Hx _]. apply Forall_cons_1 in Hx as [Hxy _].
  destruct (Z.leb_spec (key x) (key y)); [reflexivity|lia].
Qed.


(** Sorting an ordered list with one more element at its end: the new
    element goes after the elements whose key is not greater than its own
    and before the others. *)
Lemma sort_by_snoc (l : list A) (p : A) :
  ascending key l ->
  exists before after,
    l = before ++ after
    /\ sort_by key (l ++ [p]) = before ++ p :: after
    /\ Forall (fun x => key x <= key p) before
    /\ Forall (fun x => key p < key x) after.
Proof.
  unfold sort_by. induction l as [|x l IH]; simpl.
  - intros _. exists [], []. repeat split; constructor.
  - intros [Hx Hl].
    destruct (IH Hl) as (before & after & Hl' & Hsort & Hb & Ha).
    rewrite Hsort.
    destruct (Z.leb_spec (key x) (key p)) as [Hle|Hgt].
    + exists (x :: before), after. split; [simpl; congruence|].
      split; [|split; [apply Forall_cons_2; assumption|exact Ha]].
      apply sort_insert_head. simpl.
      assert (Hall : Forall (fun y => key x <= key y) (before ++ p :: after)).
      { subst l. apply Forall_app in Hx as [Hx1 Hx2].
        apply Forall_app. split; [exact Hx1|].
        apply Forall_cons_2; [exact Hle|exact Hx2]. }
      split; [exact Hall|].
      pose proof (sort_by_ascending (l ++ [p])) as Hs. unfold sort_by in Hs.
      rewrite Hsort in Hs. exact Hs.
    + assert (before = []) as ->.
      { destruct before as [|b before]; [reflexivity|].
        apply Forall_cons_1 in Hb as [Hb _]. subst l.
        apply Forall_cons_1 in Hx as [Hxb _]. lia. }
      simpl in Hl'. subst after. simpl.
      exists [], (x :: l). split; [reflexivity|].
      destruct (Z.leb_spec (key x) (key p)); [lia|].
      rewrite sort_insert_head by (split; assumption).
      split; [reflexivity|]. split; [constructor|].
      apply Forall_cons_2; [exact Hgt|exact Ha].
Qed.
End SortBy.

(** ** [add_process] *)

(** X3.  [add_process] routes by arrival time.  A process that has
    arrived goes into the ready queue at once, by the policy's insertion,
    and exactly one [enqueue] event is logged, stamped with the current
    clock and showing the process in the ready queue; the future list is
    untouched.  A process that has not arrived yet only joins
    [future_processes], without any event: the list is then in ascending
    order of arrival time, holds the same processes plus the new one, and,
    when it was in order before, the new process sits after every process
    that arrives no later than it does. *)
Theorem add_process_routes (p : Process) (s : Scheduler) :
  (arrival_time p <= clock s ->
     ready_queue (add_process p s)
     = _insert_into_ready_queue (algorithm s) (set_state Ready p) (ready_queue s)
     /\ future_processes (add_process p s) = future_processes s
     /\ exists e,
          events (add_process p s) = events s ++ [e]
          /\ ev_event_type e = "enqueue" /\ ev_time e = clock s
          /\ ev_process e = Some (pid p) /\ In (pid p) (ev_ready_queue e))
  /\ (clock s < arrival_time p ->
     ready_queue (add_process p s) = ready_queue s
     /\ events (add_process p s) = events s
     /\ ascending arrival_time (future_processes (add_process p s))
     /\ Permutation (future_processes (add_process p s)) (p :: future_processes s)
     /\ (ascending arrival_time (future_processes s) ->
         exists before after,
           future_processes s = before ++ after
           /\ future_processes (add_process p s) = before ++ p :: after
           /\ Forall (fun x => arrival_time x <= arrival_time p) before
           /\ Forall (fun x => arrival_time p < arrival_time x) after)).
Proof.
  split; intros Harr; unfold add_process.
  - destruct (Z.leb_spec (arrival_time p) (clock s)); [|lia].
    split; [reflexivity|]. split; [reflexivity|].
    eexists. split; [reflexivity|]. cbn.
    repeat split; try reflexivity.
    apply in_map with (f := pid) (x := set_state Ready p), insert_In.
  - destruct (Z.leb_spec (arrival_time p) (clock s)); [lia|]. cbn.
    split; [reflexivity|]. split; [reflexivity|].
    split; [apply sort_by_ascending|].
    split.
    + rewrite sort_by_perm. symmetry. apply Permutation_cons_append.
    + intros Hasc. apply sort_by_snoc, Hasc.
Qed.

Lemma add_process_routes_witness :
  clock waiting_state < arrival_time between_process
  /\ map pid (future_processes (add_process between_process waiting_state))
     = ["a"; "c"; "b"]
  /\ ascending arrival_time
       (future_processes (add_process between_process waiting_state)).
Proof.
  assert (Hlt : clock waiting_state < arrival_time between_process)
    by (vm_compute; reflexivity).
  split; [exact Hlt|]. split; [vm_compute; reflexivity|].
  destruct (add_process_routes between_process waiting_state) as [_ H].
  destruct (H Hlt) as (_ & _ & Hasc & _). exact Hasc.
Defined.

(** ** Admission of arrivals *)

Lemma remove_first_app_notin (p : Process) (l1 l2 : list Process) :
  ~ In p l1 -> remove_first p (l1 ++ p :: l2) = l1 ++ l2.
Proof.
  induction l1 as [|y l1 IH]; simpl; intros Hnot.
  - destruct (decide (p = p)); [reflexivity|congruence].
  - destruct (decide (y = p)) as [->|Hne]; [exfalso; apply Hnot; left; reflexivity|].
    rewrite IH; [reflexivity|]. intros Hin. apply Hnot. right. exact Hin.
Qed.

(** The arrival loop, started anywhere in the copy: [kept] are the
    processes of the copy already passed and left in the list. *)
Lemma admit_loop_spec (copy : list Process) :
  forall kept arrivals s,
    future_processes s = kept ++ copy ->
    Forall (fun p => (arrival_time p <=? clock s) = false) kept ->
    let due := fun p => arrival_time p <=? clock s in
    let arrived := map (set_state Ready) (List.filter due copy) in
    let r := admit_loop copy arrivals s in
    fst r = arrivals ++ arrived
    /\ future_processes (snd r)
       = kept ++ List.filter (fun p => negb (due p)) copy
    /\ ready_queue (snd r)
       = fold_left (fun q p => _insert_into_ready_queue (algorithm s) p q)
                   arrived (ready_queue s)
    /\ events (snd r) = events s.
Proof.
  induction copy as [|p copy IH]; intros kept arrivals s Hfut Hkept; simpl.
  - rewrite !app_nil_r. rewrite app_nil_r in Hfut. repeat split; assumption.
  - destruct (arrival_time p <=? clock s) eqn:Edue; simpl.
    + cbn [future_processes set_ready_queue]. rewrite Hfut.
      rewrite remove_first_app_notin.
      * match goal with |- context [admit_loop copy ?a ?t] =>
          specialize (IH kept a t) end.
        simpl in IH.
        destruct (IH eq_refl Hkept) as (H1 & H2 & H3 & H4).
        rewrite H1, H2, H3, H4, <- app_assoc. repeat split.
      * intros Hin. rewrite Forall_forall in Hkept.
        apply list_elem_of_In, Hkept in Hin. congruence.
    + specialize (IH (kept ++ [p]) arrivals s).
      simpl in IH. rewrite <- app_assoc in IH. simpl in IH.
      destruct (IH Hfut) as (H1 & H2 & H3 & H4).
      * apply Forall_app. split; [exact Hkept|].
        apply Forall_cons_2; [exact Edue|apply Forall_nil_2].
      * rewrite H1, H2, H3, H4, <- app_assoc. repeat split.
Qed.

Lemma record_arrivals_events (arrivals : list Process) :
  forall s,
    let s' := fold_left record_arrival arrivals s in
    ready_queue s' = ready_queue s
    /\ future_processes s' = future_processes s
    /\ exists new,
         events s' = events s ++ new
         /\ map event_view new
            = map (fun p => ("arrival", Some (pid p), clock s, map pid (ready_queue s)))
                  arrivals.
Proof.
  induction arrivals as [|p arrivals IH]; intros s; simpl.
  - repeat split. exists []. rewrite app_nil_r. split; reflexivity.
  - destruct (IH (record_arrival s p)) as (H1 & H2 & new & H3 & H4).
    split; [exact H1|]. split; [exact H2|].
    eexists (_ :: new). split.
    + rewrite H3. unfold record_arrival, _record. cbn.
      rewrite <- app_assoc. reflexivity.
    + simpl. rewrite H4. reflexivity.
Qed.

Lemma fold_insert_permutation (alg : Algorithm) (ps : list Process) :
  forall q,
    Permutation (fold_left (fun q p => _insert_into_ready_queue alg p q) ps q)
                (ps ++ q).
Proof.
  induction ps as [|p ps IH]; intros q; simpl; [reflexivity|].
  rewrite IH, insert_permutation. symmetry. apply Permutation_middle.
Qed.

(** X4.  The arrival phase of [step] admits every process of
    [future_processes] that is due ([arrival_time <= clock]) and no other:
    the due processes leave the list, the others stay in their order; the
    due ones enter the ready queue, marked ready, by successive policy
    insertions in list order; one [arrival] event per admitted process is
    logged, in that order, each stamped with the clock and showing the
    ready queue as it is once all of them are in. *)
Theorem admit_arrivals_spec (s : Scheduler) :
  let due := fun p => arrival_time p <=? clock s in
  let arrived := map (set_state Ready) (List.filter due (future_processes s)) in
  let s' := admit_arrivals s in
  future_processes s' = List.filter (fun p => negb (due p)) (future_processes s)
  /\ Forall (fun p => clock s < arrival_time p) (future_processes s')
  /\ ready_queue s'
     = fold_left (fun q p => _insert_into_ready_queue (algorithm s) p q)
                 arrived (ready_queue s)
  /\ Permutation (ready_queue s') (arrived ++ ready_queue s)
  /\ exists new,
       events s' = events s ++ new
       /\ map event_view new
          = map (fun p => ("arrival", Some (pid p), clock s, map pid (ready_queue s')))
                arrived.
Proof.
  intros due arrived s'. unfold s', admit_arrivals.
  pose proof (admit_loop_spec (future_processes s) [] [] s eq_refl
                (Forall_nil_2 _)) as Hloop.
  pose proof (admit_loop_frame (future_processes s) [] s) as Hframe.
  destruct (admit_loop (future_processes s) [] s) as [arrivals s1].
  simpl in Hloop, Hframe. fold due in Hloop. fold arrived in Hloop.
  destruct Hloop as (Ha & Hf & Hr & He).
  destruct Hframe as (_ & _ & _ & Hclock & _).
  destruct (record_arrivals_events arrivals s1) as (Hr' & Hf' & new & He' & Hv).
  assert (Hfut : future_processes (fold_left record_arrival arrivals s1)
                 = List.filter (fun p => negb (due p)) (future_processes s))
    by (rewrite Hf', Hf; reflexivity).
  split; [exact Hfut|]. split.
  - rewrite Hfut. apply Forall_forall. intros p Hp.
    apply list_elem_of_In, filter_In in Hp as [_ Hp].
    unfold due in Hp. apply Bool.negb_true_iff, Z.leb_gt in Hp. exact Hp.
  - split; [rewrite Hr', Hr; reflexivity|]. split.
    + rewrite Hr', Hr. apply fold_insert_permutation.
    + exists new. split; [rewrite He', He; reflexivity|].
      rewrite Hv, Hr', Hclock, Ha. reflexivity.
Qed.

Example arrivals_state_admits :
  map pid (future_processes arrivals_state) = ["c"; "a"; "b"]
  /\ map pid (future_processes (admit_arrivals arrivals_state)) = ["b"]
  /\ map pid (ready_queue (admit_arrivals arrivals_state)) = ["c"; "a"].
Proof. vm_compute. repeat split; reflexivity. Qed.

(** ** What a tick keeps *)

Lemma map_lookup {A B : Type} (f : A -> B) (l : list A) (i : nat) :
  map f l !! i = option_map f (l !! i).
Proof.
  revert i. induction l as [|x l IH]; intros [|i]; simpl; try reflexivity.
  apply IH.
Qed.

Lemma map_insert_same {A B : Type} (f : A -> B) (l : list A) (i : nat) (x : A) :
  map f l !! i = Some (f x) -> map f (<[i := x]> l) = map f l.
Proof.
  revert i. induction l as [|y l IH]; intros [|i]; simpl; try discriminate.
  - intros [= ->]. reflexivity.
  - intros H. rewrite (IH i H). reflexivity.
Qed.

Lemma progress_refl (s : Scheduler) : progress s s.
Proof.
  constructor; try reflexivity.
  - exists []. rewrite app_nil_r. split; [reflexivity|constructor].
  - exists []. rewrite app_nil_r. reflexivity.
Qed.

Lemma map_length_eq {A B : Type} (f : A -> B) (l1 l2 : list A) :
  map f l1 = map f l2 -> length l1 = length l2.
Proof. intros H. rewrite <- (length_map f l1), H. apply length_map. Qed.

Lemma progress_record (s0 s : Scheduler) (event event_type : string)
    (proc device : option string) :
  progress s0 s -> progress s0 (_record event event_type proc device s).
Proof.
  intros [H1 H2 H3 H4 (new & H5 & H6) H7].
  constructor; try assumption.
  eexists (new ++ [_]). split.
  - cbn. rewrite H5, <- app_assoc. reflexivity.
  - apply Forall_app. split; [exact H6|].
    apply Forall_cons_2; [|apply Forall_nil_2].
    unfold logged_at. cbn. rewrite !length_map.
    split; [exact H1|].
    split; [apply (map_length_eq cid), H3|apply (map_length_eq did), H4].
Qed.

Lemma progress_set_ready_queue (s0 s : Scheduler) (q : list Process) :
  progress s0 s -> progress s0 (set_ready_queue q s).
Proof. intros [H1 H2 H3 H4 H5 H6]. constructor; assumption. Qed.

Lemma progress_set_wait_queue (s0 s : Scheduler) (q : list Process) :
  progress s0 s -> progress s0 (set_wait_queue q s).
Proof. intros [H1 H2 H3 H4 H5 H6]. constructor; assumption. Qed.

Lemma progress_set_future (s0 s : Scheduler) (q : list Process) :
  progress s0 s -> progress s0 (set_future_processes q s).
Proof. intros [H1 H2 H3 H4 H5 H6]. constructor; assumption. Qed.

Lemma progress_finish (s0 s : Scheduler) (p : Process) :
  progress s0 s -> progress s0 (set_finished (finished s ++ [p]) s).
Proof.
  intros [H1 H2 H3 H4 H5 (more & H6)]. constructor; try assumption.
  exists (more ++ [p]). cbn. rewrite H6, <- app_assoc. reflexivity.
Qed.

Lemma progress_set_cpu (s0 s : Scheduler) (i : nat) (c : CPU) :
  progress s0 s -> map cid (cpus s0) !! i = Some (cid c) ->
  progress s0 (set_cpu i c s).
Proof.
  intros [H1 H2 H3 H4 H5 H6] Hc. constructor; try assumption.
  cbn. rewrite map_insert_same; [assumption|]. rewrite H3. exact Hc.
Qed.

Lemma progress_set_io_device (s0 s : Scheduler) (j : nat) (d : IODevice) :
  progress s0 s -> map did (io_devices s0) !! j = Some (did d) ->
  progress s0 (set_io_device j d s).
Proof.
  intros [H1 H2 H3 H4 H5 H6] Hd. constructor; try assumption.
  cbn. rewrite map_insert_same; [assumption|]. rewrite H4. exact Hd.
Qed.

Lemma progress_admit_loop (s0 : Scheduler) (copy : list Process) :
  forall arrivals s, progress s0 s -> progress s0 (snd (admit_loop copy arrivals s)).
Proof.
  induction copy as [|p copy IH]; intros arrivals s Hs; simpl; [exact Hs|].
  destruct (arrival_time p <=? clock s); apply IH; [|exact Hs].
  apply progress_set_future, progress_set_ready_queue, Hs.
Qed.

Lemma progress_admit_arrivals (s0 s : Scheduler) :
  progress s0 s -> progress s0 (admit_arrivals s).
Proof.
  intros Hs. unfold admit_arrivals.
  pose proof (progress_admit_loop s0 (future_processes s) [] s Hs) as H.
  destruct (admit_loop (future_processes s) [] s) as [arrivals s1]. simpl in H.
  revert s1 H. induction arrivals as [|p arrivals IH]; intros s1 H; simpl; [exact H|].
  apply IH. apply progress_record, H.
Qed.

Lemma progress_rr_quantum (s0 s : Scheduler) (i : nat) (cpu : CPU) (cur : Process) :
  progress s0 s -> map cid (cpus s0) !! i = Some (cid cpu) ->
  progress s0 (rr_quantum i cpu cur s).
Proof.
  intros Hs Hc. unfold rr_quantum. destruct (_ && _).
  - apply progress_record, progress_set_ready_queue, progress_set_cpu; assumption.
  - apply progress_set_cpu; assumption.
Qed.

Lemma progress_preempt (s0 s : Scheduler) (i : nat) (cpu : CPU)
    (cur best : Process) (label : string) :
  progress s0 s -> map cid (cpus s0) !! i = Some (cid cpu) ->
  progress s0 (preempt i cpu cur best label s).
Proof.
  intros Hs Hc. unfold preempt.
  destruct (_select_process_for_cpu _ _) as [[new_proc|] queue];
    apply progress_record, progress_set_cpu; try exact Hc;
    apply progress_set_ready_queue, progress_set_ready_queue, Hs.
Qed.

Lemma progress_preemptive (s0 s : Scheduler) (i : nat) (cpu : CPU) (cur : Process) :
  progress s0 s -> map cid (cpus s0) !! i = Some (cid cpu) ->
  progress s0 (preemptive i cpu cur s).
Proof.
  intros Hs Hc. unfold preemptive.
  destruct (ready_queue s); [exact Hs|].
  destruct (algorithm s); try exact Hs;
    destruct (_ <? _); try exact Hs; apply progress_preempt; assumption.
Qed.

Lemma progress_cpu_completion (s0 s : Scheduler) (cpu : CPU) (proc : Process) :
  progress s0 s -> progress s0 (cpu_completion cpu proc s).
Proof.
  intros Hs. unfold cpu_completion.
  destruct (current_burst proc) as [[n|ty d]|]; apply progress_record.
  - apply progress_set_ready_queue, Hs.
  - apply progress_set_wait_queue, Hs.
  - apply progress_finish, Hs.
Qed.

Lemma progress_step_cpu (s0 s : Scheduler) (i : nat) :
  progress s0 s -> progress s0 (step_cpu i s).
Proof.
  intros Hs. unfold step_cpu.
  destruct (cpus s !! i) as [c|] eqn:Ec; [|exact Hs].
  pose proof (cpu_tick_cid c) as Hcid.
  destruct (cpu_tick c) as [cpu proc]. simpl in Hcid.
  assert (Hc : map cid (cpus s0) !! i = Some (cid cpu)).
  { rewrite <- (pr_cids _ _ Hs), map_lookup, Ec, Hcid. reflexivity. }
  assert (H1 : progress s0 (set_cpu i cpu s)) by (apply progress_set_cpu; assumption).
  assert (H2 : progress s0
                 match cpu_current cpu with
                 | Some cur =>
                     match algorithm (set_cpu i cpu s) with
                     | RR => rr_quantum i cpu cur (set_cpu i cpu s)
                     | _ => preemptive i cpu cur (set_cpu i cpu s)
                     end
                 | None => set_cpu i cpu s
                 end).
  { destruct (cpu_current cpu) as [cur|]; [|exact H1].
    destruct (algorithm (set_cpu i cpu s));
      first [apply progress_rr_quantum | apply progress_preemptive]; assumption. }
  destruct proc; [apply progress_cpu_completion|]; exact H2.
Qed.

Lemma io_tick_did (d : IODevice) : did (fst (io_tick d)) = did d.
Proof.
  unfold io_tick. destruct (io_current d) as [p|]; [|reflexivity].
  destruct (current_burst p) as [[n|ty n]|]; try reflexivity.
  destruct (n - 1 =? 0); reflexivity.
Qed.

Lemma progress_step_io (s0 s : Scheduler) (j : nat) :
  progress s0 s -> progress s0 (step_io j s).
Proof.
  intros Hs. unfold step_io.
  destruct (io_devices s !! j) as [d|] eqn:Ed; [|exact Hs].
  pose proof (io_tick_did d) as Hdid.
  destruct (io_tick d) as [dev proc]. simpl in Hdid.
  assert (H1 : progress s0 (set_io_device j dev s)).
  { apply progress_set_io_device; [exact Hs|].
    rewrite <- (pr_dids _ _ Hs), map_lookup, Ed, Hdid. reflexivity. }
  destruct proc as [proc|]; [|exact H1].
  unfold io_completion. destruct (current_burst proc); apply progress_record.
  - apply progress_set_ready_queue, H1.
  - apply progress_finish, H1.
Qed.

Lemma progress_dispatch_cpu (s0 s : Scheduler) (i : nat) :
  progress s0 s -> progress s0 (dispatch_cpu i s).
Proof.
  intros Hs. unfold dispatch_cpu.
  destruct (cpus s !! i) as [cpu|] eqn:Ec; [|exact Hs].
  destruct (negb (cpu_is_busy cpu)); [|exact Hs].
  destruct (_select_process_for_cpu _ _) as [[proc|] queue]; [|exact Hs].
  apply progress_record, progress_set_cpu; [apply progress_set_ready_queue, Hs|].
  rewrite <- (pr_cids _ _ Hs), map_lookup, Ec. reflexivity.
Qed.

Lemma progress_dispatch_io (s0 s : Scheduler) (j : nat) :
  progress s0 s -> progress s0 (dispatch_io j s).
Proof.
  intros Hs. unfold dispatch_io.
  destruct (io_devices s !! j) as [dev|] eqn:Ed; [|exact Hs].
  destruct (negb (io_is_busy dev)); [|exact Hs].
  destruct (wait_queue s) as [|proc queue]; [exact Hs|].
  apply progress_record, progress_set_io_device; [apply progress_set_wait_queue, Hs|].
  rewrite <- (pr_dids _ _ Hs), map_lookup, Ed. reflexivity.
Qed.

Lemma progress_step (s : Scheduler) :
  progress s (dispatch_ios (dispatch_cpus (tick_ios (tick_cpus (admit_arrivals s))))).
Proof.
  unfold dispatch_ios, dispatch_cpus, tick_ios, tick_cpus.
  apply for_each_preserves; [intros; apply progress_dispatch_io; assumption|].
  apply for_each_preserves; [intros; apply progress_dispatch_cpu; assumption|].
  apply for_each_preserves; [intros; apply progress_step_io; assumption|].
  apply for_each_preserves; [intros; apply progress_step_cpu; assumption|].
  apply progress_admit_arrivals, progress_refl.
Qed.

(** X5.  One call of [step] advances the clock by exactly one and leaves
    the policy and the two pools as they are (same number of CPUs and
    devices, same ids).  The log is append-only: the events of the step
    come after the old ones, each stamped with the clock value at which
    the step began and carrying one snapshot entry per CPU and per device.
    The finished list only grows at its end. *)
Theorem step_frame (s : Scheduler) :
  clock (step s) = clock s + 1
  /\ algorithm (step s) = algorithm s
  /\ map cid (cpus (step s)) = map cid (cpus s)
  /\ map did (io_devices (step s)) = map did (io_devices s)
  /\ (exists new, events (step s) = events s ++ new /\ Forall (logged_at s) new)
  /\ (exists more, finished (step s) = finished s ++ more).
Proof.
  destruct (progress_step s) as [H1 H2 H3 H4 H5 H6].
  unfold step. cbn. rewrite H1. repeat split; assumption.
Qed.

Lemma ascending_app_const {A : Type} (key : A -> Z) (c : Z) (l new : list A) :
  ascending key l -> Forall (fun e => key e <= c) l ->
  Forall (fun e => key e = c) new ->
  ascending key (l ++ new).
Proof.
  intros Hl Hle Hnew. induction l as [|x l IH]; simpl.
  - induction Hnew as [|y new Hy Hnew IHnew]; simpl; [exact I|].
    split; [|exact IHnew].
    eapply Forall_impl; [exact Hnew|]. intros z Hz. simpl in Hz. lia.
  - destruct Hl as [Hx Hl]. apply Forall_cons_1 in Hle as [Hxc Hle].
    split; [|apply IH; assumption].
    apply Forall_app. split; [exact Hx|].
    eapply Forall_impl; [exact Hnew|]. intros z Hz. simpl in Hz. lia.
Qed.

Lemma log_ordered_step (s : Scheduler) : log_ordered s -> log_ordered (step s).
Proof.
  intros [Hasc Hle].
  destruct (step_frame s) as (Hclock & _ & _ & _ & (new & Hev & Hnew) & _).
  assert (Htimes : Forall (fun e => ev_time e = clock s) new).
  { eapply Forall_impl; [exact Hnew|]. intros e He. apply He. }
  unfold log_ordered. rewrite Hev, Hclock. split.
  - apply (ascending_app_const ev_time (clock s)); assumption.
  - apply Forall_app. split.
    + eapply Forall_impl; [exact Hle|]. intros e He. simpl in He. lia.
    + eapply Forall_impl; [exact Htimes|]. intros e He. simpl in He. lia.
Qed.

Lemma log_ordered_add_process (p : Process) (s : Scheduler) :
  log_ordered s -> log_ordered (add_process p s).
Proof.
  intros [Hasc Hle]. unfold add_process.
  destruct (arrival_time p <=? clock s); [|split; assumption].
  unfold log_ordered. cbn. split.
  - apply (ascending_app_const ev_time (clock s)); try assumption.
    apply Forall_cons_2; [reflexivity|apply Forall_nil_2].
  - apply Forall_app. split; [exact Hle|].
    apply Forall_cons_2; [cbn; lia|apply Forall_nil_2].
Qed.

(** X6.  In every state the driver reaches (a fresh scheduler, any
    processes added, any number of steps) the event log is in
    non-decreasing order of time and no event is stamped later than the
    clock. *)
Theorem log_is_ordered (num_cpus num_ios : nat) (alg : Algorithm)
    (processes : list Process) (n : nat) :
  log_ordered (steps n (setup num_cpus num_ios alg processes)).
Proof.
  assert (Hsetup : log_ordered (setup num_cpus num_ios alg processes)).
  { unfold setup.
    assert (H : log_ordered (init num_cpus num_ios alg))
      by (split; [exact I|constructor]).
    revert H. generalize (init num_cpus num_ios alg).
    induction processes as [|p ps IH]; intros s Hs; simpl; [exact Hs|].
    apply IH, log_ordered_add_process, Hs. }
  revert Hsetup. generalize (setup num_cpus num_ios alg processes).
  induction n as [|n IH]; intros s Hs; simpl; [exact Hs|].
  apply IH, log_ordered_step, Hs.
Qed.

(** ** When [run] returns *)

Lemma run_condition_false (s : Scheduler) :
  run_condition s = false ->
  ready_queue s = [] /\ wait_queue s = []
  /\ Forall (fun c => cpu_current c = None) (cpus s)
  /\ Forall (fun d => io_current d = None) (io_devices s).
Proof.
  unfold run_condition.
  destruct (ready_queue s); [|discriminate].
  destruct (wait_queue s); [|discriminate].
  intros H. apply Bool.orb_false_iff in H as [Hc Hd].
  split; [reflexivity|]. split; [reflexivity|]. split.
  - apply Forall_forall. intros c Hin. apply list_elem_of_In in Hin.
    destruct (cpu_current c) eqn:E; [|reflexivity].
    assert (existsb cpu_is_busy (cpus s) = true); [|congruence].
    apply existsb_exists. exists c. split; [exact Hin|].
    unfold cpu_is_busy. rewrite E. reflexivity.
  - apply Forall_forall. intros d Hin. apply list_elem_of_In in Hin.
    destruct (io_current d) eqn:E; [|reflexivity].
    assert (existsb io_is_busy (io_devices s) = true); [|congruence].
    apply existsb_exists. exists d. split; [exact Hin|].
    unfold io_is_busy. rewrite E. reflexivity.
Qed.

Lemma run_is_steps (fuel : nat) :
  forall s r,
    run fuel s = Some r ->
    exists k, (k <= fuel)%nat /\ r = steps k s
              /\ forall j, (j < k)%nat -> run_condition (steps j s) = true.
Proof.
  induction fuel as [|fuel IH]; intros s r H; cbn [run] in H.
  - destruct (run_condition s); [discriminate|]. injection H as <-.
    exists 0%nat. split; [lia|]. split; [reflexivity|]. intros j Hj. lia.
  - destruct (run_condition s) eqn:E.
    + destruct (IH _ _ H) as (k & Hk & Hr & Hbusy).
      exists (S k). split; [lia|]. split; [exact Hr|].
      intros [|j] Hj; [exact E|]. apply Hbusy. lia.
    + injection H as <-.
      exists 0%nat. split; [lia|]. split; [reflexivity|]. intros j Hj. lia.
Qed.

(** X7.  [run] calls [step] as long as the ready queue or the wait queue
    is non-empty or a CPU or a device is busy, and no longer: when it
    returns, the state is the one after the first number of steps at which
    both queues are empty and every CPU and every I/O device is idle. *)
Theorem run_stops_at_first_idle (fuel : nat) (s r : Scheduler) :
  run fuel s = Some r ->
  ready_queue r = [] /\ wait_queue r = []
  /\ Forall (fun c => cpu_current c = None) (cpus r)
  /\ Forall (fun d => io_current d = None) (io_devices r)
  /\ exists k, (k <= fuel)%nat /\ r = steps k s
               /\ forall j, (j < k)%nat -> run_condition (steps j s) = true.
Proof.
  intros H.
  destruct (run_condition_false r (run_returns_idle fuel s r H))
    as (H1 & H2 & H3 & H4).
  repeat (split; [assumption|]). apply (run_is_steps fuel s r H).
Qed.

Lemma run_stops_at_first_idle_witness :
  run 6 S1 = Some (steps 6 S1) /\ ready_queue (steps 6 S1) = [].
Proof.
  assert (H : run 6 S1 = Some (steps 6 S1)) by (vm_compute; reflexivity).
  split; [exact H|].
  destruct (run_stops_at_first_idle 6 S1 (steps 6 S1) H) as (H1 & _). exact H1.
Defined.

(** ** Loading a workload file *)

Lemma load_bursts_complete (bs : list Loader.JBurst) :
  forall acc,
    forallb burst_complete bs = true ->
    Loader.load_bursts bs acc = Loader.Return (acc ++ flat_map translate_burst bs).
Proof.
  induction bs as [|b bs IH]; intros acc H; simpl.
  - rewrite app_nil_r. reflexivity.
  - simpl in H. apply Bool.andb_true_iff in H as [Hb Hbs].
    destruct b as [n|[ty|] [d|]|]; try discriminate; simpl.
    + rewrite (IH _ Hbs), <- app_assoc. reflexivity.
    + rewrite (IH _ Hbs), <- app_assoc. reflexivity.
    + apply IH, Hbs.
Qed.



Lemma load_record_complete (p : Loader.JRecord) :
  record_complete p = true -> Loader.load_record p = Loader.Return (translate_record p).
Proof.
  unfold record_complete, Loader.load_record, translate_record.
  destruct (Loader.j_pid p) as [id|]; [|discriminate].
  destruct (Loader.j_bursts p) as [bs|]; [|discriminate].
  intros H. rewrite (load_bursts_complete bs [] H). reflexivity.
Qed.


Lemma load_records_complete (data : list Loader.JRecord) :
  forall acc,
    Forall (fun p => record_complete p = true) data ->
    Loader.load_records data acc = Loader.Return (acc ++ map translate_record data).
Proof.
  induction data as [|p data IH]; intros acc H; simpl.
  - rewrite app_nil_r. reflexivity.
  - apply Forall_cons_1 in H as [Hp Hdata].
    rewrite (load_record_complete p Hp), (IH _ Hdata), <- app_assoc. reflexivity.
Qed.


(** The records the loader looks at: [data[:limit]] after the cap. *)
Lemma loader_slice (data : list Loader.JRecord) (limit : option Z) :
  Loader.slice_to
    match limit with
    | None => Z.of_nat (length data)
    | Some l => if Z.of_nat (length data) <? l then Z.of_nat (length data) else l
    end data
  = take (loaded_count limit (length data)) data.
Proof.
  unfold Loader.slice_to, loaded_count. destruct limit as [l|].
  - destruct (Z.ltb_spec (Z.of_nat (length data)) l).
    + destruct (Z.ltb_spec (Z.of_nat (length data)) 0); [lia|].
      rewrite Nat2Z.id. reflexivity.
    + destruct (l <? 0); reflexivity.
  - destruct (Z.ltb_spec (Z.of_nat (length data)) 0); [lia|].
    rewrite Nat2Z.id. reflexivity.
Qed.

(** X8.  [load_processes_from_json] validates nothing.  When every record
    among the first [limit] of the file (all of them when [limit] is
    absent or too large, all but the last [-limit] when it is negative)
    has its ["pid"] and ["bursts"] keys and complete I/O bursts, the
    loader prints nothing and returns one process per record, in file
    order: the bursts are copied as they are, whatever their durations and
    even when there are none, entries with neither ["cpu"] nor ["io"] are
    skipped, and an absent priority, quantum or arrival time becomes 0, 4
    or 0. *)
Theorem load_keeps_every_record (filename : string)
    (data : list Loader.JRecord) (limit : option Z) :
  let slice := take (loaded_count limit (length data)) data in
  Forall (fun p => record_complete p = true) slice ->
  Loader.load_processes_from_json filename (Some data) limit
  = ([], Loader.Return (map translate_record slice))
  /\ length (map translate_record slice)
     = Nat.min (loaded_count limit (length data)) (length data).
Proof.
  intros slice Hall. split.
  - unfold Loader.load_processes_from_json. rewrite loader_slice.
    fold slice. rewrite (load_records_complete slice [] Hall). reflexivity.
  - rewrite length_map. unfold slice. apply length_take.
Qed.

Lemma load_keeps_every_record_witness :
  Forall (fun p => record_complete p = true)
         (take (loaded_count None (length odd_workload)) odd_workload)
  /\ Loader.load_processes_from_json "jobs.json" (Some odd_workload) None
     = ([], Loader.Return
              (map translate_record
                   (take (loaded_count None (length odd_workload)) odd_workload)))
  /\ map bursts
         (map translate_record
              (take (loaded_count None (length odd_workload)) odd_workload))
     = [[CpuBurst (-3)]; []; [CpuBurst 2]].
Proof.
  assert (H : Forall (fun p => record_complete p = true)
                     (take (loaded_count None (length odd_workload)) odd_workload)).
  { repeat constructor. }
  split; [exact H|]. split; [|reflexivity].
  destruct (load_keeps_every_record "jobs.json" odd_workload None H) as [H1 _].
  exact H1.
Defined.



(** ** The workload generator *)














Lemma bisect_le (cum : list Q) (x : Q) (hi : nat) : (Generator.bisect cum x hi <= hi)%nat.
Proof.
  revert cum. induction hi as [|hi IH]; intros [|c cum]; simpl; try lia.
  destruct (Qle_bool c x); [|lia]. specialize (IH cum). lia.
Qed.


















(** ** Well-formed workloads *)

Lemma pending_lookup (p : Process) (b : Burst) (rest : list Burst) :
  pending p = b :: rest ->
  current_burst p = Some b /\ drop (S (cursor p)) (bursts p) = rest.
Proof.
  unfold pending, current_burst. intros H.
  assert (Hb : bursts p !! cursor p = Some b).
  { rewrite <- (Nat.add_0_r (cursor p)), <- lookup_drop, H. reflexivity. }
  split; [exact Hb|].
  rewrite (drop_S _ _ _ Hb) in H. congruence.
Qed.

Lemma pending_tick (p : Process) (b b' : Burst) (rest : list Burst) :
  pending p = b :: rest ->
  pending (set_bursts (<[cursor p := b']> (bursts p)) p) = b' :: rest
  /\ pending (advance_burst (set_bursts (<[cursor p := b']> (bursts p)) p)) = rest.
Proof.
  intros H. destruct (pending_lookup p b rest H) as [Hb Hrest].
  unfold pending, current_burst in *. simpl.
  assert (Hlt : (cursor p < length (bursts p))%nat) by (eapply lookup_lt_Some, Hb).
  split.
  - rewrite drop_insert_ge by lia. rewrite Nat.sub_diag, H. reflexivity.
  - rewrite drop_insert_lt by lia. exact Hrest.
Qed.

Lemma pending_nil (p : Process) : current_burst p = None -> pending p = [].
Proof.
  unfold pending, current_burst. intros H. apply lookup_ge_None in H.
  apply drop_ge. exact H.
Qed.

Lemma pending_cons (p : Process) (b : Burst) :
  current_burst p = Some b -> exists rest, pending p = b :: rest.
Proof.
  unfold pending, current_burst. intros H.
  exists (drop (S (cursor p)) (bursts p)). apply drop_S, H.
Qed.

(** What a CPU tick makes of a process that is ready for the CPU. *)
Lemma cpu_tick_ready (c : CPU) (p : Process) :
  cpu_current c = Some p -> cpu_ready p ->
  (exists p', cpu_tick c = (mkCPU (cid c) (Some p'), None)
              /\ cpu_ready p'
              /\ remaining_quantum p' = remaining_quantum p
              /\ quantum p' = quantum p /\ pid p' = pid p)
  \/ (exists p', cpu_tick c = (mkCPU (cid c) None, Some p')
                 /\ slice_ok p' /\ alternating true (pending p')
                 /\ remaining_quantum p' = remaining_quantum p
                 /\ quantum p' = quantum p /\ pid p' = pid p).
Proof.
  intros Hc [Hs Hp]. unfold cpu_tick. rewrite Hc.
  destruct (pending p) as [|[n|ty d] rest] eqn:Hpend; try contradiction.
  destruct Hp as [Hn Hrest].
  destruct (pending_lookup _ _ _ Hpend) as [Hb _]. rewrite Hb.
  destruct (pending_tick p _ (CpuBurst (n - 1)) _ Hpend) as [H1 H2].
  destruct (Z.eqb_spec (n - 1) 0) as [Hz|Hnz].
  - right. eexists. split; [reflexivity|].
    split; [exact Hs|]. split; [rewrite H2; exact Hrest|]. repeat split.
  - left. eexists. split; [reflexivity|].
    split; [|repeat split]. split; [exact Hs|]. rewrite H1. split; [lia|exact Hrest].
Qed.

Lemma io_tick_ready (d : IODevice) (p : Process) :
  io_current d = Some p -> io_ready p ->
  (exists p', io_tick d = (mkIODevice (did d) (Some p'), None) /\ io_ready p')
  \/ (exists p', io_tick d = (mkIODevice (did d) None, Some p')
                 /\ slice_ok p' /\ alternating false (pending p')).
Proof.
  intros Hc [Hs Hp]. unfold io_tick. rewrite Hc.
  destruct (pending p) as [|[n|ty n] rest] eqn:Hpend; try contradiction.
  destruct Hp as [Hn Hrest].
  destruct (pending_lookup _ _ _ Hpend) as [Hb _]. rewrite Hb.
  destruct (pending_tick p _ (IoBurst ty (n - 1)) _ Hpend) as [H1 H2].
  destruct (Z.eqb_spec (n - 1) 0) as [Hz|Hnz].
  - right. eexists. split; [reflexivity|].
    split; [exact Hs|]. rewrite H2; exact Hrest.
  - left. eexists. split; [reflexivity|].
    split; [exact Hs|]. rewrite H1. split; [lia|exact Hrest].
Qed.

Lemma alternating_sum_cpu (a : bool) (bs : list Burst) :
  alternating a bs -> 0 <= sum_cpu bs.
Proof.
  revert a. induction bs as [|[n|ty d] bs IH]; simpl; intros a H; [lia| |].
  - destruct H as [Hn H]. specialize (IH _ H). lia.
  - destruct H as (_ & _ & H). specialize (IH _ H). lia.
Qed.

Lemma cpu_ready_work (p : Process) : cpu_ready p -> 0 < remaining_burst_time p.
Proof.
  intros [_ H]. unfold remaining_burst_time. fold (pending p).
  destruct (pending p) as [|[n|ty d] rest]; try contradiction.
  destruct H as [Hn H]. apply alternating_sum_cpu in H. simpl. lia.
Qed.

Lemma select_permutation (alg : Algorithm) (queue queue' : list Process) (p : Process) :
  _select_process_for_cpu alg queue = (Some p, queue') ->
  Permutation queue (p :: queue').
Proof.
  destruct queue as [|x rest]; [discriminate|].
  destruct alg; cbn [_select_process_for_cpu]; intros [= <- <-];
    first [reflexivity | apply remove_first_permutation, min_by_member].
Qed.

Lemma select_none (alg : Algorithm) (queue queue' : list Process) :
  _select_process_for_cpu alg queue = (None, queue') -> queue = [] /\ queue' = [].
Proof.
  destruct queue as [|x rest]; [intros [= <-]; split; reflexivity|].
  destruct alg; discriminate.
Qed.

Lemma remove_first_Forall (P : Process -> Prop) (x : Process) (l : list Process) :
  Forall P l -> Forall P (remove_first x l).
Proof.
  induction l as [|y l IH]; simpl; intros H; [exact H|].
  apply Forall_cons_1 in H as [Hy Hl].
  destruct (decide (y = x)); [exact Hl|]. apply Forall_cons_2; [exact Hy|apply IH, Hl].
Qed.

Lemma wf_insert_ready (p : Process) (s : Scheduler) :
  well_formed s -> cpu_ready p ->
  well_formed
    (set_ready_queue (_insert_into_ready_queue (algorithm s) p (ready_queue s)) s).
Proof.
  intros [Hr Hf Hw Hc Hi Hd] Hp. constructor; simpl; try assumption.
  rewrite insert_permutation. apply Forall_cons_2; assumption.
Qed.

Lemma wf_select (s : Scheduler) (p : Process) (queue : list Process) :
  well_formed s ->
  _select_process_for_cpu (algorithm s) (ready_queue s) = (Some p, queue) ->
  cpu_ready p /\ well_formed (set_ready_queue queue s).
Proof.
  intros [Hr Hf Hw Hc Hi Hd] Hsel. apply select_permutation in Hsel.
  rewrite Hsel in Hr. apply Forall_cons_1 in Hr as [Hp Hq].
  split; [exact Hp|]. constructor; simpl; assumption.
Qed.

Lemma wf_set_cpu (i : nat) (c : CPU) (s : Scheduler) :
  well_formed s -> (forall p, cpu_current c = Some p -> cpu_ready p) ->
  well_formed (set_cpu i c s).
Proof.
  intros [Hr Hf Hw Hc Hi Hd] Hp. constructor; simpl; try assumption.
  apply Forall_insert; assumption.
Qed.

Lemma wf_set_io_device (j : nat) (d : IODevice) (s : Scheduler) :
  well_formed s -> (forall p, io_current d = Some p -> io_ready p) ->
  well_formed (set_io_device j d s).
Proof.
  intros [Hr Hf Hw Hc Hi Hd] Hp. constructor; simpl; try assumption.
  apply Forall_insert; assumption.
Qed.

Lemma wf_cpu_lookup (s : Scheduler) (i : nat) (c : CPU) (p : Process) :
  well_formed s -> cpus s !! i = Some c -> cpu_current c = Some p -> cpu_ready p.
Proof.
  intros [_ _ _ Hc _ _] Hi Hp.
  apply (Forall_lookup_1 _ _ _ _ Hc Hi), Hp.
Qed.

Lemma wf_io_lookup (s : Scheduler) (j : nat) (d : IODevice) (p : Process) :
  well_formed s -> io_devices s !! j = Some d -> io_current d = Some p -> io_ready p.
Proof.
  intros [_ _ _ _ Hi _] Hj Hp.
  apply (Forall_lookup_1 _ _ _ _ Hi Hj), Hp.
Qed.

Lemma admit_loop_wf (copy : list Process) :
  forall arrivals s,
    Forall cpu_ready copy -> well_formed s ->
    well_formed (snd (admit_loop copy arrivals s)).
Proof.
  induction copy as [|p copy IH]; intros arrivals s Hcopy Hs; simpl; [exact Hs|].
  apply Forall_cons_1 in Hcopy as [Hp Hcopy].
  destruct (arrival_time p <=? clock s); [|apply IH; assumption].
  apply IH; [exact Hcopy|].
  pose proof (wf_insert_ready (set_state Ready p) s Hs Hp) as [Hr Hf Hw Hc Hi Hd].
  constructor; simpl; try assumption.
  apply remove_first_Forall. exact Hf.
Qed.

Lemma record_arrivals_wf (arrivals : list Process) :
  forall s, well_formed s -> well_formed (fold_left record_arrival arrivals s).
Proof.
  induction arrivals as [|p arrivals IH]; intros s Hs; simpl; [exact Hs|].
  apply IH. destruct Hs. constructor; assumption.
Qed.

Lemma admit_arrivals_wf (s : Scheduler) :
  well_formed s -> well_formed (admit_arrivals s).
Proof.
  intros Hs. unfold admit_arrivals.
  pose proof (admit_loop_wf (future_processes s) [] s (wf_future s Hs) Hs) as H.
  destruct (admit_loop (future_processes s) [] s) as [arrivals s'].
  apply record_arrivals_wf, H.
Qed.

Lemma wf_record (event event_type : string) (proc device : option string)
    (s : Scheduler) :
  well_formed s -> well_formed (_record event event_type proc device s).
Proof. intros []. constructor; assumption. Qed.

Lemma rr_quantum_wf (i : nat) (cpu : CPU) (cur : Process) (s : Scheduler) :
  well_formed s -> cpu_ready cur -> well_formed (rr_quantum i cpu cur s).
Proof.
  intros Hs Hcur. unfold rr_quantum.
  pose proof (cpu_ready_work cur Hcur) as Hwork.
  destruct Hcur as [Hslice Hpend].
  change (remaining_burst_time (set_remaining_quantum _ cur))
    with (remaining_burst_time cur).
  cbn [remaining_quantum set_remaining_quantum].
  destruct (Z.leb_spec (remaining_quantum cur - 1) 0) as [Hle|Hgt]; simpl.
  - destruct (Z.gtb_spec (remaining_burst_time cur) 0) as [_|Hno]; [|lia].
    apply wf_record.
    apply (wf_insert_ready _ (set_cpu i (mkCPU (cid cpu) None) s)).
    + apply wf_set_cpu; [exact Hs|]. discriminate.
    + split; [|exact Hpend]. unfold slice_ok in *. simpl. lia.
  - apply wf_set_cpu; [exact Hs|]. intros p [= <-].
    split; [|exact Hpend]. unfold slice_ok in *. simpl. lia.
Qed.

Lemma preempt_wf (i : nat) (cpu : CPU) (cur best : Process) (label : string)
    (s : Scheduler) :
  well_formed s -> cpu_ready cur -> well_formed (preempt i cpu cur best label s).
Proof.
  intros Hs Hcur. unfold preempt.
  pose proof (wf_insert_ready (set_state Ready cur) s Hs Hcur) as H1.
  set (s1 := set_ready_queue _ s) in *.
  destruct (_select_process_for_cpu (algorithm s1) (ready_queue s1))
    as [[new_proc|] queue] eqn:Hsel.
  - destruct (wf_select s1 new_proc queue H1 Hsel) as [Hnew H2].
    apply wf_record, wf_set_cpu; [exact H2|]. intros p [= <-]. exact Hnew.
  - apply select_none in Hsel as [_ ->].
    apply wf_record, wf_set_cpu; [|discriminate].
    destruct H1. constructor; simpl; try assumption. constructor.
Qed.

Lemma preemptive_wf (i : nat) (cpu : CPU) (cur : Process) (s : Scheduler) :
  well_formed s -> cpu_ready cur -> well_formed (preemptive i cpu cur s).
Proof.
  intros Hs Hcur. unfold preemptive.
  destruct (ready_queue s) as [|x rest]; [exact Hs|].
  destruct (algorithm s); try exact Hs.
  - destruct (_ <? _); [apply preempt_wf; assumption|exact Hs].
  - destruct (_ <? _); [apply preempt_wf; assumption|exact Hs].
Qed.

Lemma cpu_completion_wf (cpu : CPU) (proc : Process) (s : Scheduler) :
  well_formed s -> slice_ok proc -> alternating true (pending proc) ->
  well_formed (cpu_completion cpu proc s).
Proof.
  intros Hs Hslice Hpend. unfold cpu_completion.
  destruct (current_burst proc) as [b|] eqn:Hb.
  - destruct (pending_cons _ _ Hb) as [rest Hrest]. rewrite Hrest in Hpend.
    destruct b as [n|ty d].
    + apply wf_record, wf_insert_ready; [exact Hs|].
      split; [exact Hslice|]. change (pending (set_state Ready proc)) with (pending proc).
      rewrite Hrest. exact Hpend.
    + apply wf_record. destruct Hs as [Hr Hf Hw Hc Hi Hd].
      constructor; simpl; try assumption.
      apply Forall_app. split; [exact Hw|]. apply Forall_cons_2; [|constructor].
      split; [exact Hslice|]. change (pending (set_state Waiting proc)) with (pending proc).
      rewrite Hrest. simpl in Hpend. tauto.
  - apply wf_record. destruct Hs as [Hr Hf Hw Hc Hi Hd].
    constructor; simpl; try assumption.
    apply Forall_app. split; [exact Hd|]. apply Forall_cons_2; [|constructor].
    apply (pending_nil proc Hb).
Qed.

Lemma step_cpu_wf (i : nat) (s : Scheduler) :
  well_formed s -> well_formed (step_cpu i s).
Proof.
  intros Hs. unfold step_cpu.
  destruct (cpus s !! i) as [c|] eqn:Hc; [|exact Hs].
  destruct (cpu_current c) as [p|] eqn:Hp.
  - pose proof (wf_cpu_lookup s i c p Hs Hc Hp) as Hready.
    destruct (cpu_tick_ready c p Hp Hready)
      as [(p' & -> & Hp' & _)|(p' & -> & Hslice & Halt & _)]; cbn [cpu_current].
    + assert (H1 : well_formed (set_cpu i (mkCPU (cid c) (Some p')) s)).
      { apply wf_set_cpu; [exact Hs|]. intros q [= <-]. exact Hp'. }
      destruct (algorithm (set_cpu i (mkCPU (cid c) (Some p')) s));
        first [apply rr_quantum_wf | apply preemptive_wf]; assumption.
    + apply cpu_completion_wf; [|assumption..].
      apply wf_set_cpu; [exact Hs|]. discriminate.
  - unfold cpu_tick. rewrite Hp. rewrite Hp.
    apply wf_set_cpu; [exact Hs|]. rewrite Hp. discriminate.
Qed.

Lemma io_completion_wf (dev : IODevice) (proc : Process) (s : Scheduler) :
  well_formed s -> slice_ok proc -> alternating false (pending proc) ->
  well_formed (io_completion dev proc s).
Proof.
  intros Hs Hslice Hpend. unfold io_completion.
  destruct (current_burst proc) as [b|] eqn:Hb.
  - destruct (pending_cons _ _ Hb) as [rest Hrest]. rewrite Hrest in Hpend.
    apply wf_record, wf_insert_ready; [exact Hs|].
    split; [exact Hslice|]. change (pending (set_state Ready proc)) with (pending proc).
    rewrite Hrest. destruct b as [n|ty d]; [exact Hpend|].
    simpl in Hpend. destruct Hpend as [Hf _]. discriminate.
  - apply wf_record. destruct Hs as [Hr Hf Hw Hc Hi Hd].
    constructor; simpl; try assumption.
    apply Forall_app. split; [exact Hd|]. apply Forall_cons_2; [|constructor].
    apply (pending_nil proc Hb).
Qed.

Lemma step_io_wf (j : nat) (s : Scheduler) :
  well_formed s -> well_formed (step_io j s).
Proof.
  intros Hs. unfold step_io.
  destruct (io_devices s !! j) as [d|] eqn:Hd; [|exact Hs].
  destruct (io_current d) as [p|] eqn:Hp.
  - pose proof (wf_io_lookup s j d p Hs Hd Hp) as Hready.
    destruct (io_tick_ready d p Hp Hready)
      as [(p' & -> & Hp')|(p' & -> & Hslice & Halt)].
    + apply wf_set_io_device; [exact Hs|]. intros q [= <-]. exact Hp'.
    + apply io_completion_wf; [|assumption..].
      apply wf_set_io_device; [exact Hs|]. discriminate.
  - unfold io_tick. rewrite Hp.
    apply wf_set_io_device; [exact Hs|]. rewrite Hp. discriminate.
Qed.

Lemma dispatch_cpu_wf (i : nat) (s : Scheduler) :
  well_formed s -> well_formed (dispatch_cpu i s).
Proof.
  intros Hs. unfold dispatch_cpu.
  destruct (cpus s !! i) as [cpu|]; [|exact Hs].
  destruct (negb (cpu_is_busy cpu)); [|exact Hs].
  destruct (_select_process_for_cpu (algorithm s) (ready_queue s))
    as [[proc|] queue] eqn:Hsel; [|exact Hs].
  destruct (wf_select s proc queue Hs Hsel) as [Hproc H1].
  apply wf_record, wf_set_cpu; [exact H1|]. intros p [= <-]. exact Hproc.
Qed.

Lemma dispatch_io_wf (j : nat) (s : Scheduler) :
  well_formed s -> well_formed (dispatch_io j s).
Proof.
  intros Hs. unfold dispatch_io.
  destruct (io_devices s !! j) as [dev|]; [|exact Hs].
  destruct (negb (io_is_busy dev)); [|exact Hs].
  destruct (wait_queue s) as [|proc queue] eqn:Hq; [exact Hs|].
  apply wf_record, wf_set_io_device.
  - destruct Hs as [Hr Hf Hw Hc Hi Hd]. rewrite Hq in Hw.
    apply Forall_cons_1 in Hw as [_ Hw]. constructor; simpl; assumption.
  - intros p [= <-]. destruct Hs as [_ _ Hw _ _ _]. rewrite Hq in Hw.
    apply Forall_cons_1 in Hw as [Hp _]. exact Hp.
Qed.

Lemma step_wf (s : Scheduler) : well_formed s -> well_formed (step s).
Proof.
  intros Hs. unfold step, tick_cpus, tick_ios, dispatch_cpus, dispatch_ios.
  match goal with |- well_formed (set_clock _ ?x) =>
    assert (H : well_formed x); [|destruct H; constructor; assumption] end.
  apply for_each_preserves; [apply dispatch_io_wf|].
  apply for_each_preserves; [apply dispatch_cpu_wf|].
  apply for_each_preserves; [apply step_io_wf|].
  apply for_each_preserves; [apply step_cpu_wf|].
  apply admit_arrivals_wf, Hs.
Qed.

Lemma add_process_wf (p : Process) (s : Scheduler) :
  well_formed s -> cpu_ready p -> well_formed (add_process p s).
Proof.
  intros Hs Hp. unfold add_process.
  destruct (arrival_time p <=? clock s).
  - apply wf_record, wf_insert_ready; assumption.
  - destruct Hs as [Hr Hf Hw Hc Hi Hd]. constructor; simpl; try assumption.
    rewrite sort_by_perm. apply Forall_app. split; [exact Hf|].
    apply Forall_cons_2; [exact Hp|constructor].
Qed.

Lemma init_wf (num_cpus num_ios : nat) (alg : Algorithm) :
  well_formed (init num_cpus num_ios alg).
Proof.
  constructor; simpl; try constructor.
  - apply Forall_forall. intros c Hc. apply list_elem_of_In, in_map_iff in Hc as (k & <- & _).
    discriminate.
  - apply Forall_forall. intros c Hc. apply list_elem_of_In, in_map_iff in Hc as (k & <- & _).
    discriminate.
Qed.

Lemma setup_wf (num_cpus num_ios : nat) (alg : Algorithm) (processes : list Process) :
  Forall cpu_ready processes -> well_formed (setup num_cpus num_ios alg processes).
Proof.
  unfold setup. generalize (init_wf num_cpus num_ios alg).
  generalize (init num_cpus num_ios alg). 
  induction processes as [|p ps IH]; intros s Hs Hps; simpl; [exact Hs|].
  apply Forall_cons_1 in Hps as [Hp Hps].
  apply IH; [|exact Hps]. apply add_process_wf; assumption.
Qed.

Lemma steps_wf (n : nat) : forall s, well_formed s -> well_formed (steps n s).
Proof.
  induction n as [|n IH]; intros s Hs; simpl; [exact Hs|]. apply IH, step_wf, Hs.
Qed.

(** X14.  Every state the driver and [step] reach from a workload of
    processes that are ready for the CPU is well formed: the processes of
    the ready queue, of [future_processes] and on the CPUs are on a CPU
    burst, those of the wait queue and on the devices are on an I/O burst,
    every such burst has at least one tick left and so has every later
    one, no process has two I/O bursts in a row ahead, the finished
    processes have no burst left, and every time slice satisfies
    [1 <= remaining_quantum <= quantum]. *)
Theorem reachable_states_well_formed (num_cpus num_ios : nat) (alg : Algorithm)
    (processes : list Process) (n : nat) :
  Forall cpu_ready processes ->
  well_formed (steps n (setup num_cpus num_ios alg processes)).
Proof. intros H. apply steps_wf, setup_wf, H. Qed.

Lemma reachable_states_well_formed_witness :
  well_formed (steps 3 (setup 1 1 FCFS [S1_P1; S1_P2])).
Proof.
  assert (H : Forall cpu_ready [S1_P1; S1_P2]).
  { repeat apply Forall_cons_2; [| |apply Forall_nil_2];
      unfold cpu_ready, slice_ok; simpl; lia. }
  exact (reachable_states_well_formed 1 1 FCFS [S1_P1; S1_P2] 3 H).
Defined.

(** ** The time slice of round robin *)

Lemma tick_cpus_at (s : Scheduler) (i : nat) :
  (i < length (cpus s))%nat ->
  cpus (tick_cpus (admit_arrivals s)) !! i = cpus (step_cpu i (before_cpu i s)) !! i.
Proof.
  intros Hi. unfold tick_cpus, for_each.
  destruct (admit_arrivals_frame s) as (_ & Hcpus & _). rewrite Hcpus.
  replace (length (cpus s)) with (i + S (length (cpus s) - S i))%nat by lia.
  rewrite seq_app, fold_left_app. simpl. fold (before_cpu i s).
  apply (fold_left_preserves
           (fun s' => cpus s' !! i = cpus (step_cpu i (before_cpu i s)) !! i));
    [|reflexivity].
  intros k s' Hin Hs'. rewrite step_cpu_other; [exact Hs'|].
  apply in_seq in Hin. lia.
Qed.

Lemma before_cpu_wf (i : nat) (s : Scheduler) :
  well_formed s -> well_formed (before_cpu i s).
Proof.
  intros Hs. unfold before_cpu.
  apply fold_left_preserves; [|apply admit_arrivals_wf, Hs].
  intros k s' _. apply step_cpu_wf.
Qed.

Lemma cpu_completion_cpus (cpu : CPU) (proc : Process) (s : Scheduler) :
  cpus (cpu_completion cpu proc s) = cpus s.
Proof. unfold cpu_completion. repeat break_match; reflexivity. Qed.

(** Under RR a CPU that is busy after its turn in the tick loop holds the
    process it held, one tick of its slice later. *)
Lemma step_cpu_rr (s : Scheduler) (i : nat) (c c' : CPU) (p : Process) :
  algorithm s = RR -> well_formed s ->
  cpus s !! i = Some c -> cpu_current c = Some p ->
  cpus (step_cpu i s) !! i = Some c' -> cpu_is_busy c' = true ->
  exists p', c' = mkCPU (cid c) (Some p')
             /\ pid p' = pid p /\ quantum p' = quantum p
             /\ remaining_quantum p' = remaining_quantum p - 1.
Proof.
  intros Halg Hs Hc Hp. unfold step_cpu. rewrite Hc.
  assert (Hi : (i < length (cpus s))%nat) by (eapply lookup_lt_Some, Hc).
  pose proof (wf_cpu_lookup s i c p Hs Hc Hp) as Hready.
  destruct (cpu_tick_ready c p Hp Hready)
    as [(p1 & -> & Hp1 & Hrq & Hq & Hpid)|(p1 & -> & _)]; cbn [cpu_current].
  - change (algorithm (set_cpu i _ s)) with (algorithm s). rewrite Halg.
    unfold rr_quantum. destruct (_ && _); simpl.
    + rewrite list_lookup_insert_eq by (rewrite length_insert; exact Hi).
      intros [= <-]. discriminate.
    + rewrite list_lookup_insert_eq by (rewrite length_insert; exact Hi).
      intros [= <-] _. eexists. split; [reflexivity|]. simpl.
      repeat split; try assumption. lia.
  - rewrite cpu_completion_cpus. simpl.
    rewrite list_lookup_insert_eq by exact Hi. intros [= <-]. discriminate.
Qed.

Lemma step_algorithm (s : Scheduler) : algorithm (step s) = algorithm s.
Proof. unfold step. simpl. apply (pr_algorithm _ _ (progress_step s)). Qed.

Lemma rr_keeps (s : Scheduler) (i : nat) (c : CPU) (p : Process) :
  algorithm s = RR -> well_formed s ->
  cpus s !! i = Some c -> cpu_current c = Some p ->
  keeps_cpu i s = true ->
  exists p', cpus (step s) !! i = Some (mkCPU (cid c) (Some p'))
             /\ pid p' = pid p /\ quantum p' = quantum p
             /\ remaining_quantum p' = remaining_quantum p - 1.
Proof.
  intros Halg Hs Hc Hp Hkeep.
  assert (Hi : (i < length (cpus s))%nat) by (eapply lookup_lt_Some, Hc).
  unfold keeps_cpu in Hkeep. rewrite (tick_cpus_at s i Hi) in Hkeep.
  destruct (cpus (step_cpu i (before_cpu i s)) !! i) as [c'|] eqn:Hc'; [|discriminate].
  destruct (step_cpu_rr (before_cpu i s) i c c' p) as (p' & -> & Hp'); try assumption.
  - rewrite before_cpu_algorithm. exact Halg.
  - apply before_cpu_wf, Hs.
  - rewrite before_cpu_cpu. exact Hc.
  - exists p'. split; [|exact Hp'].
    apply (step_keeps_busy_cpu s i _ Hi Hc'). reflexivity.
Qed.

(** X15.  The time slice under RR.  A process that a CPU keeps through
    the tick phases of [k] consecutive steps loses one tick of its slice
    in each of them, and its slice stays positive: so [k] is less than the
    slice it started with, which is at most its quantum.  On the tick that
    uses up the slice, at the latest, the process leaves the CPU. *)
Theorem rr_time_slice (s : Scheduler) (i k : nat) (c : CPU) (p : Process) :
  algorithm s = RR -> well_formed s ->
  cpus s !! i = Some c -> cpu_current c = Some p ->
  keeps_cpu_for k i s = true ->
  Z.of_nat k < remaining_quantum p <= quantum p
  /\ exists p', cpus (steps k s) !! i = Some (mkCPU (cid c) (Some p'))
                /\ pid p' = pid p
                /\ remaining_quantum p' = remaining_quantum p - Z.of_nat k.
Proof.
  intros Halg Hs Hc Hp Hkeep.
  assert (H : exists p', cpus (steps k s) !! i = Some (mkCPU (cid c) (Some p'))
                         /\ pid p' = pid p /\ quantum p' = quantum p
                         /\ remaining_quantum p' = remaining_quantum p - Z.of_nat k).
  { revert s c p Halg Hs Hc Hp Hkeep.
    induction k as [|k IH]; intros s c p Halg Hs Hc Hp Hkeep.
    - exists p. simpl. destruct c as [ci cc]. simpl in *. subst cc.
      repeat split; [exact Hc|lia].
    - cbn [keeps_cpu_for] in Hkeep. apply andb_true_iff in Hkeep as [Hk1 Hk2].
      destruct (rr_keeps s i c p Halg Hs Hc Hp Hk1) as (p1 & Hc1 & Hpid1 & Hq1 & Hrq1).
      destruct (IH (step s) (mkCPU (cid c) (Some p1)) p1) as (p' & Hc' & Hpid & Hq & Hrq);
        [rewrite step_algorithm; exact Halg|apply step_wf, Hs|exact Hc1|reflexivity
        |exact Hk2|].
      exists p'. cbn [steps]. split; [exact Hc'|].
      repeat split; [congruence|congruence|lia]. }
  destruct H as (p' & Hc' & Hpid & Hq & Hrq).
  pose proof (wf_cpu_lookup (steps k s) i _ p' (steps_wf k s Hs) Hc' eq_refl)
    as [Hslice _].
  pose proof (wf_cpu_lookup s i c p Hs Hc Hp) as [Hslice0 _].
  unfold slice_ok in *. split; [lia|].
  exists p'. repeat split; assumption.
Qed.

Lemma rr_time_slice_witness :
  Z.of_nat 2 < remaining_quantum rr_running <= quantum rr_running
  /\ exists p', cpus (steps 2 rr_state) !! 0%nat
                = Some (mkCPU (cid (mkCPU 0 (Some rr_running))) (Some p'))
                /\ pid p' = pid rr_running
                /\ remaining_quantum p' = remaining_quantum rr_running - Z.of_nat 2.
Proof.
  assert (H1 : algorithm rr_state = RR) by reflexivity.
  assert (H2 : well_formed rr_state).
  { constructor; simpl; repeat (apply Forall_cons_2 || apply Forall_nil_2).
    - intros p [= <-]. unfold cpu_ready, slice_ok. simpl. lia.
    - discriminate. }
  assert (H3 : cpus rr_state !! 0%nat = Some (mkCPU 0 (Some rr_running)))
    by (vm_compute; reflexivity).
  assert (H4 : cpu_current (mkCPU 0 (Some rr_running)) = Some rr_running)
    by reflexivity.
  assert (H5 : keeps_cpu_for 2 0 rr_state = true) by (vm_compute; reflexivity).
  exact (rr_time_slice rr_state 0 2 (mkCPU 0 (Some rr_running)) rr_running
           H1 H2 H3 H4 H5).
Defined.

Lemma current_burst_pending (p : Process) : current_burst p = pending p !! 0%nat.
Proof.
  unfold current_burst, pending. rewrite lookup_drop, Nat.add_0_r. reflexivity.
Qed.

(** X16.  The turn of a busy CPU in the tick loop under RR, for a process
    on a CPU burst of [n] ticks.  If this is the last tick of the burst,
    the process leaves the CPU with its slice as it was (the tick costs no
    quantum and the slice is not reset) and goes to the finished list, to
    the tail of the wait queue or to the tail of the ready queue, as its
    next burst tells.  Otherwise the slice loses one tick; if that uses it
    up, and CPU work remains, the process leaves the CPU, gets a whole
    quantum again and goes to the tail of the ready queue, with a
    [preempted] event that shows the queue with it; if not, the process
    stays on the CPU and nothing else changes. *)
Theorem rr_tick (s : Scheduler) (i : nat) (c : CPU) (p : Process) (n : Z)
    (rest : list Burst) :
  algorithm s = RR ->
  cpus s !! i = Some c -> cpu_current c = Some p ->
  pending p = CpuBurst n :: rest ->
  let s' := step_cpu i s in
  if n =? 1 then
    let gone := advance_burst (ticked p n) in
    cpus s' !! i = Some (mkCPU (cid c) None)
    /\ remaining_quantum gone = remaining_quantum p
    /\ match rest with
       | [] =>
           finished s' = finished s ++ [set_state Finished gone]
           /\ ready_queue s' = ready_queue s /\ wait_queue s' = wait_queue s
       | IoBurst _ _ :: _ =>
           wait_queue s' = wait_queue s ++ [set_state Waiting gone]
           /\ ready_queue s' = ready_queue s /\ finished s' = finished s
       | CpuBurst _ :: _ =>
           ready_queue s' = ready_queue s ++ [set_state Ready gone]
           /\ wait_queue s' = wait_queue s /\ finished s' = finished s
       end
  else if (remaining_quantum p - 1 <=? 0) && (remaining_burst_time (ticked p n) >? 0)
  then
    cpus s' !! i = Some (mkCPU (cid c) None)
    /\ ready_queue s'
       = ready_queue s
         ++ [set_remaining_quantum (quantum p) (set_state Ready (ticked p n))]
    /\ wait_queue s' = wait_queue s /\ finished s' = finished s
    /\ exists e, events s' = events s ++ [e]
                 /\ event_view e
                    = ("preempted", Some (pid p), clock s, map pid (ready_queue s'))
  else
    cpus s' !! i
    = Some (mkCPU (cid c)
              (Some (set_remaining_quantum (remaining_quantum p - 1) (ticked p n))))
    /\ ready_queue s' = ready_queue s /\ wait_queue s' = wait_queue s
    /\ finished s' = finished s /\ events s' = events s.
Proof.
  intros Halg Hc Hp Hpend s'. subst s'.
  assert (Hi : (i < length (cpus s))%nat) by (eapply lookup_lt_Some, Hc).
  destruct (pending_lookup _ _ _ Hpend) as [Hb _].
  destruct (pending_tick p _ (CpuBurst (n - 1)) _ Hpend) as [_ Hgone].
  fold (ticked p n) in Hgone.
  unfold step_cpu. rewrite Hc. unfold cpu_tick. rewrite Hp, Hb.
  fold (ticked p n).
  destruct (Z.eqb_spec n 1) as [->|Hn].
  - simpl (1 - 1 =? 0). cbn iota. cbn [cpu_current].
    split; [|split; [reflexivity|]].
    + rewrite cpu_completion_cpus. simpl.
      apply list_lookup_insert_eq, Hi.
    + unfold cpu_completion. rewrite current_burst_pending, Hgone.
      destruct rest as [|[m|ty d] rest]; simpl; rewrite ?Halg; repeat split.
  - destruct (Z.eqb_spec (n - 1) 0) as [Hz|_]; [lia|].
    cbn [cpu_current]. change (algorithm (set_cpu i _ s)) with (algorithm s).
    rewrite Halg. unfold rr_quantum.
    change (remaining_burst_time (set_remaining_quantum _ (ticked p n)))
      with (remaining_burst_time (ticked p n)).
    cbn [remaining_quantum set_remaining_quantum].
    change (remaining_quantum (ticked p n)) with (remaining_quantum p).
    destruct (_ && _); simpl.
    + rewrite Halg. 
      rewrite list_lookup_insert_eq by (rewrite length_insert; exact Hi).
      repeat split. eexists. split; reflexivity.
    + rewrite list_lookup_insert_eq by (rewrite length_insert; exact Hi).
      repeat split.
Qed.

Lemma rr_tick_witness :
  cpus (step_cpu 0 rr_expiring) !! 0%nat = Some (mkCPU 0 None)
  /\ ready_queue (step_cpu 0 rr_expiring)
     = [set_remaining_quantum 3 (set_state Ready (ticked rr_expiring_process 3))].
Proof.
  assert (H1 : algorithm rr_expiring = RR) by reflexivity.
  assert (H2 : cpus rr_expiring !! 0%nat = Some (mkCPU 0 (Some rr_expiring_process)))
    by (vm_compute; reflexivity).
  assert (H3 : cpu_current (mkCPU 0 (Some rr_expiring_process))
               = Some rr_expiring_process) by reflexivity.
  assert (H4 : pending rr_expiring_process = [CpuBurst 3]) by (vm_compute; reflexivity).
  pose proof (rr_tick rr_expiring 0 (mkCPU 0 (Some rr_expiring_process))
                rr_expiring_process 3 [] H1 H2 H3 H4) as H.
  vm_compute in H. destruct H as (Hc & Hq & _).
  split; [exact Hc|exact Hq].
Defined.

(** ** Termination of [run] *)

Lemma sum_of_app {A : Type} (f : A -> Z) (l1 l2 : list A) :
  sum_of f (l1 ++ l2) = sum_of f l1 + sum_of f l2.
Proof. unfold sum_of. induction l1 as [|x l1 IH]; simpl; lia. Qed.

Lemma sum_of_perm {A : Type} (f : A -> Z) (l1 l2 : list A) :
  Permutation l1 l2 -> sum_of f l1 = sum_of f l2.
Proof. unfold sum_of. induction 1; simpl; lia. Qed.

Lemma sum_of_insert {A : Type} (f : A -> Z) (l : list A) (i : nat) (x y : A) :
  l !! i = Some x -> sum_of f (<[i:=y]> l) = sum_of f l - f x + f y.
Proof.
  unfold sum_of. revert i. induction l as [|z l IH]; intros [|i] H; simpl in *;
    try discriminate.
  - injection H as ->. lia.
  - rewrite (IH i H). lia.
Qed.

Lemma sum_of_filter {A : Type} (f : A -> Z) (test : A -> bool) (l : list A) :
  sum_of f (List.filter test l) + sum_of f (List.filter (fun x => negb (test x)) l)
  = sum_of f l.
Proof.
  unfold sum_of. induction l as [|x l IH]; simpl; [reflexivity|].
  destruct (test x); simpl; lia.
Qed.

Lemma sum_of_map {A B : Type} (f : B -> Z) (g : A -> B) (l : list A) :
  sum_of f (map g l) = sum_of (fun x => f (g x)) l.
Proof. unfold sum_of. induction l as [|x l IH]; simpl; congruence. Qed.

Lemma sum_of_nonneg {A : Type} (f : A -> Z) (l : list A) :
  Forall (fun x => 0 <= f x) l -> 0 <= sum_of f l.
Proof.
  unfold sum_of. induction 1; simpl; lia.
Qed.

Lemma alternating_durations (a : bool) (bs : list Burst) :
  alternating a bs -> 0 <= sum_durations bs.
Proof.
  revert a. induction bs as [|[n|ty d] bs IH]; simpl; intros a H; [lia| |].
  - destruct H as [Hn H]. specialize (IH _ H). lia.
  - destruct H as (_ & Hd & H). specialize (IH _ H). lia.
Qed.

Lemma cpu_ready_work_pos (p : Process) : cpu_ready p -> 1 <= work p.
Proof.
  intros [_ H]. unfold work. destruct (pending p) as [|[n|ty d] rest]; try contradiction.
  destruct H as [Hn H]. apply alternating_durations in H. simpl. lia.
Qed.

Lemma io_ready_work_pos (p : Process) : io_ready p -> 1 <= work p.
Proof.
  intros [_ H]. unfold work. destruct (pending p) as [|[n|ty d] rest]; try contradiction.
  destruct H as [Hn H]. apply alternating_durations in H. simpl. lia.
Qed.

Lemma total_work_nonneg (s : Scheduler) : well_formed s -> 0 <= total_work s.
Proof.
  intros [Hr Hf Hw Hc Hi Hd]. unfold total_work.
  assert (H1 : 0 <= sum_of work (ready_queue s)).
  { apply sum_of_nonneg. eapply Forall_impl; [exact Hr|].
    intros p Hp. apply cpu_ready_work_pos in Hp. lia. }
  assert (H2 : 0 <= sum_of work (wait_queue s)).
  { apply sum_of_nonneg. eapply Forall_impl; [exact Hw|].
    intros p Hp. apply io_ready_work_pos in Hp. lia. }
  assert (H3 : 0 <= sum_of work (future_processes s)).
  { apply sum_of_nonneg. eapply Forall_impl; [exact Hf|].
    intros p Hp. apply cpu_ready_work_pos in Hp. lia. }
  assert (H4 : 0 <= sum_of cpu_work (cpus s)).
  { apply sum_of_nonneg. eapply Forall_impl; [exact Hc|].
    intros c Hp. unfold cpu_work. destruct (cpu_current c) as [p|] eqn:E; simpl; [|lia].
    specialize (Hp p E). apply cpu_ready_work_pos in Hp. lia. }
  assert (H5 : 0 <= sum_of io_work (io_devices s)).
  { apply sum_of_nonneg. eapply Forall_impl; [exact Hi|].
    intros c Hp. unfold io_work. destruct (io_current c) as [p|] eqn:E; simpl; [|lia].
    specialize (Hp p E). apply io_ready_work_pos in Hp. lia. }
  lia.
Qed.

(** A tick takes one unit of work from the process, whether it stays on
    the unit or leaves it. *)
Lemma cpu_tick_work (c : CPU) (p : Process) :
  cpu_current c = Some p -> cpu_ready p ->
  cpu_work (fst (cpu_tick c)) + from_option work 0 (snd (cpu_tick c)) = work p - 1.
Proof.
  intros Hc [_ Hp]. unfold cpu_tick. rewrite Hc.
  destruct (pending p) as [|[n|ty d] rest] eqn:Hpend; try contradiction.
  destruct (pending_lookup _ _ _ Hpend) as [Hb _]. rewrite Hb.
  destruct (pending_tick p _ (CpuBurst (n - 1)) _ Hpend) as [H1 H2].
  assert (Hw : work p = n + sum_durations rest) by (unfold work; rewrite Hpend; reflexivity).
  rewrite Hw.
  destruct (Z.eqb_spec (n - 1) 0) as [Hz|Hnz]; cbn [fst snd from_option];
    unfold cpu_work; cbn [cpu_current from_option]; unfold work.
  - rewrite H2. lia.
  - rewrite H1. simpl. lia.
Qed.

Lemma io_tick_work (d : IODevice) (p : Process) :
  io_current d = Some p -> io_ready p ->
  io_work (fst (io_tick d)) + from_option work 0 (snd (io_tick d)) = work p - 1.
Proof.
  intros Hc [_ Hp]. unfold io_tick. rewrite Hc.
  destruct (pending p) as [|[n|ty n] rest] eqn:Hpend; try contradiction.
  destruct (pending_lookup _ _ _ Hpend) as [Hb _]. rewrite Hb.
  destruct (pending_tick p _ (IoBurst ty (n - 1)) _ Hpend) as [H1 H2].
  assert (Hw : work p = n + sum_durations rest) by (unfold work; rewrite Hpend; reflexivity).
  rewrite Hw.
  destruct (Z.eqb_spec (n - 1) 0) as [Hz|Hnz]; cbn [fst snd from_option];
    unfold io_work; cbn [io_current from_option]; unfold work.
  - rewrite H2. lia.
  - rewrite H1. simpl. lia.
Qed.

Lemma total_insert_ready (p : Process) (s : Scheduler) :
  total_work
    (set_ready_queue (_insert_into_ready_queue (algorithm s) p (ready_queue s)) s)
  = total_work s + work p.
Proof.
  unfold total_work. simpl.
  rewrite (sum_of_perm work _ _ (insert_permutation (algorithm s) p (ready_queue s))).
  unfold sum_of. simpl. lia.
Qed.

Lemma total_select (s : Scheduler) (p : Process) (queue : list Process) :
  _select_process_for_cpu (algorithm s) (ready_queue s) = (Some p, queue) ->
  total_work (set_ready_queue queue s) = total_work s - work p.
Proof.
  intros Hsel. unfold total_work. simpl.
  rewrite (sum_of_perm work _ _ (select_permutation _ _ _ _ Hsel)).
  unfold sum_of. simpl. lia.
Qed.

Lemma total_set_cpu (i : nat) (c c' : CPU) (s : Scheduler) :
  cpus s !! i = Some c ->
  total_work (set_cpu i c' s) = total_work s - cpu_work c + cpu_work c'.
Proof.
  intros Hc. unfold total_work. simpl. rewrite (sum_of_insert _ _ _ _ _ Hc). lia.
Qed.

Lemma total_set_io_device (j : nat) (d d' : IODevice) (s : Scheduler) :
  io_devices s !! j = Some d ->
  total_work (set_io_device j d' s) = total_work s - io_work d + io_work d'.
Proof.
  intros Hd. unfold total_work. simpl. rewrite (sum_of_insert _ _ _ _ _ Hd). lia.
Qed.

Lemma set_cpu_lookup (i : nat) (c c' : CPU) (s : Scheduler) :
  cpus s !! i = Some c -> cpus (set_cpu i c' s) !! i = Some c'.
Proof.
  intros Hc. simpl. apply list_lookup_insert_eq. eapply lookup_lt_Some, Hc.
Qed.

Lemma set_io_device_lookup (j : nat) (d d' : IODevice) (s : Scheduler) :
  io_devices s !! j = Some d -> io_devices (set_io_device j d' s) !! j = Some d'.
Proof.
  intros Hd. simpl. apply list_lookup_insert_eq. eapply lookup_lt_Some, Hd.
Qed.

Lemma rr_quantum_total (i : nat) (cpu c0 : CPU) (cur : Process) (s : Scheduler) :
  cpus s !! i = Some c0 -> cpu_work c0 = work cur ->
  total_work (rr_quantum i cpu cur s) = total_work s.
Proof.
  intros Hc Hw. unfold rr_quantum. destruct (_ && _).
  - change (total_work (_record ?e ?t ?p ?d ?x)) with (total_work x).
    rewrite (total_insert_ready _ (set_cpu i (mkCPU (cid cpu) None) s)).
    rewrite (total_set_cpu i c0 _ s Hc).
    unfold cpu_work at 2. simpl.
    change (work (set_remaining_quantum _ _)) with (work cur). lia.
  - rewrite (total_set_cpu i c0 _ s Hc). unfold cpu_work at 2. simpl.
    change (work (set_remaining_quantum _ _)) with (work cur). lia.
Qed.

Lemma preempt_total (i : nat) (cpu c0 : CPU) (cur best : Process) (label : string)
    (s : Scheduler) :
  cpus s !! i = Some c0 -> cpu_work c0 = work cur ->
  total_work (preempt i cpu cur best label s) = total_work s.
Proof.
  intros Hc Hw. unfold preempt.
  pose proof (total_insert_ready (set_state Ready cur) s) as H1.
  pose proof (insert_permutation (algorithm s) (set_state Ready cur) (ready_queue s))
    as Hperm.
  set (s1 := set_ready_queue _ s) in *.
  destruct (_select_process_for_cpu (algorithm s1) (ready_queue s1))
    as [[new_proc|] queue] eqn:Hsel.
  - change (total_work (_record ?e ?t ?p ?d ?x)) with (total_work x).
    rewrite (total_set_cpu i c0 _ (set_ready_queue queue s1)) by exact Hc.
    rewrite (total_select s1 new_proc queue Hsel), H1.
    unfold cpu_work at 2. simpl.
    change (work (set_state Running new_proc)) with (work new_proc).
    change (work (set_state Ready cur)) with (work cur). lia.
  - apply select_none in Hsel as [Hnil _]. simpl in Hnil. rewrite Hnil in Hperm.
    apply Permutation_nil_cons in Hperm. contradiction.
Qed.

Lemma preemptive_total (i : nat) (cpu c0 : CPU) (cur : Process) (s : Scheduler) :
  cpus s !! i = Some c0 -> cpu_work c0 = work cur ->
  total_work (preemptive i cpu cur s) = total_work s.
Proof.
  intros Hc Hw. unfold preemptive.
  destruct (ready_queue s) as [|x rest]; [reflexivity|].
  destruct (algorithm s); try reflexivity.
  - destruct (_ <? _); [apply (preempt_total i cpu c0); assumption|reflexivity].
  - destruct (_ <? _); [apply (preempt_total i cpu c0); assumption|reflexivity].
Qed.

Lemma cpu_completion_total (cpu : CPU) (proc : Process) (s : Scheduler) :
  total_work (cpu_completion cpu proc s) = total_work s + work proc.
Proof.
  unfold cpu_completion. destruct (current_burst proc) as [[n|ty d]|] eqn:Hb.
  - change (total_work (_record ?e ?t ?p ?d ?x)) with (total_work x).
    rewrite total_insert_ready. reflexivity.
  - unfold total_work. simpl. rewrite sum_of_app.
    change (sum_of work [set_state Waiting proc]) with (work proc + 0). lia.
  - unfold total_work. simpl. unfold work. rewrite (pending_nil _ Hb). simpl. lia.
Qed.

Lemma io_completion_total (dev : IODevice) (proc : Process) (s : Scheduler) :
  total_work (io_completion dev proc s) = total_work s + work proc.
Proof.
  unfold io_completion. destruct (current_burst proc) as [b|] eqn:Hb.
  - change (total_work (_record ?e ?t ?p ?d ?x)) with (total_work x).
    rewrite total_insert_ready. reflexivity.
  - unfold total_work. simpl. unfold work. rewrite (pending_nil _ Hb). simpl. lia.
Qed.

(** The turn of a CPU in the tick loop takes one unit of work when the
    CPU is busy, none when it is idle. *)
Lemma step_cpu_total (i : nat) (c : CPU) (s : Scheduler) :
  well_formed s -> cpus s !! i = Some c ->
  total_work (step_cpu i s) = total_work s - (if cpu_is_busy c then 1 else 0).
Proof.
  intros Hs Hc. unfold step_cpu. rewrite Hc. unfold cpu_is_busy.
  destruct (cpu_current c) as [p|] eqn:Hp.
  - pose proof (wf_cpu_lookup s i c p Hs Hc Hp) as Hready.
    pose proof (cpu_tick_work c p Hp Hready) as Hwork.
    assert (Hcw : cpu_work c = work p) by (unfold cpu_work; rewrite Hp; reflexivity).
    destruct (cpu_tick_ready c p Hp Hready)
      as [(p' & Ht & _)|(p' & Ht & _)]; rewrite Ht in *; cbn [cpu_current];
      simpl in Hwork.
    + pose proof (total_set_cpu i c (mkCPU (cid c) (Some p')) s Hc) as H1.
      pose proof (set_cpu_lookup i c (mkCPU (cid c) (Some p')) s Hc) as H2.
      set (s1 := set_cpu i _ s) in *.
      assert (H3 : cpu_work (mkCPU (cid c) (Some p')) = work p') by reflexivity.
      destruct (algorithm s1);
        first [rewrite (rr_quantum_total i _ _ p' s1 H2 H3)
              |rewrite (preemptive_total i _ _ p' s1 H2 H3)];
        rewrite H1, Hcw, H3; unfold cpu_work in Hwork; simpl in Hwork; lia.
    + rewrite cpu_completion_total.
      rewrite (total_set_cpu i c _ s Hc), Hcw. unfold cpu_work in *. simpl in *. lia.
  - unfold cpu_tick. rewrite Hp. rewrite Hp.
    rewrite (total_set_cpu i c c s Hc). lia.
Qed.

Lemma step_io_total (j : nat) (d : IODevice) (s : Scheduler) :
  well_formed s -> io_devices s !! j = Some d ->
  total_work (step_io j s) = total_work s - (if io_is_busy d then 1 else 0).
Proof.
  intros Hs Hd. unfold step_io. rewrite Hd. unfold io_is_busy.
  destruct (io_current d) as [p|] eqn:Hp.
  - pose proof (wf_io_lookup s j d p Hs Hd Hp) as Hready.
    pose proof (io_tick_work d p Hp Hready) as Hwork.
    assert (Hcw : io_work d = work p) by (unfold io_work; rewrite Hp; reflexivity).
    destruct (io_tick_ready d p Hp Hready)
      as [(p' & Ht & _)|(p' & Ht & _)]; rewrite Ht in *; simpl in Hwork.
    + rewrite (total_set_io_device j d _ s Hd), Hcw.
      unfold io_work in *. simpl in *. lia.
    + rewrite io_completion_total.
      rewrite (total_set_io_device j d _ s Hd), Hcw. unfold io_work in *. simpl in *. lia.
  - unfold io_tick. rewrite Hp.
    rewrite (total_set_io_device j d d s Hd). lia.
Qed.

Lemma dispatch_cpu_total (i : nat) (s : Scheduler) :
  total_work (dispatch_cpu i s) = total_work s.
Proof.
  unfold dispatch_cpu. destruct (cpus s !! i) as [cpu|] eqn:Hc; [|reflexivity].
  unfold cpu_is_busy. destruct (cpu_current cpu) eqn:Hcur; [reflexivity|]. simpl.
  destruct (_select_process_for_cpu (algorithm s) (ready_queue s))
    as [[proc|] queue] eqn:Hsel; [|reflexivity].
  change (total_work (_record ?e ?t ?p ?d ?x)) with (total_work x).
  rewrite (total_set_cpu i cpu _ (set_ready_queue queue s)) by exact Hc.
  rewrite (total_select s proc queue Hsel).
  unfold cpu_work. rewrite Hcur. simpl.
  change (work (set_state Running proc)) with (work proc). lia.
Qed.

Lemma dispatch_io_total (j : nat) (s : Scheduler) :
  total_work (dispatch_io j s) = total_work s.
Proof.
  unfold dispatch_io. destruct (io_devices s !! j) as [dev|] eqn:Hd; [|reflexivity].
  unfold io_is_busy. destruct (io_current dev) eqn:Hcur; [reflexivity|]. simpl.
  destruct (wait_queue s) as [|proc queue] eqn:Hq; [reflexivity|].
  change (total_work (_record ?e ?t ?p ?d ?x)) with (total_work x).
  rewrite (total_set_io_device j dev _ (set_wait_queue queue s)) by exact Hd.
  unfold total_work. simpl. rewrite Hq. unfold io_work. rewrite Hcur.
  unfold sum_of. simpl. lia.
Qed.

Lemma admit_arrivals_total (s : Scheduler) :
  total_work (admit_arrivals s) = total_work s.
Proof.
  unfold admit_arrivals.
  pose proof (admit_loop_spec (future_processes s) [] [] s eq_refl (Forall_nil_2 _))
    as Hloop.
  pose proof (admit_loop_frame (future_processes s) [] s) as Hframe.
  destruct (admit_loop (future_processes s) [] s) as [arrivals s1].
  simpl in Hloop, Hframe.
  destruct Hloop as (_ & Hf & Hr & _).
  destruct Hframe as (_ & Hc & Hi & _ & _ & Hw).
  destruct (record_arrivals_frame arrivals s1) as (_ & Hc' & Hi' & _ & Hr' & Hw').
  destruct (record_arrivals_events arrivals s1) as (_ & Hf' & _).
  unfold total_work. rewrite Hc', Hi', Hr', Hw', Hf', Hc, Hi, Hw, Hf, Hr.
  rewrite (sum_of_perm work _ _ (fold_insert_permutation _ _ _)).
  rewrite sum_of_app, sum_of_map.
  change (fun x => work (set_state Ready x)) with work.
  pose proof (sum_of_filter work (fun p => arrival_time p <=? clock s)
                (future_processes s)) as Hsum.
  cbv beta in Hsum. lia.
Qed.

Lemma step_cpu_total_le (i : nat) (s : Scheduler) :
  well_formed s -> total_work (step_cpu i s) <= total_work s.
Proof.
  intros Hs. destruct (cpus s !! i) as [c|] eqn:Hc.
  - rewrite (step_cpu_total i c s Hs Hc). destruct (cpu_is_busy c); lia.
  - unfold step_cpu. rewrite Hc. lia.
Qed.

Lemma step_io_total_le (j : nat) (s : Scheduler) :
  well_formed s -> total_work (step_io j s) <= total_work s.
Proof.
  intros Hs. destruct (io_devices s !! j) as [d|] eqn:Hd.
  - rewrite (step_io_total j d s Hs Hd). destruct (io_is_busy d); lia.
  - unfold step_io. rewrite Hd. lia.
Qed.

(** A loop whose body keeps a state well formed and adds no work. *)
Lemma loop_total_le (body : nat -> Scheduler -> Scheduler) (l : list nat) :
  (forall k s, well_formed s ->
               well_formed (body k s) /\ total_work (body k s) <= total_work s) ->
  forall s, well_formed s ->
            well_formed (fold_left (fun s k => body k s) l s)
            /\ total_work (fold_left (fun s k => body k s) l s) <= total_work s.
Proof.
  intros Hbody. induction l as [|k l IH]; intros s Hs; simpl; [split; [exact Hs|lia]|].
  destruct (Hbody k s Hs) as [H1 H2]. destruct (IH _ H1) as [H3 H4].
  split; [exact H3|lia].
Qed.

(** Such a loop takes one unit of work for the unit [i] that is busy,
    when its body does and the other turns leave that unit alone. *)
Lemma loop_total_lt (body : nat -> Scheduler -> Scheduler) (busy_at : Scheduler -> Prop)
    (n i : nat) (s : Scheduler) :
  (forall k s, well_formed s ->
               well_formed (body k s) /\ total_work (body k s) <= total_work s) ->
  (forall s, well_formed s -> busy_at s -> total_work (body i s) <= total_work s - 1) ->
  (forall k s, k <> i -> busy_at s -> busy_at (body k s)) ->
  (i < n)%nat -> well_formed s -> busy_at s ->
  total_work (for_each n body s) <= total_work s - 1.
Proof.
  intros Hbody Hi Hother Hlt Hs Hbusy. unfold for_each.
  replace n with (i + S (n - S i))%nat by lia.
  rewrite seq_app, fold_left_app. simpl.
  set (s1 := fold_left (fun s k => body k s) (seq 0 i) s).
  assert (H1 : well_formed s1 /\ total_work s1 <= total_work s /\ busy_at s1).
  { subst s1. clear Hlt. 
    assert (Hin : forall k, In k (seq 0 i) -> k <> i) by (intros k Hk; apply in_seq in Hk; lia).
    revert s Hs Hbusy. generalize dependent (seq 0 i). intros l Hin.
    induction l as [|k l IH]; intros s Hs Hbusy; simpl; [split; [exact Hs|split; [lia|exact Hbusy]]|].
    destruct (Hbody k s Hs) as [Hw Ht].
    destruct (IH (fun k' Hk' => Hin k' (or_intror Hk')) (body k s) Hw) as (A & B & C).
    - apply Hother; [apply Hin; left; reflexivity|exact Hbusy].
    - split; [exact A|split; [lia|exact C]]. }
  destruct H1 as (Hw1 & Ht1 & Hb1).
  specialize (Hi s1 Hw1 Hb1).
  destruct (Hbody i s1 Hw1) as [Hw2 _].
  destruct (loop_total_le body (seq (S i) (n - S i)) Hbody _ Hw2) as [_ Ht3].
  lia.
Qed.

Lemma step_cpu_io_devices (i : nat) (s : Scheduler) :
  io_devices (step_cpu i s) = io_devices s.
Proof. unfold_phases. repeat break_match; reflexivity. Qed.

Lemma step_io_other (k j : nat) (s : Scheduler) :
  k <> j -> io_devices (step_io k s) !! j = io_devices s !! j.
Proof.
  intros Hne. unfold_phases.
  repeat break_match; simpl; rewrite ?list_lookup_insert_ne by exact Hne;
    reflexivity.
Qed.

Lemma step_cpu_body (k : nat) (s : Scheduler) :
  well_formed s ->
  well_formed (step_cpu k s) /\ total_work (step_cpu k s) <= total_work s.
Proof. intros Hs. split; [apply step_cpu_wf, Hs|apply step_cpu_total_le, Hs]. Qed.

Lemma step_io_body (k : nat) (s : Scheduler) :
  well_formed s ->
  well_formed (step_io k s) /\ total_work (step_io k s) <= total_work s.
Proof. intros Hs. split; [apply step_io_wf, Hs|apply step_io_total_le, Hs]. Qed.

Lemma dispatch_cpu_body (k : nat) (s : Scheduler) :
  well_formed s ->
  well_formed (dispatch_cpu k s) /\ total_work (dispatch_cpu k s) <= total_work s.
Proof.
  intros Hs. split; [apply dispatch_cpu_wf, Hs|rewrite dispatch_cpu_total; lia].
Qed.

Lemma dispatch_io_body (k : nat) (s : Scheduler) :
  well_formed s ->
  well_formed (dispatch_io k s) /\ total_work (dispatch_io k s) <= total_work s.
Proof.
  intros Hs. split; [apply dispatch_io_wf, Hs|rewrite dispatch_io_total; lia].
Qed.

Lemma for_each_total_le (n : nat) (body : nat -> Scheduler -> Scheduler) (s : Scheduler) :
  (forall k s, well_formed s ->
               well_formed (body k s) /\ total_work (body k s) <= total_work s) ->
  well_formed s ->
  well_formed (for_each n body s) /\ total_work (for_each n body s) <= total_work s.
Proof. intros Hbody Hs. apply (loop_total_le body (seq 0 n) Hbody s Hs). Qed.

(** A step adds no work. *)
Lemma step_total_le (s : Scheduler) :
  well_formed s -> total_work (step s) <= total_work s.
Proof.
  intros Hs. unfold step, tick_cpus, tick_ios, dispatch_cpus, dispatch_ios.
  match goal with |- total_work (set_clock _ ?x) <= _ => change (total_work x <= total_work s) end.
  pose proof (admit_arrivals_wf s Hs) as H0.
  pose proof (admit_arrivals_total s) as T0.
  set (a := admit_arrivals s) in *.
  destruct (for_each_total_le (length (cpus a)) step_cpu a step_cpu_body H0) as [H1 T1].
  set (b := for_each _ step_cpu a) in *.
  destruct (for_each_total_le (length (io_devices b)) step_io b step_io_body H1) as [H2 T2].
  set (c := for_each _ step_io b) in *.
  destruct (for_each_total_le (length (cpus c)) dispatch_cpu c dispatch_cpu_body H2)
    as [H3 T3].
  set (d := for_each _ dispatch_cpu c) in *.
  destruct (for_each_total_le (length (io_devices d)) dispatch_io d dispatch_io_body H3)
    as [H4 T4].
  lia.
Qed.

(** A step takes at least one unit of work when a CPU is busy. *)
Lemma step_total_lt_cpu (s : Scheduler) (i : nat) (c : CPU) :
  well_formed s -> cpus s !! i = Some c -> cpu_is_busy c = true ->
  total_work (step s) <= total_work s - 1.
Proof.
  intros Hs Hc Hbusy. unfold step, tick_cpus, tick_ios, dispatch_cpus, dispatch_ios.
  match goal with |- total_work (set_clock _ ?x) <= _ =>
    change (total_work x <= total_work s - 1) end.
  pose proof (admit_arrivals_wf s Hs) as H0.
  pose proof (admit_arrivals_total s) as T0.
  destruct (admit_arrivals_frame s) as (_ & Hcpus & _).
  set (a := admit_arrivals s) in *.
  assert (T1 : total_work (for_each (length (cpus a)) step_cpu a) <= total_work a - 1).
  { apply (loop_total_lt step_cpu
             (fun s' => cpus s' !! i = Some c) (length (cpus a)) i a step_cpu_body).
    - intros s' Hs' Hc'. rewrite (step_cpu_total i c s' Hs' Hc'), Hbusy. lia.
    - intros k s' Hne Hc'. rewrite step_cpu_other by exact Hne. exact Hc'.
    - rewrite Hcpus. eapply lookup_lt_Some, Hc.
    - exact H0.
    - rewrite Hcpus. exact Hc. }
  destruct (for_each_total_le (length (cpus a)) step_cpu a step_cpu_body H0) as [H1 _].
  set (b := for_each _ step_cpu a) in *.
  destruct (for_each_total_le (length (io_devices b)) step_io b step_io_body H1) as [H2 T2].
  set (c0 := for_each _ step_io b) in *.
  destruct (for_each_total_le (length (cpus c0)) dispatch_cpu c0 dispatch_cpu_body H2)
    as [H3 T3].
  set (d := for_each _ dispatch_cpu c0) in *.
  destruct (for_each_total_le (length (io_devices d)) dispatch_io d dispatch_io_body H3)
    as [H4 T4].
  lia.
Qed.

Lemma tick_cpus_io_devices (s : Scheduler) :
  io_devices (tick_cpus s) = io_devices s.
Proof.
  unfold tick_cpus.
  apply (for_each_preserves (fun s' => io_devices s' = io_devices s)); [|reflexivity].
  intros k s' Hs'. rewrite step_cpu_io_devices. exact Hs'.
Qed.

(** A step takes at least one unit of work when a device is busy. *)
Lemma step_total_lt_io (s : Scheduler) (j : nat) (dev : IODevice) :
  well_formed s -> io_devices s !! j = Some dev -> io_is_busy dev = true ->
  total_work (step s) <= total_work s - 1.
Proof.
  intros Hs Hd Hbusy. unfold step.
  match goal with |- total_work (set_clock _ ?x) <= _ =>
    change (total_work x <= total_work s - 1) end.
  pose proof (admit_arrivals_wf s Hs) as H0.
  pose proof (admit_arrivals_total s) as T0.
  destruct (admit_arrivals_frame s) as (_ & _ & Hios & _).
  set (a := admit_arrivals s) in *.
  pose proof (tick_cpus_io_devices a) as Hios'.
  unfold tick_cpus in *.
  destruct (for_each_total_le (length (cpus a)) step_cpu a step_cpu_body H0) as [H1 T1].
  set (b := for_each _ step_cpu a) in *.
  unfold tick_ios, dispatch_cpus, dispatch_ios.
  assert (T2 : total_work (for_each (length (io_devices b)) step_io b) <= total_work b - 1).
  { apply (loop_total_lt step_io
             (fun s' => io_devices s' !! j = Some dev) (length (io_devices b)) j b
             step_io_body).
    - intros s' Hs' Hd'. rewrite (step_io_total j dev s' Hs' Hd'), Hbusy. lia.
    - intros k s' Hne Hd'. rewrite step_io_other by exact Hne. exact Hd'.
    - rewrite Hios', Hios. eapply lookup_lt_Some, Hd.
    - exact H1.
    - rewrite Hios', Hios. exact Hd. }
  destruct (for_each_total_le (length (io_devices b)) step_io b step_io_body H1) as [H2 _].
  set (c0 := for_each _ step_io b) in *.
  destruct (for_each_total_le (length (cpus c0)) dispatch_cpu c0 dispatch_cpu_body H2)
    as [H3 T3].
  set (d := for_each _ dispatch_cpu c0) in *.
  destruct (for_each_total_le (length (io_devices d)) dispatch_io d dispatch_io_body H3)
    as [H4 T4].
  lia.
Qed.

(** A loop over the indices below [n] that establishes a property index
    by index. *)
Lemma for_each_upto (Q : nat -> Scheduler -> Prop) (n : nat)
    (body : nat -> Scheduler -> Scheduler) (s : Scheduler) :
  Q 0%nat s -> (forall k s, Q k s -> Q (S k) (body k s)) -> Q n (for_each n body s).
Proof.
  intros H0 Hbody. unfold for_each.
  assert (H : forall len start s, Q start s ->
                Q (start + len)%nat (fold_left (fun s i => body i s) (seq start len) s)).
  { induction len as [|len IH]; intros start s' Hs'; simpl.
    - rewrite Nat.add_0_r. exact Hs'.
    - replace (start + S len)%nat with (S start + len)%nat by lia.
      apply IH, Hbody, Hs'. }
  apply (H n 0%nat s H0).
Qed.

Lemma dispatch_cpu_upto (k : nat) (s : Scheduler) :
  (ready_queue s = []
   \/ forall i c, (i < k)%nat -> cpus s !! i = Some c -> cpu_is_busy c = true) ->
  ready_queue (dispatch_cpu k s) = []
  \/ forall i c, (i < S k)%nat -> cpus (dispatch_cpu k s) !! i = Some c ->
                 cpu_is_busy c = true.
Proof.
  intros HQ. unfold dispatch_cpu.
  destruct (cpus s !! k) as [cpu|] eqn:Hk.
  - destruct (cpu_is_busy cpu) eqn:Hbusy; simpl.
    + destruct HQ as [Hnil|Hall]; [left; exact Hnil|right].
      intros i c Hi Hc. destruct (decide (i = k)) as [->|Hne]; [congruence|].
      apply (Hall i c); [lia|exact Hc].
    + destruct (_select_process_for_cpu (algorithm s) (ready_queue s))
        as [[proc|] queue] eqn:Hsel.
      * right. simpl. intros i c Hi Hc.
        destruct (decide (i = k)) as [->|Hne].
        -- rewrite list_lookup_insert_eq in Hc by (eapply lookup_lt_Some, Hk).
           injection Hc as <-. reflexivity.
        -- rewrite list_lookup_insert_ne in Hc by congruence.
           destruct HQ as [Hnil|Hall]; [|apply (Hall i c); [lia|exact Hc]].
           rewrite Hnil in Hsel. discriminate.
      * left. apply select_none in Hsel as [Hnil _]. exact Hnil.
  - destruct HQ as [Hnil|Hall]; [left; exact Hnil|right].
    intros i c Hi Hc. destruct (decide (i = k)) as [->|Hne]; [congruence|].
    apply (Hall i c); [lia|exact Hc].
Qed.

Lemma dispatch_io_upto (k : nat) (s : Scheduler) :
  (wait_queue s = []
   \/ forall j d, (j < k)%nat -> io_devices s !! j = Some d -> io_is_busy d = true) ->
  wait_queue (dispatch_io k s) = []
  \/ forall j d, (j < S k)%nat -> io_devices (dispatch_io k s) !! j = Some d ->
                 io_is_busy d = true.
Proof.
  intros HQ. unfold dispatch_io.
  destruct (io_devices s !! k) as [dev|] eqn:Hk.
  - destruct (io_is_busy dev) eqn:Hbusy; simpl.
    + destruct HQ as [Hnil|Hall]; [left; exact Hnil|right].
      intros j d Hj Hd. destruct (decide (j = k)) as [->|Hne]; [congruence|].
      apply (Hall j d); [lia|exact Hd].
    + destruct (wait_queue s) as [|proc queue] eqn:Hq; [left; exact Hq|].
      right. simpl. intros j d Hj Hd.
      destruct (decide (j = k)) as [->|Hne].
      * rewrite list_lookup_insert_eq in Hd by (eapply lookup_lt_Some, Hk).
        injection Hd as <-. reflexivity.
      * rewrite list_lookup_insert_ne in Hd by congruence.
        destruct HQ as [Hnil|Hall]; [discriminate|apply (Hall j d); [lia|exact Hd]].
  - destruct HQ as [Hnil|Hall]; [left; exact Hnil|right].
    intros j d Hj Hd. destruct (decide (j = k)) as [->|Hne]; [congruence|].
    apply (Hall j d); [lia|exact Hd].
Qed.

Lemma dispatch_cpu_length (k : nat) (s : Scheduler) :
  length (cpus (dispatch_cpu k s)) = length (cpus s).
Proof.
  unfold dispatch_cpu. repeat break_match; simpl; rewrite ?length_insert; reflexivity.
Qed.

Lemma dispatch_io_length (k : nat) (s : Scheduler) :
  length (io_devices (dispatch_io k s)) = length (io_devices s).
Proof.
  unfold dispatch_io. repeat break_match; simpl; rewrite ?length_insert; reflexivity.
Qed.

Lemma dispatch_io_ready_queue (j : nat) (s : Scheduler) :
  ready_queue (dispatch_io j s) = ready_queue s.
Proof. unfold_phases. repeat break_match; reflexivity. Qed.

(** The CPU dispatch loop leaves no process in the ready queue while a
    CPU is idle. *)
Lemma dispatch_cpus_saturates (s : Scheduler) :
  ready_queue (dispatch_cpus s) <> [] ->
  Forall (fun c => cpu_is_busy c = true) (cpus (dispatch_cpus s)).
Proof.
  unfold dispatch_cpus. intros Hne.
  pose proof (for_each_upto
    (fun k s' => length (cpus s') = length (cpus s)
                 /\ (ready_queue s' = []
                     \/ forall i c, (i < k)%nat -> cpus s' !! i = Some c ->
                                    cpu_is_busy c = true))
    (length (cpus s)) dispatch_cpu s) as H.
  destruct H as [Hlen [Hnil|Hall]].
  - split; [reflexivity|]. right. intros i c Hi. lia.
  - intros k s' [Hlen HQ]. split; [rewrite dispatch_cpu_length; exact Hlen|].
    apply dispatch_cpu_upto, HQ.
  - contradiction.
  - apply Forall_lookup_2. intros i c Hc. apply (Hall i c); [|exact Hc].
    rewrite <- Hlen. eapply lookup_lt_Some, Hc.
Qed.

Lemma dispatch_ios_saturates (s : Scheduler) :
  wait_queue (dispatch_ios s) <> [] ->
  Forall (fun d => io_is_busy d = true) (io_devices (dispatch_ios s)).
Proof.
  unfold dispatch_ios. intros Hne.
  pose proof (for_each_upto
    (fun k s' => length (io_devices s') = length (io_devices s)
                 /\ (wait_queue s' = []
                     \/ forall j d, (j < k)%nat -> io_devices s' !! j = Some d ->
                                    io_is_busy d = true))
    (length (io_devices s)) dispatch_io s) as H.
  destruct H as [Hlen [Hnil|Hall]].
  - split; [reflexivity|]. right. intros j d Hj. lia.
  - intros k s' [Hlen HQ]. split; [rewrite dispatch_io_length; exact Hlen|].
    apply dispatch_io_upto, HQ.
  - contradiction.
  - apply Forall_lookup_2. intros j d Hd. apply (Hall j d); [|exact Hd].
    rewrite <- Hlen. eapply lookup_lt_Some, Hd.
Qed.

Lemma dispatch_ios_ready_queue (s : Scheduler) :
  ready_queue (dispatch_ios s) = ready_queue s /\ cpus (dispatch_ios s) = cpus s.
Proof.
  unfold dispatch_ios.
  apply (for_each_preserves
           (fun s' => ready_queue s' = ready_queue s /\ cpus s' = cpus s));
    [|split; reflexivity].
  intros j s' [H1 H2]. rewrite dispatch_io_ready_queue, dispatch_io_cpus.
  split; assumption.
Qed.

(** Every step ends in a saturated state. *)
Lemma step_saturated (s : Scheduler) : saturated (step s).
Proof.
  unfold step, saturated. simpl.
  set (c := tick_ios (tick_cpus (admit_arrivals s))).
  destruct (dispatch_ios_ready_queue (dispatch_cpus c)) as [Hr Hc].
  split.
  - rewrite Hr, Hc. apply dispatch_cpus_saturates.
  - apply dispatch_ios_saturates.
Qed.

Lemma step_pools (s : Scheduler) :
  length (cpus (step s)) = length (cpus s)
  /\ length (io_devices (step s)) = length (io_devices s).
Proof.
  unfold step. simpl. pose proof (progress_step s) as H.
  split.
  - apply (map_length_eq cid), (pr_cids _ _ H).
  - apply (map_length_eq did), (pr_dids _ _ H).
Qed.

Lemma step_clock (s : Scheduler) : clock (step s) = clock s + 1.
Proof.
  unfold step. simpl. rewrite (pr_clock _ _ (progress_step s)). reflexivity.
Qed.

Lemma steps_clock (k : nat) : forall s, clock (steps k s) = clock s + Z.of_nat k.
Proof.
  induction k as [|k IH]; intros s; simpl steps; [lia|].
  rewrite IH, step_clock. lia.
Qed.

(** In a saturated state with a CPU and a device, [run] goes on only if
    some unit is busy. *)
Lemma saturated_busy (s : Scheduler) :
  saturated s -> cpus s <> [] -> io_devices s <> [] -> run_condition s = true ->
  (exists i c, cpus s !! i = Some c /\ cpu_is_busy c = true)
  \/ (exists j d, io_devices s !! j = Some d /\ io_is_busy d = true).
Proof.
  intros [Hsc Hsi] Hc Hi. unfold run_condition.
  destruct (ready_queue s) as [|p q] eqn:Hq.
  - destruct (wait_queue s) as [|p' q'] eqn:Hw.
    + intros H. apply orb_true_iff in H as [H|H]; apply existsb_exists in H as (x & Hin & Hx);
        apply list_elem_of_In, list_elem_of_lookup_1 in Hin as [k Hk]; [left|right]; eauto.
    + intros _. right. specialize (Hsi ltac:(discriminate)).
      destruct (io_devices s) as [|d ds]; [contradiction|].
      apply Forall_cons_1 in Hsi as [Hd _]. exists 0%nat, d. split; [reflexivity|exact Hd].
  - intros _. left. specialize (Hsc ltac:(discriminate)).
    destruct (cpus s) as [|c cs]; [contradiction|].
    apply Forall_cons_1 in Hsc as [Hc0 _]. exists 0%nat, c. split; [reflexivity|exact Hc0].
Qed.

Lemma run_saturated (fuel : nat) :
  forall s,
    well_formed s -> saturated s -> cpus s <> [] -> io_devices s <> [] ->
    total_work s <= Z.of_nat fuel ->
    exists r, run fuel s = Some r.
Proof.
  induction fuel as [|fuel IH]; intros s Hs Hsat Hc Hi Hw; cbn [run];
    destruct (run_condition s) eqn:Hrun; try (eexists; reflexivity).
  - exfalso.
    pose proof (total_work_nonneg _ (step_wf s Hs)) as H0.
    destruct (saturated_busy s Hsat Hc Hi Hrun) as [(i & c & Hl & Hb)|(j & d & Hl & Hb)].
    + pose proof (step_total_lt_cpu s i c Hs Hl Hb). lia.
    + pose proof (step_total_lt_io s j d Hs Hl Hb). lia.
  - destruct (step_pools s) as [Hlc Hli].
    apply IH; [apply step_wf, Hs|apply step_saturated| | |].
    + intros Hnil. rewrite Hnil in Hlc. destruct (cpus s); [contradiction|discriminate].
    + intros Hnil. rewrite Hnil in Hli. destruct (io_devices s); [contradiction|discriminate].
    + destruct (saturated_busy s Hsat Hc Hi Hrun) as [(i & c & Hl & Hb)|(j & d & Hl & Hb)].
      * pose proof (step_total_lt_cpu s i c Hs Hl Hb). lia.
      * pose proof (step_total_lt_io s j d Hs Hl Hb). lia.
Qed.

(** The first step may find every unit idle; it leaves a saturated state
    and adds no work. *)
Lemma run_saturated_start (s : Scheduler) :
  well_formed s -> cpus s <> [] -> io_devices s <> [] ->
  exists r, run (S (Z.to_nat (total_work s))) s = Some r.
Proof.
  intros Hs Hc Hi.
  pose proof (total_work_nonneg s Hs) as H0.
  cbn [run]. destruct (run_condition s) eqn:Hrun; [|eexists; reflexivity].
  destruct (step_pools s) as [Hlc Hli].
  apply run_saturated; [apply step_wf, Hs|apply step_saturated| | |].
  - intros Hnil. rewrite Hnil in Hlc. destruct (cpus s); [contradiction|discriminate].
  - intros Hnil. rewrite Hnil in Hli. destruct (io_devices s); [contradiction|discriminate].
  - pose proof (step_total_le s Hs). lia.
Qed.

(** X17.  [run] returns.  From a well-formed state of a scheduler that
    has at least one CPU and one I/O device, the loop of [run] ends after
    at most as many steps as the processes need ticks, plus one: no step
    adds work, and from the second step on every step of the loop finds a
    busy unit and takes at least one tick of work.  The clock has then
    advanced by that number of steps. *)
Theorem run_terminates (s : Scheduler) :
  well_formed s -> cpus s <> [] -> io_devices s <> [] ->
  exists r k,
    run (S (Z.to_nat (total_work s))) s = Some r
    /\ r = steps k s
    /\ Z.of_nat k <= total_work s + 1
    /\ clock r = clock s + Z.of_nat k.
Proof.
  intros Hs Hc Hi.
  pose proof (total_work_nonneg s Hs) as H0.
  destruct (run_saturated_start s Hs Hc Hi) as [r Hr].
  destruct (run_is_steps _ _ _ Hr) as (k & Hk & -> & _).
  exists (steps k s), k. split; [exact Hr|]. split; [reflexivity|].
  split; [lia|apply steps_clock].
Qed.

Lemma run_terminates_witness :
  exists r k,
    run (S (Z.to_nat (total_work S1))) S1 = Some r
    /\ r = steps k S1
    /\ Z.of_nat k <= total_work S1 + 1
    /\ clock r = clock S1 + Z.of_nat k.
Proof.
  assert (H1 : well_formed S1).
  { unfold S1. apply setup_wf.
    repeat apply Forall_cons_2; [| |apply Forall_nil_2];
      unfold cpu_ready, slice_ok; simpl; lia. }
  assert (H2 : cpus S1 <> []) by (vm_compute; discriminate).
  assert (H3 : io_devices S1 <> []) by (vm_compute; discriminate).
  exact (run_terminates S1 H1 H2 H3).
Defined.

(** ** No process is lost *)

Section Conservation.
Variable f : Process -> Z.
Hypothesis f_pid : forall p q, pid p = pid q -> f p = f q.

(** Rewrite [f] of a process that differs from [p] by its state, slice or
    bursts only into [f p]. *)
Ltac same_pid p :=
  repeat match goal with
         | |- context [f ?q] =>
             lazymatch q with
             | p => fail
             | _ => rewrite (f_pid q p eq_refl)
             end
         end.

Lemma census_record (event event_type : string) (proc device : option string)
    (s : Scheduler) :
  census f (_record event event_type proc device s) = census f s.
Proof. reflexivity. Qed.

Lemma census_insert_ready (p : Process) (s : Scheduler) :
  census f
    (set_ready_queue (_insert_into_ready_queue (algorithm s) p (ready_queue s)) s)
  = census f s + f p.
Proof.
  unfold census. simpl.
  rewrite (sum_of_perm f _ _ (insert_permutation (algorithm s) p (ready_queue s))).
  unfold sum_of. simpl. lia.
Qed.

Lemma census_select (s : Scheduler) (p : Process) (queue : list Process) :
  _select_process_for_cpu (algorithm s) (ready_queue s) = (Some p, queue) ->
  census f (set_ready_queue queue s) = census f s - f p.
Proof.
  intros Hsel. unfold census. simpl.
  rewrite (sum_of_perm f _ _ (select_permutation _ _ _ _ Hsel)).
  unfold sum_of. simpl. lia.
Qed.

Lemma census_set_cpu (i : nat) (c c' : CPU) (s : Scheduler) :
  cpus s !! i = Some c ->
  census f (set_cpu i c' s)
  = census f s - from_option f 0 (cpu_current c) + from_option f 0 (cpu_current c').
Proof.
  intros Hc. unfold census. simpl. rewrite (sum_of_insert _ _ _ _ _ Hc). lia.
Qed.

Lemma census_set_io_device (j : nat) (d d' : IODevice) (s : Scheduler) :
  io_devices s !! j = Some d ->
  census f (set_io_device j d' s)
  = census f s - from_option f 0 (io_current d) + from_option f 0 (io_current d').
Proof.
  intros Hd. unfold census. simpl. rewrite (sum_of_insert _ _ _ _ _ Hd). lia.
Qed.

Lemma rr_quantum_census (i : nat) (cpu c0 : CPU) (cur : Process) (s : Scheduler) :
  cpus s !! i = Some c0 -> cpu_current c0 = Some cur ->
  census f (rr_quantum i cpu cur s) = census f s.
Proof.
  intros Hc Hcur. unfold rr_quantum. destruct (_ && _).
  - rewrite census_record.
    rewrite (census_insert_ready _ (set_cpu i (mkCPU (cid cpu) None) s)).
    rewrite (census_set_cpu i c0 _ s Hc), Hcur. cbn [cpu_current from_option].
    same_pid cur. lia.
  - rewrite (census_set_cpu i c0 _ s Hc), Hcur. cbn [cpu_current from_option].
    same_pid cur. lia.
Qed.

Lemma preempt_census (i : nat) (cpu c0 : CPU) (cur best : Process) (label : string)
    (s : Scheduler) :
  cpus s !! i = Some c0 -> cpu_current c0 = Some cur ->
  census f (preempt i cpu cur best label s) = census f s.
Proof.
  intros Hc Hcur. unfold preempt.
  pose proof (census_insert_ready (set_state Ready cur) s) as H1.
  pose proof (insert_permutation (algorithm s) (set_state Ready cur) (ready_queue s))
    as Hperm.
  set (s1 := set_ready_queue _ s) in *.
  destruct (_select_process_for_cpu (algorithm s1) (ready_queue s1))
    as [[new_proc|] queue] eqn:Hsel.
  - rewrite census_record.
    rewrite (census_set_cpu i c0 _ (set_ready_queue queue s1)) by exact Hc.
    rewrite (census_select s1 new_proc queue Hsel), H1, Hcur.
    unfold cpu_assign. cbn [cpu_current from_option].
    same_pid new_proc. same_pid cur. lia.
  - apply select_none in Hsel as [Hnil _]. simpl in Hnil. rewrite Hnil in Hperm.
    apply Permutation_nil_cons in Hperm. contradiction.
Qed.

Lemma preemptive_census (i : nat) (cpu c0 : CPU) (cur : Process) (s : Scheduler) :
  cpus s !! i = Some c0 -> cpu_current c0 = Some cur ->
  census f (preemptive i cpu cur s) = census f s.
Proof.
  intros Hc Hcur. unfold preemptive.
  destruct (ready_queue s) as [|x rest]; [reflexivity|].
  destruct (algorithm s); try reflexivity.
  - destruct (_ <? _); [apply (preempt_census i cpu c0); assumption|reflexivity].
  - destruct (_ <? _); [apply (preempt_census i cpu c0); assumption|reflexivity].
Qed.

Lemma cpu_completion_census (cpu : CPU) (proc : Process) (s : Scheduler) :
  census f (cpu_completion cpu proc s) = census f s + f proc.
Proof.
  unfold cpu_completion. destruct (current_burst proc) as [[n|ty d]|].
  - rewrite census_record, census_insert_ready.
    rewrite (f_pid (set_state Ready proc) proc eq_refl). reflexivity.
  - rewrite census_record. unfold census. simpl. rewrite sum_of_app.
    change (sum_of f [set_state Waiting proc]) with (f (set_state Waiting proc) + 0).
    rewrite (f_pid (set_state Waiting proc) proc eq_refl). lia.
  - rewrite census_record. unfold census. simpl. rewrite sum_of_app.
    change (sum_of f [set_state Finished proc]) with (f (set_state Finished proc) + 0).
    rewrite (f_pid (set_state Finished proc) proc eq_refl). lia.
Qed.

Lemma io_completion_census (dev : IODevice) (proc : Process) (s : Scheduler) :
  census f (io_completion dev proc s) = census f s + f proc.
Proof.
  unfold io_completion. destruct (current_burst proc) as [b|].
  - rewrite census_record, census_insert_ready.
    rewrite (f_pid (set_state Ready proc) proc eq_refl). reflexivity.
  - rewrite census_record. unfold census. simpl. rewrite sum_of_app.
    change (sum_of f [set_state Finished proc]) with (f (set_state Finished proc) + 0).
    rewrite (f_pid (set_state Finished proc) proc eq_refl). lia.
Qed.

(** A tick keeps the process, on the unit or off it. *)
Lemma cpu_tick_census (c : CPU) :
  from_option f 0 (cpu_current (fst (cpu_tick c))) + from_option f 0 (snd (cpu_tick c))
  = from_option f 0 (cpu_current c).
Proof.
  unfold cpu_tick. destruct (cpu_current c) as [p|] eqn:Hp; [|simpl; rewrite Hp; reflexivity].
  destruct (current_burst p) as [[n|ty d]|]; try (simpl; rewrite Hp; simpl; lia).
  destruct (n - 1 =? 0); cbn [fst snd cpu_current io_current from_option];
    same_pid p; lia.
Qed.

Lemma io_tick_census (d : IODevice) :
  from_option f 0 (io_current (fst (io_tick d))) + from_option f 0 (snd (io_tick d))
  = from_option f 0 (io_current d).
Proof.
  unfold io_tick. destruct (io_current d) as [p|] eqn:Hp; [|simpl; rewrite Hp; reflexivity].
  destruct (current_burst p) as [[n|ty n]|]; try (simpl; rewrite Hp; simpl; lia).
  destruct (n - 1 =? 0); cbn [fst snd cpu_current io_current from_option];
    same_pid p; lia.
Qed.

Lemma step_cpu_census (i : nat) (s : Scheduler) :
  census f (step_cpu i s) = census f s.
Proof.
  unfold step_cpu. destruct (cpus s !! i) as [c|] eqn:Hc; [|reflexivity].
  pose proof (cpu_tick_census c) as Htick.
  destruct (cpu_tick c) as [cpu proc]. simpl in Htick.
  pose proof (census_set_cpu i c cpu s Hc) as H1.
  pose proof (set_cpu_lookup i c cpu s Hc) as H2.
  set (s1 := set_cpu i cpu s) in *.
  assert (H3 : census f
                 match cpu_current cpu with
                 | Some cur =>
                     match algorithm s1 with
                     | RR => rr_quantum i cpu cur s1
                     | _ => preemptive i cpu cur s1
                     end
                 | None => s1
                 end = census f s1).
  { destruct (cpu_current cpu) as [cur|] eqn:Hcur; [|reflexivity].
    destruct (algorithm s1);
      first [apply (rr_quantum_census i cpu cpu cur s1 H2 Hcur)
            |apply (preemptive_census i cpu cpu cur s1 H2 Hcur)]. }
  destruct proc as [proc|]; [rewrite cpu_completion_census|]; rewrite H3, H1;
    simpl in Htick; lia.
Qed.

Lemma step_io_census (j : nat) (s : Scheduler) :
  census f (step_io j s) = census f s.
Proof.
  unfold step_io. destruct (io_devices s !! j) as [d|] eqn:Hd; [|reflexivity].
  pose proof (io_tick_census d) as Htick.
  destruct (io_tick d) as [dev proc]. simpl in Htick.
  pose proof (census_set_io_device j d dev s Hd) as H1.
  destruct proc as [proc|]; [rewrite io_completion_census|]; rewrite H1;
    simpl in Htick; lia.
Qed.

Lemma dispatch_cpu_census (i : nat) (s : Scheduler) :
  census f (dispatch_cpu i s) = census f s.
Proof.
  unfold dispatch_cpu. destruct (cpus s !! i) as [cpu|] eqn:Hc; [|reflexivity].
  unfold cpu_is_busy. destruct (cpu_current cpu) eqn:Hcur; [reflexivity|]. simpl.
  destruct (_select_process_for_cpu (algorithm s) (ready_queue s))
    as [[proc|] queue] eqn:Hsel; [|reflexivity].
  rewrite census_record.
  rewrite (census_set_cpu i cpu _ (set_ready_queue queue s)) by exact Hc.
  rewrite (census_select s proc queue Hsel), Hcur. simpl.
  rewrite (f_pid (set_state Running proc) proc eq_refl). lia.
Qed.

Lemma dispatch_io_census (j : nat) (s : Scheduler) :
  census f (dispatch_io j s) = census f s.
Proof.
  unfold dispatch_io. destruct (io_devices s !! j) as [dev|] eqn:Hd; [|reflexivity].
  unfold io_is_busy. destruct (io_current dev) eqn:Hcur; [reflexivity|]. simpl.
  destruct (wait_queue s) as [|proc queue] eqn:Hq; [reflexivity|].
  rewrite census_record.
  rewrite (census_set_io_device j dev _ (set_wait_queue queue s)) by exact Hd.
  unfold census. simpl. rewrite Hq, Hcur. unfold sum_of. simpl. lia.
Qed.

Lemma admit_loop_finished (copy : list Process) :
  forall arrivals s, finished (snd (admit_loop copy arrivals s)) = finished s.
Proof.
  induction copy as [|p copy IH]; intros arrivals s; simpl; [reflexivity|].
  destruct (arrival_time p <=? clock s); rewrite IH; reflexivity.
Qed.

Lemma record_arrivals_finished (arrivals : list Process) :
  forall s, finished (fold_left record_arrival arrivals s) = finished s.
Proof.
  induction arrivals as [|p arrivals IH]; intros s; simpl; [reflexivity|].
  rewrite IH. reflexivity.
Qed.

Lemma admit_arrivals_census (s : Scheduler) :
  census f (admit_arrivals s) = census f s.
Proof.
  unfold admit_arrivals.
  pose proof (admit_loop_spec (future_processes s) [] [] s eq_refl (Forall_nil_2 _))
    as Hloop.
  pose proof (admit_loop_frame (future_processes s) [] s) as Hframe.
  pose proof (admit_loop_finished (future_processes s) [] s) as Hfin.
  destruct (admit_loop (future_processes s) [] s) as [arrivals s1].
  simpl in Hloop, Hframe, Hfin.
  destruct Hloop as (_ & Hf & Hr & _).
  destruct Hframe as (_ & Hc & Hi & _ & _ & Hw).
  destruct (record_arrivals_frame arrivals s1) as (_ & Hc' & Hi' & _ & Hr' & Hw').
  destruct (record_arrivals_events arrivals s1) as (_ & Hf' & _).
  unfold census.
  rewrite (record_arrivals_finished arrivals s1), Hfin.
  rewrite Hc', Hi', Hr', Hw', Hf', Hc, Hi, Hw, Hf, Hr.
  rewrite (sum_of_perm f _ _ (fold_insert_permutation _ _ _)).
  rewrite sum_of_app, sum_of_map.
  assert (Hmap : forall l, sum_of (fun x => f (set_state Ready x)) l = sum_of f l).
  { intros l. unfold sum_of. induction l as [|y l IH]; simpl; [reflexivity|].
    rewrite IH, (f_pid (set_state Ready y) y eq_refl). reflexivity. }
  rewrite Hmap.
  pose proof (sum_of_filter f (fun p => arrival_time p <=? clock s)
                (future_processes s)) as Hsum.
  cbv beta in Hsum. lia.
Qed.

Lemma step_census (s : Scheduler) : census f (step s) = census f s.
Proof.
  unfold step, tick_cpus, tick_ios, dispatch_cpus, dispatch_ios.
  match goal with |- census f (set_clock _ ?x) = _ => change (census f x = census f s) end.
  apply (for_each_preserves (fun s' => census f s' = census f s)).
  { intros j s' Hs'. rewrite dispatch_io_census. exact Hs'. }
  apply (for_each_preserves (fun s' => census f s' = census f s)).
  { intros j s' Hs'. rewrite dispatch_cpu_census. exact Hs'. }
  apply (for_each_preserves (fun s' => census f s' = census f s)).
  { intros j s' Hs'. rewrite step_io_census. exact Hs'. }
  apply (for_each_preserves (fun s' => census f s' = census f s)).
  { intros j s' Hs'. rewrite step_cpu_census. exact Hs'. }
  apply admit_arrivals_census.
Qed.

Lemma steps_census (n : nat) : forall s, census f (steps n s) = census f s.
Proof.
  induction n as [|n IH]; intros s; simpl; [reflexivity|].
  rewrite IH. apply step_census.
Qed.

Lemma add_process_census (p : Process) (s : Scheduler) :
  census f (add_process p s) = census f s + f p.
Proof.
  unfold add_process. destruct (arrival_time p <=? clock s).
  - rewrite census_record, census_insert_ready.
    rewrite (f_pid (set_state Ready p) p eq_refl). reflexivity.
  - unfold census. simpl. rewrite (sum_of_perm f _ _ (sort_by_perm _ _)).
    rewrite sum_of_app. change (sum_of f [p]) with (f p + 0). lia.
Qed.

Lemma setup_census (num_cpus num_ios : nat) (alg : Algorithm) (processes : list Process) :
  census f (setup num_cpus num_ios alg processes) = sum_of f processes.
Proof.
  unfold setup.
  assert (H : forall s, census f (fold_left (fun s p => add_process p s) processes s)
                        = census f s + sum_of f processes).
  { induction processes as [|p ps IH]; intros s; simpl; [unfold sum_of; simpl; lia|].
    rewrite IH, add_process_census. unfold sum_of. simpl. lia. }
  rewrite H. unfold census. simpl.
  assert (Hc : forall n k, sum_of (fun c => from_option f 0 (cpu_current c))
                             (map (fun i => mkCPU i None) (seq k n)) = 0).
  { induction n as [|n IH]; intros k; simpl; [reflexivity|].
    unfold sum_of in *. simpl. rewrite IH. reflexivity. }
  assert (Hd : forall n k, sum_of (fun d => from_option f 0 (io_current d))
                             (map (fun i => mkIODevice i None) (seq k n)) = 0).
  { induction n as [|n IH]; intros k; simpl; [reflexivity|].
    unfold sum_of in *. simpl. rewrite IH. reflexivity. }
  rewrite Hc, Hd. unfold sum_of. simpl. lia.
Qed.

End Conservation.

Lemma sum_of_has_pid (x : string) (l : list Process) :
  sum_of (has_pid x) l = Z.of_nat (count_occ string_dec (map pid l) x).
Proof.
  unfold sum_of. induction l as [|p l IH]; simpl; [reflexivity|].
  rewrite IH. unfold has_pid.
  destruct (string_dec (pid p) x) as [->|Hne].
  - rewrite String.eqb_refl. lia.
  - destruct (String.eqb_spec (pid p) x); [contradiction|lia].
Qed.

Lemma sum_of_omap {A : Type} (f : Process -> Z) (g : A -> option Process) (l : list A) :
  sum_of (fun a => from_option f 0 (g a)) l = sum_of f (omap g l).
Proof.
  induction l as [|a l IH]; [reflexivity|].
  change (sum_of (fun a => from_option f 0 (g a)) (a :: l))
    with (from_option f 0 (g a) + sum_of (fun a => from_option f 0 (g a)) l).
  rewrite IH. cbn [omap list_omap]. destruct (g a) as [p|]; cbn [from_option].
  - reflexivity.
  - lia.
Qed.

Lemma census_all_processes (f : Process -> Z) (s : Scheduler) :
  census f s = sum_of f (all_processes s ++ future_processes s).
Proof.
  unfold census, all_processes. rewrite !sum_of_app, !sum_of_omap. lia.
Qed.

Lemma has_pid_same (x : string) (p q : Process) :
  pid p = pid q -> has_pid x p = has_pid x q.
Proof. unfold has_pid. intros ->. reflexivity. Qed.

Lemma one_same (p q : Process) : pid p = pid q -> (fun _ : Process => 1) p = (fun _ => 1) q.
Proof. reflexivity. Qed.

Lemma sum_of_one {A : Type} (l : list A) : sum_of (fun _ => 1) l = Z.of_nat (length l).
Proof. unfold sum_of. induction l as [|a l IH]; simpl length; simpl foldr; lia. Qed.

Lemma census_pids (s1 s2 : Scheduler) :
  (forall x, census (has_pid x) s1 = census (has_pid x) s2) ->
  Permutation (map pid (all_processes s1 ++ future_processes s1))
              (map pid (all_processes s2 ++ future_processes s2)).
Proof.
  intros H. apply (Permutation_count_occ string_dec). intros x.
  specialize (H x). rewrite !census_all_processes, !sum_of_has_pid in H. lia.
Qed.

Lemma processes_keys (l : list Process) :
  forall (m : gmap string Process) (x : string),
    is_Some (fold_left (fun rdict p => <[pid p := p]> rdict) l m !! x)
    <-> is_Some (m !! x) \/ In x (map pid l).
Proof.
  induction l as [|p l IH]; intros m x; simpl; [tauto|].
  rewrite IH. destruct (decide (pid p = x)) as [<-|Hne].
  - rewrite lookup_insert_eq. split; [intros _; right; left; reflexivity|].
    intros _. left. eexists. reflexivity.
  - rewrite lookup_insert_ne by exact Hne. tauto.
Qed.

(** X18.  [step] and [add_process] neither lose nor duplicate a process.
    The pids of the list that [Scheduler.processes] builds, together with
    those of [future_processes], are after a step the pids before it, and
    after [add_process] those before it and the pid of the new process,
    each as often.  The keys of the dict that [Scheduler.processes]
    returns are the pids of that list. *)
Theorem step_conserves_processes (s : Scheduler) (p : Process) :
  Permutation (map pid (all_processes (step s) ++ future_processes (step s)))
              (map pid (all_processes s ++ future_processes s))
  /\ Permutation
       (map pid (all_processes (add_process p s) ++ future_processes (add_process p s)))
       (pid p :: map pid (all_processes s ++ future_processes s))
  /\ forall x, is_Some (processes s !! x) <-> In x (map pid (all_processes s)).
Proof.
  split; [|split].
  - apply census_pids. intros x. apply step_census, has_pid_same.
  - apply (Permutation_count_occ string_dec). intros x.
    pose proof (add_process_census (has_pid x) (has_pid_same x) p s) as H.
    rewrite !census_all_processes, !sum_of_has_pid in H.
    change (pid p :: map pid (all_processes s ++ future_processes s))
      with (map pid (p :: all_processes s ++ future_processes s)).
    pose proof (sum_of_has_pid x (p :: all_processes s ++ future_processes s)) as H2.
    change (sum_of (has_pid x) (p :: all_processes s ++ future_processes s))
      with (has_pid x p + sum_of (has_pid x) (all_processes s ++ future_processes s)) in H2.
    rewrite sum_of_has_pid in H2. lia.
  - intros x. unfold processes. rewrite processes_keys, lookup_empty.
    split; [intros [[? H]|H]; [discriminate|exact H]|intros H; right; exact H].
Qed.

Lemma pids_of_counts (l1 l2 : list Process) :
  (forall x, sum_of (has_pid x) l1 = sum_of (has_pid x) l2) ->
  Permutation (map pid l1) (map pid l2).
Proof.
  intros H. apply (Permutation_count_occ string_dec). intros x.
  specialize (H x). rewrite !sum_of_has_pid in H. lia.
Qed.

(** When [run] returns, the queues and the units are empty, and the
    processes of the workload are in [finished] or in [future_processes],
    whatever weight counts them. *)
Lemma run_returns_census (num_cpus num_ios : nat) (alg : Algorithm)
    (workload : list Process) (fuel : nat) (r : Scheduler) :
  run fuel (setup num_cpus num_ios alg workload) = Some r ->
  all_processes r = finished r
  /\ forall f, (forall p q, pid p = pid q -> f p = f q) ->
               sum_of f (finished r ++ future_processes r) = sum_of f workload.
Proof.
  intros Hrun.
  destruct (run_condition_false r (run_returns_idle fuel _ r Hrun))
    as (Hr & Hw & Hc & Hi).
  destruct (run_is_steps _ _ _ Hrun) as (k & _ & Hk & _).
  assert (Hall : all_processes r = finished r).
  { unfold all_processes. rewrite Hr, Hw. simpl.
    assert (H1 : omap cpu_current (cpus r) = []).
    { clear -Hc. induction Hc as [|c l Hc0 _ IH]; simpl; [reflexivity|].
      rewrite Hc0. exact IH. }
    assert (H2 : omap io_current (io_devices r) = []).
    { clear -Hi. induction Hi as [|c l Hc0 _ IH]; simpl; [reflexivity|].
      rewrite Hc0. exact IH. }
    rewrite H1, H2, !app_nil_r. reflexivity. }
  split; [exact Hall|].
  intros f Hf. rewrite <- Hall, <- census_all_processes, Hk.
  rewrite (steps_census f Hf), (setup_census f Hf). reflexivity.
Qed.

(** X19.  When [run] returns, every process the driver added is either
    finished or still in [future_processes], once each: the finished
    processes are all that [Scheduler.processes] lists, and their pids
    with those of [future_processes] are the pids of the workload. *)
Theorem run_accounts_for_every_process (num_cpus num_ios : nat) (alg : Algorithm)
    (workload : list Process) (fuel : nat) (r : Scheduler) :
  run fuel (setup num_cpus num_ios alg workload) = Some r ->
  all_processes r = finished r
  /\ Permutation (map pid (finished r ++ future_processes r)) (map pid workload)
  /\ (length (finished r) + length (future_processes r) = length workload)%nat.
Proof.
  intros Hrun.
  destruct (run_returns_census _ _ _ _ _ _ Hrun) as [Hall Hcount].
  split; [exact Hall|]. split.
  - apply pids_of_counts. intros x. apply Hcount, has_pid_same.
  - pose proof (Hcount (fun _ => 1) one_same) as H.
    rewrite !sum_of_one, length_app in H. lia.
Qed.

Lemma run_accounts_for_every_process_witness :
  all_processes (steps 6 S1) = finished (steps 6 S1)
  /\ Permutation (map pid (finished (steps 6 S1) ++ future_processes (steps 6 S1)))
                 (map pid [S1_P1; S1_P2])
  /\ (length (finished (steps 6 S1)) + length (future_processes (steps 6 S1))
      = length [S1_P1; S1_P2])%nat.
Proof.
  assert (H : run 6 (setup 1 1 FCFS [S1_P1; S1_P2]) = Some (steps 6 S1))
    by (vm_compute; reflexivity).
  exact (run_accounts_for_every_process 1 1 FCFS [S1_P1; S1_P2] 6 (steps 6 S1) H).
Defined.

(** ** The processes [run] leaves out *)

Lemma step_cpu_future (i : nat) (s : Scheduler) :
  future_processes (step_cpu i s) = future_processes s.
Proof. unfold_phases. repeat break_match; reflexivity. Qed.

Lemma step_io_future (j : nat) (s : Scheduler) :
  future_processes (step_io j s) = future_processes s.
Proof. unfold_phases. repeat break_match; reflexivity. Qed.

Lemma dispatch_cpu_future (i : nat) (s : Scheduler) :
  future_processes (dispatch_cpu i s) = future_processes s.
Proof. unfold_phases. repeat break_match; reflexivity. Qed.

Lemma dispatch_io_future (j : nat) (s : Scheduler) :
  future_processes (dispatch_io j s) = future_processes s.
Proof. unfold_phases. repeat break_match; reflexivity. Qed.

(** A step takes from [future_processes] the processes that are due and
    leaves the others in their order. *)
Lemma step_future (s : Scheduler) :
  future_processes (step s)
  = List.filter (fun p => negb (arrival_time p <=? clock s)) (future_processes s).
Proof.
  unfold step, tick_cpus, tick_ios, dispatch_cpus, dispatch_ios. simpl.
  set (l := List.filter _ _).
  apply (for_each_preserves (fun s' => future_processes s' = l)).
  { intros j s' Hs'. rewrite dispatch_io_future. exact Hs'. }
  apply (for_each_preserves (fun s' => future_processes s' = l)).
  { intros j s' Hs'. rewrite dispatch_cpu_future. exact Hs'. }
  apply (for_each_preserves (fun s' => future_processes s' = l)).
  { intros j s' Hs'. rewrite step_io_future. exact Hs'. }
  apply (for_each_preserves (fun s' => future_processes s' = l)).
  { intros j s' Hs'. rewrite step_cpu_future. exact Hs'. }
  unfold admit_arrivals.
  pose proof (admit_loop_spec (future_processes s) [] [] s eq_refl (Forall_nil_2 _))
    as Hloop.
  destruct (admit_loop (future_processes s) [] s) as [arrivals s1].
  simpl in Hloop. destruct Hloop as (_ & Hf & _).
  destruct (record_arrivals_events arrivals s1) as (_ & Hf' & _).
  rewrite Hf', Hf. reflexivity.
Qed.

Lemma filter_filter_late (a b : Z) (l : list Process) :
  a <= b ->
  List.filter (fun p => b <? arrival_time p)
    (List.filter (fun p => a <? arrival_time p) l)
  = List.filter (fun p => b <? arrival_time p) l.
Proof.
  intros Hab. induction l as [|p l IH]; simpl; [reflexivity|].
  destruct (Z.ltb_spec a (arrival_time p)); simpl.
  - rewrite IH. reflexivity.
  - destruct (Z.ltb_spec b (arrival_time p)); [lia|exact IH].
Qed.

Lemma filter_all (test : Process -> bool) (l : list Process) :
  Forall (fun p => test p = true) l -> List.filter test l = l.
Proof.
  induction 1 as [|p l Hp _ IH]; simpl; [reflexivity|]. rewrite Hp, IH. reflexivity.
Qed.

Lemma filter_ext_late (c : Z) (l : list Process) :
  List.filter (fun p => negb (arrival_time p <=? c)) l
  = List.filter (fun p => c <? arrival_time p) l.
Proof.
  apply List.filter_ext. intros p.
  destruct (Z.leb_spec (arrival_time p) c), (Z.ltb_spec c (arrival_time p));
    simpl; try reflexivity; lia.
Qed.

(** After [k] steps the processes left in [future_processes] are those
    that arrive at the new time or later. *)
Lemma steps_future (k : nat) :
  forall s,
    Forall (fun p => clock s <= arrival_time p) (future_processes s) ->
    future_processes (steps k s)
    = List.filter (fun p => clock s + Z.of_nat k - 1 <? arrival_time p)
        (future_processes s).
Proof.
  induction k as [|k IH]; intros s Hs.
  - simpl steps. symmetry. apply filter_all.
    eapply Forall_impl; [exact Hs|]. intros p Hp. simpl in Hp. apply Z.ltb_lt. lia.
  - cbn [steps]. rewrite IH.
    + rewrite step_future, step_clock, filter_ext_late.
      rewrite filter_filter_late by lia.
      apply List.filter_ext. intros p. f_equal. lia.
    + rewrite step_future, step_clock, filter_ext_late.
      apply Forall_forall. intros p Hp.
      apply list_elem_of_In, filter_In in Hp as [_ Hp]. apply Z.ltb_lt in Hp. lia.
Qed.

Lemma filter_permutation (test : Process -> bool) (l1 l2 : list Process) :
  Permutation l1 l2 -> Permutation (List.filter test l1) (List.filter test l2).
Proof.
  induction 1 as [|x l1 l2 _ IH|x y l|l1 l2 l3 _ IH1 _ IH2]; simpl.
  - reflexivity.
  - destruct (test x); [apply perm_skip|]; exact IH.
  - destruct (test x), (test y); try reflexivity. apply perm_swap.
  - etransitivity; eassumption.
Qed.

(** The driver leaves in [future_processes] the processes that arrive
    after time 0, and the clock at 0. *)
Lemma setup_future (num_cpus num_ios : nat) (alg : Algorithm) (workload : list Process) :
  clock (setup num_cpus num_ios alg workload) = 0
  /\ Permutation (future_processes (setup num_cpus num_ios alg workload))
                 (List.filter (fun p => 0 <? arrival_time p) workload).
Proof.
  unfold setup.
  assert (H : forall s, clock s = 0 ->
                let s' := fold_left (fun s p => add_process p s) workload s in
                clock s' = 0
                /\ Permutation (future_processes s')
                     (future_processes s
                      ++ List.filter (fun p => 0 <? arrival_time p) workload)).
  { induction workload as [|p ps IH]; intros s Hs; simpl.
    - rewrite app_nil_r. split; [exact Hs|reflexivity].
    - destruct (IH (add_process p s)) as [Hc Hp].
      + unfold add_process. destruct (arrival_time p <=? clock s); exact Hs.
      + split; [exact Hc|]. rewrite Hp. unfold add_process. rewrite Hs.
        destruct (Z.leb_spec (arrival_time p) 0), (Z.ltb_spec 0 (arrival_time p));
          try lia; simpl.
        * reflexivity.
        * rewrite sort_by_perm, <- app_assoc. reflexivity. }
  destruct (H (init num_cpus num_ios alg) eq_refl) as [Hc Hp].
  split; [exact Hc|exact Hp].
Qed.

Lemma late_filter (k : nat) (workload : list Process) :
  List.filter (fun p => 0 + Z.of_nat k - 1 <? arrival_time p)
    (List.filter (fun p => 0 <? arrival_time p) workload)
  = List.filter (fun p => Z.max 1 (Z.of_nat k) <=? arrival_time p) workload.
Proof.
  induction workload as [|p ps IH]; simpl; [reflexivity|].
  destruct (Z.ltb_spec 0 (arrival_time p)); simpl.
  - rewrite IH.
    destruct (Z.ltb_spec (0 + Z.of_nat k - 1) (arrival_time p)),
      (Z.leb_spec (Z.max 1 (Z.of_nat k)) (arrival_time p)); try reflexivity; lia.
  - rewrite IH.
    destruct (Z.leb_spec (Z.max 1 (Z.of_nat k)) (arrival_time p)); [lia|reflexivity].
Qed.

Lemma filter_split (test : Process -> bool) (l : list Process) :
  Permutation l (List.filter test l ++ List.filter (fun p => negb (test p)) l).
Proof.
  induction l as [|p l IH]; simpl; [reflexivity|].
  destruct (test p); simpl.
  - apply perm_skip, IH.
  - rewrite <- Permutation_middle. apply perm_skip, IH.
Qed.

(** X20.  The processes [run] simulates.  When [run] returns, the
    processes left in [future_processes] are those of the workload that
    arrive at the time of the return or later (after time 0, when no step
    was made), and the finished processes are the others: a process whose
    arrival falls after the moment the machine first goes idle is never
    simulated. *)
Theorem run_leaves_late_arrivals (num_cpus num_ios : nat) (alg : Algorithm)
    (workload : list Process) (fuel : nat) (r : Scheduler) :
  run fuel (setup num_cpus num_ios alg workload) = Some r ->
  let time := Z.max 1 (clock r) in
  Permutation (future_processes r)
              (List.filter (fun p => negb (arrival_time p <? time)) workload)
  /\ Permutation (map pid (finished r))
                 (map pid (List.filter (fun p => arrival_time p <? time) workload)).
Proof.
  intros Hrun time.
  destruct (run_is_steps _ _ _ Hrun) as (k & _ & Hk & _).
  destruct (setup_future num_cpus num_ios alg workload) as [Hc0 Hf0].
  destruct (run_returns_census _ _ _ _ _ _ Hrun) as [_ Hcount].
  set (s0 := setup num_cpus num_ios alg workload) in *.
  assert (Hclock : clock r = Z.of_nat k) by (rewrite Hk, steps_clock, Hc0; lia).
  assert (Hlate : Forall (fun p => clock s0 <= arrival_time p) (future_processes s0)).
  { rewrite Hf0, Hc0. apply Forall_forall. intros p Hp.
    apply list_elem_of_In, filter_In in Hp as [_ Hp]. apply Z.ltb_lt in Hp. lia. }
  assert (Hfut : Permutation (future_processes r)
                   (List.filter (fun p => negb (arrival_time p <? time)) workload)).
  { rewrite Hk, (steps_future k s0 Hlate), Hc0.
    rewrite (filter_permutation _ _ _ Hf0), late_filter.
    unfold time. rewrite Hclock.
    erewrite List.filter_ext; [reflexivity|].
    intros p. simpl.
    destruct (Z.leb_spec (Z.max 1 (Z.of_nat k)) (arrival_time p)),
      (Z.ltb_spec (arrival_time p) (Z.max 1 (Z.of_nat k))); try reflexivity; lia. }
  split; [exact Hfut|].
  apply (Permutation_app_inv_r (map pid (future_processes r))).
  rewrite <- map_app.
  rewrite (pids_of_counts _ workload (fun x => Hcount (has_pid x) (has_pid_same x))).
  rewrite (filter_split (fun p => arrival_time p <? time) workload) at 1.
  rewrite map_app. apply Permutation_app_head.
  symmetry. apply Permutation_map, Hfut.
Qed.

Lemma run_leaves_late_arrivals_witness :
  let time := Z.max 1 (clock (steps 4 (setup 1 1 FCFS gap_workload))) in
  Permutation (future_processes (steps 4 (setup 1 1 FCFS gap_workload)))
              (List.filter (fun p => negb (arrival_time p <? time)) gap_workload)
  /\ Permutation (map pid (finished (steps 4 (setup 1 1 FCFS gap_workload))))
                 (map pid (List.filter (fun p => arrival_time p <? time) gap_workload)).
Proof.
  assert (H : run 20 (setup 1 1 FCFS gap_workload)
              = Some (steps 4 (setup 1 1 FCFS gap_workload)))
    by (vm_compute; reflexivity).
  exact (run_leaves_late_arrivals 1 1 FCFS gap_workload 20
           (steps 4 (setup 1 1 FCFS gap_workload)) H).
Defined.

(** ** Generated workloads in the scheduler *)








(** ** A scheduler without a CPU or without a device *)

Lemma insert_length (alg : Algorithm) (p : Process) (queue : list Process) :
  length (_insert_into_ready_queue alg p queue) = S (length queue).
Proof. apply (Permutation_length (insert_permutation alg p queue)). Qed.

Lemma admit_arrivals_queues (s : Scheduler) :
  (length (ready_queue s) <= length (ready_queue (admit_arrivals s)))%nat
  /\ wait_queue (admit_arrivals s) = wait_queue s.
Proof.
  unfold admit_arrivals.
  pose proof (admit_loop_spec (future_processes s) [] [] s eq_refl (Forall_nil_2 _))
    as Hloop.
  pose proof (admit_loop_frame (future_processes s) [] s) as Hframe.
  destruct (admit_loop (future_processes s) [] s) as [arrivals s1].
  simpl in Hloop, Hframe. destruct Hloop as (_ & _ & Hr & _).
  destruct Hframe as (_ & _ & _ & _ & _ & Hw).
  destruct (record_arrivals_frame arrivals s1) as (_ & _ & _ & _ & Hr' & Hw').
  rewrite Hr', Hw', Hr, Hw. split; [|reflexivity].
  rewrite (Permutation_length (fold_insert_permutation _ _ _)), length_app. lia.
Qed.

Lemma step_io_ready_length (j : nat) (s : Scheduler) :
  (length (ready_queue s) <= length (ready_queue (step_io j s)))%nat.
Proof.
  unfold step_io. destruct (io_devices s !! j) as [d|]; [|lia].
  destruct (io_tick d) as [dev [proc|]]; [|simpl; lia].
  unfold io_completion. destruct (current_burst proc); simpl; [|lia].
  rewrite insert_length. lia.
Qed.

Lemma step_cpu_wait_length (i : nat) (s : Scheduler) :
  (length (wait_queue s) <= length (wait_queue (step_cpu i s)))%nat.
Proof.
  unfold step_cpu. destruct (cpus s !! i) as [c|]; [|lia].
  destruct (cpu_tick c) as [cpu proc].
  set (m := match cpu_current cpu with
            | Some cur =>
                match algorithm (set_cpu i cpu s) with
                | RR => rr_quantum i cpu cur (set_cpu i cpu s)
                | _ => preemptive i cpu cur (set_cpu i cpu s)
                end
            | None => set_cpu i cpu s
            end).
  assert (H1 : wait_queue m = wait_queue s).
  { unfold m, rr_quantum, preemptive, preempt. repeat break_match; reflexivity. }
  clearbody m.
  destruct proc as [proc|]; [|rewrite H1; lia].
  unfold cpu_completion. destruct (current_burst proc) as [[n|ty d]|]; simpl;
    rewrite ?length_app, H1; simpl; lia.
Qed.

Lemma dispatch_cpu_wait_queue (i : nat) (s : Scheduler) :
  wait_queue (dispatch_cpu i s) = wait_queue s.
Proof. unfold_phases. repeat break_match; reflexivity. Qed.

Lemma step_cpu_length (i : nat) (s : Scheduler) :
  length (cpus (step_cpu i s)) = length (cpus s).
Proof.
  pose proof (progress_step_cpu s s i (progress_refl s)) as H.
  apply (map_length_eq cid), (pr_cids _ _ H).
Qed.

Lemma step_io_length (j : nat) (s : Scheduler) :
  length (io_devices (step_io j s)) = length (io_devices s).
Proof.
  pose proof (progress_step_io s s j (progress_refl s)) as H.
  apply (map_length_eq did), (pr_dids _ _ H).
Qed.

Lemma step_without_cpu (s : Scheduler) :
  cpus s = [] -> ready_queue s <> [] ->
  cpus (step s) = [] /\ ready_queue (step s) <> [].
Proof.
  intros Hc Hr.
  assert (Hlen : (1 <= length (ready_queue s))%nat)
    by (destruct (ready_queue s); [contradiction|simpl; lia]).
  destruct (step_pools s) as [Hlc _]. rewrite Hc in Hlc.
  split; [destruct (cpus (step s)); [reflexivity|discriminate]|].
  assert (H : (1 <= length (ready_queue (step s)))%nat);
    [|destruct (ready_queue (step s)); [simpl in H; lia|discriminate]].
  unfold step. simpl.
  destruct (admit_arrivals_queues s) as [Ha _].
  destruct (admit_arrivals_frame s) as (_ & Hca & _). rewrite Hc in Hca.
  set (a := admit_arrivals s) in *.
  assert (Hb : tick_cpus a = a) by (unfold tick_cpus; rewrite Hca; reflexivity).
  rewrite Hb. set (c := tick_ios a).
  assert (Hcc : cpus c = [] /\ (1 <= length (ready_queue c))%nat).
  { unfold c, tick_ios.
    apply (for_each_preserves
             (fun s' => cpus s' = [] /\ (1 <= length (ready_queue s'))%nat));
      [|split; [exact Hca|lia]].
    intros j s' [H1 H2]. rewrite step_io_cpus. split; [exact H1|].
    pose proof (step_io_ready_length j s'). lia. }
  destruct Hcc as [Hcc Hcr].
  assert (Hd : dispatch_cpus c = c) by (unfold dispatch_cpus; rewrite Hcc; reflexivity).
  rewrite Hd. destruct (dispatch_ios_ready_queue c) as [-> _]. exact Hcr.
Qed.

Lemma dispatch_cpus_wait_queue (s : Scheduler) :
  wait_queue (dispatch_cpus s) = wait_queue s
  /\ io_devices (dispatch_cpus s) = io_devices s.
Proof.
  unfold dispatch_cpus.
  apply (for_each_preserves
           (fun s' => wait_queue s' = wait_queue s /\ io_devices s' = io_devices s));
    [|split; reflexivity].
  intros i s' [H1 H2]. rewrite dispatch_cpu_wait_queue. split; [exact H1|].
  rewrite <- H2. unfold_phases. repeat break_match; reflexivity.
Qed.

Lemma step_without_device (s : Scheduler) :
  io_devices s = [] -> wait_queue s <> [] ->
  io_devices (step s) = [] /\ wait_queue (step s) <> [].
Proof.
  intros Hi Hw.
  assert (Hlen : (1 <= length (wait_queue s))%nat)
    by (destruct (wait_queue s); [contradiction|simpl; lia]).
  destruct (step_pools s) as [_ Hli]. rewrite Hi in Hli.
  split; [destruct (io_devices (step s)); [reflexivity|discriminate]|].
  assert (H : (1 <= length (wait_queue (step s)))%nat);
    [|destruct (wait_queue (step s)); [simpl in H; lia|discriminate]].
  unfold step. simpl.
  destruct (admit_arrivals_queues s) as [_ Ha].
  destruct (admit_arrivals_frame s) as (_ & _ & Hia & _). rewrite Hi in Hia.
  set (a := admit_arrivals s) in *.
  assert (Hb : io_devices (tick_cpus a) = []
               /\ (1 <= length (wait_queue (tick_cpus a)))%nat).
  { split; [rewrite tick_cpus_io_devices; exact Hia|].
    unfold tick_cpus.
    apply (for_each_preserves (fun s' => (1 <= length (wait_queue s'))%nat));
      [|rewrite Ha; exact Hlen].
    intros i s' H1. pose proof (step_cpu_wait_length i s'). lia. }
  destruct Hb as [Hbi Hbw]. set (b := tick_cpus a) in *.
  assert (Hc : tick_ios b = b) by (unfold tick_ios; rewrite Hbi; reflexivity).
  rewrite Hc.
  destruct (dispatch_cpus_wait_queue b) as [Hdw Hdi].
  assert (Hd : dispatch_ios (dispatch_cpus b) = dispatch_cpus b)
    by (unfold dispatch_ios; rewrite Hdi, Hbi; reflexivity).
  rewrite Hd, Hdw. exact Hbw.
Qed.

(** X22.  [run] does not return from a scheduler without a CPU once a
    process is in the ready queue, nor from one without a device once a
    process is in the wait queue: no step takes a process out of that
    queue, so the loop condition holds for ever. *)
Theorem run_needs_units (s : Scheduler) (fuel : nat) :
  (cpus s = [] -> ready_queue s <> [] -> run fuel s = None)
  /\ (io_devices s = [] -> wait_queue s <> [] -> run fuel s = None).
Proof.
  split.
  - revert s. induction fuel as [|fuel IH]; intros s Hc Hr; cbn [run];
      unfold run_condition; destruct (ready_queue s) eqn:E; try contradiction;
      [reflexivity|].
    rewrite <- E in Hr. destruct (step_without_cpu s Hc Hr) as [H1 H2].
    apply IH; assumption.
  - revert s. induction fuel as [|fuel IH]; intros s Hi Hw; cbn [run];
      unfold run_condition; destruct (wait_queue s) eqn:E; try contradiction.
    + destruct (ready_queue s); reflexivity.
    + rewrite <- E in Hw. destruct (step_without_device s Hi Hw) as [H1 H2].
      destruct (ready_queue s); apply IH; assumption.
Qed.

Lemma run_needs_units_witness :
  run 50 no_cpu_state = None /\ run 50 no_device_state = None.
Proof.
  split.
  - destruct (run_needs_units no_cpu_state 50) as [H _].
    apply H; [reflexivity|discriminate].
  - destruct (run_needs_units no_device_state 50) as [_ H].
    apply H; [reflexivity|discriminate].
Defined.
